(** * Korean Classroom VR: the chat and NPC-manager logic

    A shallow embedding of [src/js/ai-chat.js] (class [AIChat], smart
    response mode), of the WebLLM variant of the same class and of the
    [NPCManager] class, with the properties of the response selection,
    the conversation history, the voice selection and the manager.

    JavaScript strings are sequences of UTF-16 code units; objects used
    as tables are finite maps whose reads also see the members that every
    object inherits from [Object.prototype]; methods that read and write
    the fields of [this] and of the browser are functions in a state and
    exception monad over the record of those fields. *)

From Stdlib Require Import NArith List String Ascii Bool Lia.
From stdpp Require Import base option list gmap.

Import ListNotations.
Local Open Scope N_scope.
Local Open Scope list_scope.

(** ** Strings *)

(** A JavaScript string: its UTF-16 code units. *)
Definition jsstring : Type := list N.

(** Source text is UTF-8; [Utf8.decode] turns the bytes of a literal into
    the code units the JavaScript engine holds for it (a code point above
    [0xFFFF] becomes a surrogate pair). *)
Module Utf8.

Definition cont (b : N) : N := N.land b 63.

Definition units (cp : N) : list N :=
    if cp <? 65536 then [cp]
    else let v := cp - 65536 in
         [55296 + N.shiftr v 10; 56320 + N.land v 1023].

Fixpoint decode (bs : list N) : list N :=
    match bs with
    | [] => []
    | b :: r =>
        if b <? 128 then b :: decode r
        else if b <? 224 then
          match r with
          | b1 :: r1 => units (N.shiftl (N.land b 31) 6 + cont b1) ++ decode r1
          | _ => [b]
          end
        else if b <? 240 then
          match r with
          | b1 :: b2 :: r2 =>
              units (N.shiftl (N.land b 15) 12 + N.shiftl (cont b1) 6 + cont b2)
                ++ decode r2
          | _ => b :: decode r
          end
        else
          match r with
          | b1 :: b2 :: b3 :: r3 =>
              units (N.shiftl (N.land b 7) 18 + N.shiftl (cont b1) 12
                     + N.shiftl (cont b2) 6 + cont b3) ++ decode r3
          | _ => b :: decode r
          end
    end.

End Utf8.

(** The string denoted by a literal of the source. *)
Definition js (s : string) : jsstring :=
  Utf8.decode (map N_of_ascii (list_ascii_of_string s)).

Definition str_eqb (a b : jsstring) : bool := bool_decide (a = b).

(** [s.startsWith(p)] *)
Fixpoint startsWith (s p : jsstring) : bool :=
  match p, s with
  | [], _ => true
  | c :: p', d :: s' => (c =? d) && startsWith s' p'
  | _ :: _, [] => false
  end.

(** [s.includes(p)] *)
Fixpoint includes (s p : jsstring) : bool :=
  startsWith s p ||
  match s with
  | [] => false
  | _ :: s' => includes s' p
  end.

(** White space and line terminators, the code units [trim] strips. *)
Definition isWhiteSpace (c : N) : bool :=
  existsb (N.eqb c)
    [9; 10; 11; 12; 13; 32; 160; 5760; 8232; 8233; 8239; 8287; 12288; 65279]
  || ((8192 <=? c) && (c <=? 8202)).

Fixpoint trimStart (s : jsstring) : jsstring :=
  match s with
  | c :: s' => if isWhiteSpace c then trimStart s' else s
  | [] => []
  end.

(** [s.trim()] *)
Definition trim (s : jsstring) : jsstring :=
  rev (trimStart (rev (trimStart s))).

(** A string is falsy exactly when it is empty. *)
Definition truthy_str (s : jsstring) : bool :=
  match s with [] => false | _ => true end.

(** ASCII lower-casing of one code unit. *)
Definition lowerUnit (c : N) : N :=
  if (65 <=? c) && (c <=? 90) then c + 32 else c.

(** [String.prototype.toLowerCase] is the Unicode case mapping of the
    browser; the embedding takes it as a parameter [toLowerCase]. On
    strings of ASCII code units it is the map below, which stands for it
    on concrete inputs. *)
Definition asciiLower (s : jsstring) : jsstring := map lowerUnit s.

(** ** Regular expressions *)

Module Regex.

  (** The fragment of the regular-expression syntax that the keyword
      patterns of [generateSmartResponse] use. *)
Inductive regex : Type :=
  | Lit (w : jsstring)          (* the characters of [w] *)
  | Or (a b : regex)            (* [a|b] *)
  | Cat (a b : regex)           (* [ab] *)
  | WordB                       (* [\b] *)
  | DotStar.                    (* [.*] *)

  (** [\w]: without the [u] and [i] flags, the ASCII letters, the digits
      and the underscore. *)
Definition isWordChar (c : N) : bool :=
    ((97 <=? c) && (c <=? 122)) || ((65 <=? c) && (c <=? 90))
    || ((48 <=? c) && (c <=? 57)) || (c =? 95).

  (** [.] matches every code unit but the line terminators. *)
Definition isLineTerminator (c : N) : bool :=
    (c =? 10) || (c =? 13) || (c =? 8232) || (c =? 8233).

Definition wordBefore (prev : option N) : bool :=
    match prev with Some c => isWordChar c | None => false end.

Definition wordAfter (s : jsstring) : bool :=
    match s with c :: _ => isWordChar c | [] => false end.

  (** A position is a word boundary when exactly one of its two sides is
      a word character. *)
Definition atBoundary (prev : option N) (s : jsstring) : bool :=
    xorb (wordBefore prev) (wordAfter s).

  (** Consume the literal [w] at the current position. *)
Fixpoint eat (w : jsstring) (prev : option N) (s : jsstring)
    : option (option N * jsstring) :=
    match w with
    | [] => Some (prev, s)
    | c :: w' =>
        match s with
        | d :: s' => if c =? d then eat w' (Some d) s' else None
        | [] => None
        end
    end.

Section Star.
Variable k : option N -> jsstring -> bool.

    (** [.*] followed by [k]: any number of non-terminators, then [k]. *)
Fixpoint dotStar (prev : option N) (s : jsstring) : bool :=
      k prev s ||
      match s with
      | c :: s' => negb (isLineTerminator c) && dotStar (Some c) s'
      | [] => false
      end.
End Star.

  (** Backtracking matcher: [matchAt r k prev s] holds when [r] matches
      at the current position ([prev] is the code unit before it, [s] the
      rest of the input) and the continuation [k] accepts what follows. *)
Fixpoint matchAt (r : regex) (k : option N -> jsstring -> bool)
      (prev : option N) (s : jsstring) : bool :=
    match r with
    | Lit w => match eat w prev s with
               | Some (p, s') => k p s'
               | None => false
               end
    | Or a b => matchAt a k prev s || matchAt b k prev s
    | Cat a b => matchAt a (matchAt b k) prev s
    | WordB => atBoundary prev s && k prev s
    | DotStar => dotStar k prev s
    end.

Fixpoint searchFrom (r : regex) (prev : option N) (s : jsstring) : bool :=
    matchAt r (fun _ _ => true) prev s ||
    match s with
    | c :: s' => searchFrom r (Some c) s'
    | [] => false
    end.

  (** [s.match(r)] is truthy: the pattern matches at some position. *)
Definition matches (s : jsstring) (r : regex) : bool :=
    searchFrom r None s.

  (** [(w1|w2|...)] *)
Fixpoint alt (ws : list jsstring) : regex :=
    match ws with
    | [] => Lit []
    | [w] => Lit w
    | w :: ws' => Or (Lit w) (alt ws')
    end.

  (** [\b(w1|w2|...)\b] *)
Definition keywords (ws : list jsstring) : regex :=
    Cat WordB (Cat (alt ws) WordB).

(** A position of the input: the code unit before it and what follows. *)
Definition position : Type := option N * jsstring.

(** The meaning of the patterns. [denote r p q]: the pattern [r] matches
    the input between the positions [p] and [q]. *)
Inductive denote : regex -> position -> position -> Prop :=
| denote_nil p : denote (Lit []) p p
| denote_cons c w prev s q :
    denote (Lit w) (Some c, s) q -> denote (Lit (c :: w)) (prev, c :: s) q
| denote_left a b p q : denote a p q -> denote (Or a b) p q
| denote_right a b p q : denote b p q -> denote (Or a b) p q
| denote_cat a b p q q' : denote a p q -> denote b q q' -> denote (Cat a b) p q'
| denote_boundary prev s :
    atBoundary prev s = true -> denote WordB (prev, s) (prev, s)
| denote_stop p : denote DotStar p p
| denote_any c prev s q :
    isLineTerminator c = false ->
    denote DotStar (Some c, s) q -> denote DotStar (prev, c :: s) q.

(** The code unit before the position that follows [pre]. *)
Definition before (prev : option N) (pre : jsstring) : option N :=
  match last pre with Some c => Some c | None => prev end.

End Regex.

(** ** Values, objects and exceptions *)

(** The JavaScript values that reach the chat window, the history and the
    speech queue: a string, [undefined], or the member of
    [Object.prototype] stored under the name [k]. *)
Inductive value : Type :=
| Str (s : jsstring)
| Undefined
| ProtoMember (k : jsstring).

(** The names every plain object inherits from [Object.prototype]; each
    of them reads as a truthy value. *)
Definition ObjectPrototype : list jsstring :=
  map js ["constructor"; "hasOwnProperty"; "isPrototypeOf";
          "propertyIsEnumerable"; "toLocaleString"; "toString"; "valueOf";
          "__proto__"; "__defineGetter__"; "__defineSetter__";
          "__lookupGetter__"; "__lookupSetter__"]%string.

(** The result of the read [o[k]] on an object literal or a table built
    from [{}]. *)
Inductive member (V : Type) : Type :=
| Own (v : V)          (* a property of the object itself *)
| Inherited            (* found on [Object.prototype]: truthy, not a [V] *)
| Missing.             (* [undefined] *)
Arguments Own {V} v.
Arguments Inherited {V}.
Arguments Missing {V}.

Definition inPrototype (k : jsstring) : bool :=
  existsb (str_eqb k) ObjectPrototype.

Definition get {V : Type} (o : gmap jsstring V) (k : jsstring) : member V :=
  match o !! k with
  | Some v => Own v
  | None => if inPrototype k then Inherited else Missing
  end.

Inductive exn : Type :=
| TypeError              (* a property read on [null]/[undefined], a call of a non-function *)
| Rejected.              (* a rejected promise of the language-model engine *)

Inductive outcome (A : Type) : Type :=
| Ret (a : A)
| Throw (e : exn).
Arguments Ret {A} a.
Arguments Throw {A} e.

(** Computations over a state [S] that return or throw. *)
Definition M (S A : Type) : Type := S -> outcome A * S.

Definition ret {S A} (a : A) : M S A := fun s => (Ret a, s).
Definition throw {S A} (e : exn) : M S A := fun s => (Throw e, s).
Definition bind {S A B} (c : M S A) (k : A -> M S B) : M S B :=
  fun s => match c s with
           | (Ret a, s') => k a s'
           | (Throw e, s') => (Throw e, s')
           end.
Definition tryCatch {S A} (c : M S A) (h : exn -> M S A) : M S A :=
  fun s => match c s with
           | (Ret a, s') => (Ret a, s')
           | (Throw e, s') => h e s'
           end.
Definition gets {S A} (f : S -> A) : M S A := fun s => (Ret (f s), s).
Definition modify {S} (f : S -> S) : M S unit := fun s => (Ret tt, f s).
Definition when {S} (b : bool) (c : M S unit) : M S unit :=
  if b then c else ret tt.
(** A pure computation that may throw, run inside [M]. *)
Definition liftO {S A} (o : outcome A) : M S A := fun s => (o, s).

Declare Scope js_scope.
Delimit Scope js_scope with js.
Notation "x ← y ; z" := (bind y (fun x => z))
  (at level 20, y at level 100, z at level 200) : js_scope.
Notation "y ;; z" := (bind y (fun _ => z))
  (at level 100, z at level 200, right associativity) : js_scope.
Local Open Scope js_scope.

Fixpoint forEach {S A} (l : list A) (f : A -> M S unit) : M S unit :=
  match l with
  | [] => ret tt
  | x :: l' => f x;; forEach l' f
  end.

(** ** Random numbers *)

(** A result of [Math.random()]: the double [numer / 2^53] in [[0, 1)]. *)
Record random : Type := {
  numer : N;
  numer_lt : (numer <? 2 ^ 53) = true
}.

(** The rounding of a product of doubles: [roundNearestEven p] is the
    integer nearest to [p] among those that 53 significant bits can hold,
    the even one of the two when [p] lies half-way. [s] is the number of
    bits of [p] beyond 53. *)
Definition roundNearestEven (p : N) : N :=
  let s := N.log2 p - 52 in
  if s =? 0 then p
  else
    let q := p / 2 ^ s in
    let rest := p mod 2 ^ s in
    let half := 2 ^ (s - 1) in
    if (half <? rest) || ((rest =? half) && N.odd q)
    then (q + 1) * 2 ^ s
    else q * 2 ^ s.

(** [Math.floor(r * n)] for an array length [n]. The product of the
    doubles [numer / 2^53] and [n] is the exact product
    [numer * n / 2^53] rounded to nearest, ties to even; [Math.floor]
    of a double is exact. *)
Definition floorScale (r : random) (n : nat) : nat :=
  N.to_nat (roundNearestEven (numer r * N.of_nat n) / 2 ^ 53).

(** [arr[Math.floor(Math.random() * arr.length)]]; an index outside the
    array reads [undefined]. *)
Definition pick (r : random) (arr : list jsstring) : value :=
  match arr !! floorScale r (length arr) with
  | Some s => Str s
  | None => Undefined
  end.

Definition rnd0 : random := {| numer := 0; numer_lt := eq_refl |}.
Definition rndQuarter : random := {| numer := 2 ^ 51; numer_lt := eq_refl |}.
Definition rndHalf : random := {| numer := 2 ^ 52; numer_lt := eq_refl |}.
Definition rndMax : random := {| numer := 2 ^ 53 - 1; numer_lt := eq_refl |}.

(** ** The response tables of [generateSmartResponse] *)

(** The keys of the [responses] objects. *)
Inductive Category : Type :=
| greeting | question | name | hobby | feeling | school | study | art | joke
| default.

#[global] Instance Category_eq_dec : EqDecision Category.
Proof. solve_decision. Defined.

Definition categories : list Category :=
  [greeting; question; name; hobby; feeling; school; study; art; joke; default].

(** An entry of the [personalities] object. [responses c] is the read
    [responses[c]]: [None] where the object has no such key. *)
Record Personality : Type := {
  style : jsstring;
  traits : list jsstring;
  responses : Category -> option (list jsstring)
}.

Definition minjun : Personality := {|
  style := js "formal and helpful";
  traits := map js ["eager"; "responsible"; "polite"]%string;
  responses := fun c =>
    match c with
    | greeting => Some (map js
        ["Hello! How can I assist you, 선생님?";
         "Good to see you, teacher! What would you like to discuss?"]%string)
    | question => Some (map js
        ["That's a great question! Let me think... I believe the answer involves careful consideration of all factors.";
         "I've actually studied this! The key point is to approach it systematically."]%string)
    | name => Some (map js
        ["I'm Min-jun, 민준 in Korean. I'm the class president this year!";
         "My name is Min-jun! I try my best to help everyone in class."]%string)
    | hobby => Some (map js
        ["I enjoy organizing study groups and helping classmates. I also like reading history books!";
         "Besides studying, I volunteer at the school library. It's important to give back!"]%string)
    | feeling => Some (map js
        ["I'm doing well, thank you for asking! Ready to learn as always.";
         "I feel motivated today! There's so much to accomplish."]%string)
    | school => Some (map js
        ["School is very important to me. Education opens many doors!";
         "I love our school! The teachers here are wonderful."]%string)
    | default => Some (map js
        ["Yes, 선생님! I understand."; "I'll do my best to help!";
         "That's interesting! Tell me more."]%string)
    | _ => None
    end
|}.

Definition sooyeon : Personality := {|
  style := js "shy and artistic";
  traits := map js ["quiet"; "creative"; "thoughtful"]%string;
  responses := fun c =>
    match c with
    | greeting => Some (map js
        ["Oh... hi... *looks down*"; "H-hello, teacher..."]%string)
    | question => Some (map js
        ["Um... I think... maybe... *pauses* ...I'm not entirely sure, but perhaps...";
         "That's... that's a hard question... let me think..."]%string)
    | name => Some (map js
        ["I'm... Soo-yeon... 수연... *quietly*";
         "My name is Soo-yeon. Most people don't notice me much..."]%string)
    | hobby => Some (map js
        ["I... I like to draw... *shows sketchbook nervously* ...would you like to see?";
         "I spend most of my time drawing. It helps me express things I can't say..."]%string)
    | feeling => Some (map js
        ["I'm... okay, I guess... *looks out window*";
         "A little tired today... I was up late drawing..."]%string)
    | art => Some (map js
        ["*eyes light up* Oh! You want to see my art? I... I drew the sky outside today...";
         "Drawing is... it's like my voice, you know? When I can't speak, I draw."]%string)
    | default => Some (map js
        ["...okay."; "*nods quietly*"; "I see..."; "...maybe..."]%string)
    | _ => None
    end
|}.

Definition jihoon : Personality := {|
  style := js "funny and casual";
  traits := map js ["humorous"; "friendly"; "energetic"]%string;
  responses := fun c =>
    match c with
    | greeting => Some (map js
        ["Yo, 선생님! What's good?";
         "Hey hey hey! Finally, someone fun to talk to!"]%string)
    | question => Some (map js
        ["Ooh, tough question! Let me put on my thinking cap... 🤔 Actually, I lost my thinking cap. Haha!";
         "Hmm, let me consult my brain... it says 'error 404: answer not found'! Just kidding, I think..."]%string)
    | name => Some (map js
        ["The name's Ji-hoon! 지훈! The one and only class entertainer!";
         "I'm Ji-hoon! If you ever need a laugh, I'm your guy!"]%string)
    | hobby => Some (map js
        ["I'm basically a professional meme collector. Also, I play games and make everyone laugh!";
         "Hobbies? Making people smile! Also sneaking snacks into class... don't tell anyone!"]%string)
    | feeling => Some (map js
        ["Living the dream, teach! Or at least dreaming about living, haha!";
         "Feeling awesome! Every day is a chance for new jokes!"]%string)
    | joke => Some (map js
        ["Why did the student eat his homework? Because his teacher said it was a piece of cake! 🎂";
         "What do you call a sleeping dinosaur? A dino-snore! Get it?"]%string)
    | default => Some (map js
        ["Ha! Nice one!"; "That's hilarious... wait, was that serious?";
         "You got it, boss!"; "This class just got interesting!"]%string)
    | _ => None
    end
|}.

Definition yuna : Personality := {|
  style := js "studious and precise";
  traits := map js ["academic"; "competitive"; "focused"]%string;
  responses := fun c =>
    match c with
    | greeting => Some (map js
        ["Good day, teacher. I've prepared for today's lesson.";
         "Hello. I hope we're covering something challenging today."]%string)
    | question => Some (map js
        ["According to my research, the answer is... *checks notes* ...yes, I have it documented here.";
         "I've actually written a summary on this topic. The key factors are..."]%string)
    | name => Some (map js
        ["I'm Yuna, 유나. Currently ranked second in our grade. I'm working on being first.";
         "My name is Yuna. I take my studies very seriously."]%string)
    | hobby => Some (map js
        ["Studying, mostly. But I also enjoy solving complex math problems for fun.";
         "I participate in academic olympiads. Last month I won silver in mathematics."]%string)
    | feeling => Some (map js
        ["Focused, as always. The 수능 exam is approaching and every moment counts.";
         "A bit stressed about upcoming exams, but that's normal."]%string)
    | study => Some (map js
        ["I study at least 4 hours every day after school. Consistency is key.";
         "My study method involves active recall and spaced repetition. Very efficient."]%string)
    | default => Some (map js
        ["I should note this down."; "Interesting. Back to studying.";
         "That's useful information."; "Noted. Now, about the assignment..."]%string)
    | _ => None
    end
|}.

(** The four students. *)
Definition knownIds : list jsstring :=
  map js ["minjun"; "sooyeon"; "jihoon"; "yuna"]%string.

(** The object literal [personalities]. *)
Definition personalities : gmap jsstring Personality :=
  list_to_map [(js "minjun", minjun); (js "sooyeon", sooyeon);
               (js "jihoon", jihoon); (js "yuna", yuna)].

(** Every string of the static response tables. *)
Definition staticResponses : list jsstring :=
  concat (map (fun p => concat (omap (responses p) categories))
              [minjun; sooyeon; jihoon; yuna]).

(** The keyword patterns, in the order of the [if]/[else if] chain. *)
Module Pattern.
Import Regex.

Definition greetingRe : regex :=
    keywords (map js ["hi"; "hello"; "hey"; "greetings"; "안녕"]%string).
Definition questionRe : regex :=
    Cat (keywords (map js ["what"; "how"; "why"; "when"; "where"; "who";
                           "can you"; "do you"; "is it"]%string))
        (Cat DotStar (Lit (js "?"))).
Definition nameRe : regex :=
    keywords (map js ["name"; "who are you"; "introduce"; "call you"]%string).
Definition hobbyRe : regex :=
    keywords (map js ["hobby"; "hobbies"; "fun"; "free time"; "like to do"]%string).
Definition feelingRe : regex :=
    keywords (map js ["how are you"; "feeling"; "mood"; "doing"]%string).
Definition schoolRe : regex :=
    keywords (map js ["school"; "class"; "study"; "learn"; "exam"; "test"]%string).
Definition artRe : regex :=
    keywords (map js ["draw"; "art"; "paint"; "sketch"]%string).
Definition jokeRe : regex :=
    keywords (map js ["joke"; "funny"; "laugh"; "humor"]%string).
End Pattern.

(** The category chosen by the [if]/[else if] chain of
    [generateSmartResponse] for the lower-cased message. *)
Definition classify (npcId lowerMsg : jsstring) : Category :=
  if Regex.matches lowerMsg Pattern.greetingRe then greeting
  else if Regex.matches lowerMsg Pattern.questionRe then question
  else if Regex.matches lowerMsg Pattern.nameRe then name
  else if Regex.matches lowerMsg Pattern.hobbyRe then hobby
  else if Regex.matches lowerMsg Pattern.feelingRe then feeling
  else if Regex.matches lowerMsg Pattern.schoolRe then
    (if str_eqb npcId (js "yuna") then study else school)
  else if Regex.matches lowerMsg Pattern.artRe && str_eqb npcId (js "sooyeon")
  then art
  else if Regex.matches lowerMsg Pattern.jokeRe && str_eqb npcId (js "jihoon")
  then joke
  else default.

(** [npc.responses[category] || npc.responses['default']] for an entry of
    [personalities]: an array is truthy, a missing key is not. *)
Definition responsesOrDefault (npc : Personality) (c : Category)
  : option (list jsstring) :=
  match responses npc c with
  | Some arr => Some arr
  | None => responses npc default
  end.

(** [personalities[npcId] || personalities['minjun']], then the response
    array. A member of [Object.prototype] is truthy and has no
    [responses], so indexing its [responses] throws; the [None] branches
    of the entries stand for [undefined], whose index read throws too. *)
Definition candidates (npcId : jsstring) (c : Category)
  : outcome (list jsstring) :=
  match get personalities npcId with
  | Inherited => Throw TypeError
  | Own npc =>
      match responsesOrDefault npc c with
      | Some arr => Ret arr
      | None => Throw TypeError
      end
  | Missing =>
      match get personalities (js "minjun") with
      | Own npc =>
          match responsesOrDefault npc c with
          | Some arr => Ret arr
          | None => Throw TypeError
          end
      | _ => Throw TypeError
      end
  end.

(** ** The state *)

(** An entry of [STUDENT_PERSONALITIES], passed to [startConversation]
    as [config]. *)
Module Config.
Record t : Type := {
  name : jsstring;
  nameKorean : jsstring;
  personality : jsstring;
  systemPrompt : jsstring;
  idleAnimation : jsstring;
  color : jsstring
}.
End Config.

(** [this.currentNPC = { id: npcId, config }]; a controller whose name is
    not in [STUDENT_PERSONALITIES] passes [undefined] as [config]. *)
Record NPC : Type := {
  id : jsstring;
  config : option Config.t
}.

(** The [role] of a message: ['system'], ['user'], ['assistant']. *)
Inductive Role : Type := system | user | assistant.

(** An entry of a conversation history, [{ role, content }]. *)
Record Entry : Type := {
  role : Role;
  content : value
}.

(** The [type] argument of [addMessageToUI]: ['user'], ['npc'],
    ['loading'], ['system']. *)
Inductive Kind : Type := userMsg | npcMsg | loadingMsg | systemMsg.

(** A [div] appended to [#chat-messages]; [el] identifies the element. *)
Record Element : Type := {
  el : nat;
  kind : Kind;
  textContent : value
}.

Module Voice.
Record t : Type := {
  name : jsstring;
  lang : jsstring
}.
End Voice.

(** A [SpeechSynthesisUtterance]. [voice], [rate], [pitch] and [volume]
    are [None] while the code has not assigned them; the numbers are in
    hundredths. *)
Record Utterance : Type := {
  text : value;
  voice : option Voice.t;
  rate : option N;
  pitch : option N;
  volume : option N
}.

(** [window.speechSynthesis]: the installed voices and the utterances
    queued by [speak] since the last [cancel]. *)
Record Synth : Type := {
  voices : list Voice.t;
  queue : list Utterance
}.

Inductive Reaction : Type := nod | shake | excited.

(** An [npc-controller] component: [isActive], whether [this.body] was
    found, and the reactions it was asked to play. *)
Record Controller : Type := {
  isActive : bool;
  body : bool;
  reactions : list Reaction
}.

Module NPCManager.

(** The fields of the manager. [npcs] holds references: the controllers
    themselves live in the store of the scene, under their addresses. *)
Record t : Type := {
  npcs : gmap jsstring nat;
  activeNPC : option jsstring
}.

(** The manager and the store of controllers it points into. *)
Definition St : Type := t * gmap nat Controller.

Definition empty : t := {| npcs := ∅; activeNPC := None |}.

(** [controller.setActive(active)] on the controller at address [l]. *)
Definition setActive (l : nat) (active : bool) : M St unit :=
  modify (fun '(m, h) =>
    (m, match h !! l with
        | Some c => <[l := {| isActive := active; body := body c;
                              reactions := reactions c |}]> h
        | None => h
        end)).

(** [controller.react(type)]; [None] is a [type] that is [undefined],
    which no [case] of the [switch] takes. *)
Definition react (l : nat) (type : option Reaction) : M St unit :=
  modify (fun '(m, h) =>
    (m, match h !! l, type with
        | Some c, Some r =>
            if body c
            then <[l := {| isActive := isActive c; body := body c;
                           reactions := reactions c ++ [r] |}]> h
            else h
        | _, _ => h
        end)).

(** [this.npcs[id] = controller]: an own entry of the table, also under
    a name that [Object.prototype] has. The one exception is the id
    [__proto__], for which the assignment replaces the prototype of the
    table and adds no entry: that id is outside this definition, and the
    statements about [registerNPC] exclude it. *)
Definition registerNPC (id : jsstring) (controller : nat) : M St unit :=
  modify (fun '(m, h) =>
    ({| npcs := <[id := controller]> (npcs m); activeNPC := activeNPC m |}, h)).

Definition getNPC (id : jsstring) : M St (member nat) :=
  gets (fun '(m, _) => get (npcs m) id).

(** [id && this.npcs[id]] followed by a call of [method] on it: a missing
    entry is skipped, an inherited member is truthy but has no such
    method. *)
Definition onEntry (id : option jsstring) (method : nat -> M St unit)
  : M St unit :=
  match id with
  | None => ret tt
  | Some i =>
      if truthy_str i then
        e ← getNPC i;
        match e with
        | Own l => method l
        | Inherited => throw TypeError
        | Missing => ret tt
        end
      else ret tt
  end.

Definition setActiveNPC (id : option jsstring) : M St unit :=
  prev ← gets (fun '(m, _) => activeNPC m);
  onEntry prev (fun l => setActive l false);;
  modify (fun '(m, h) => ({| npcs := npcs m; activeNPC := id |}, h));;
  onEntry id (fun l => setActive l true).

Definition getActiveNPC : M St (option (member nat)) :=
  a ← gets (fun '(m, _) => activeNPC m);
  match a with
  | Some i => if truthy_str i then e ← getNPC i; ret (Some e) else ret None
  | None => ret None
  end.

(** [if (this.npcs[id]) this.npcs[id].react(type)] *)
Definition triggerReaction (id : jsstring) (r : option Reaction)
  : M St unit :=
  e ← getNPC id;
  match e with
  | Own l => react l r
  | Inherited => throw TypeError
  | Missing => ret tt
  end.

End NPCManager.

(** The fields of the [AIChat] instance that its methods read and write. *)
Record Chat : Type := {
  isLoaded : bool;
  engine : option (list Entry -> outcome jsstring);
  isGenerating : bool;
  currentNPC : option NPC;
  conversationHistory : gmap jsstring (list Entry)
}.

(** The elements of the page held by the instance; [None] where
    [getElementById] found nothing. [chatUI] is whether the panel carries
    the class [hidden], [chatInput] the value of the input box,
    [currentNPCLabel] the text of the label, [chatMessages] the children
    of the message list; [nextElement] numbers created elements. *)
Record Page : Type := {
  chatUI : option bool;
  chatMessages : option (list Element);
  chatInput : option jsstring;
  currentNPCLabel : option jsstring;
  nextElement : nat
}.

(** Everything the methods of [AIChat] touch: the instance, the page,
    [window.speechSynthesis] with the texts whose [speak] was postponed by
    a timer, [window.npcManager] and the controllers of the scene. *)
Record World : Type := {
  chat : Chat;
  page : Page;
  speechSynthesis : option Synth;
  speakLater : list value;
  npcManager : option NPCManager.t;
  controllers : gmap nat Controller
}.

Definition withChat (f : Chat -> Chat) (w : World) : World :=
  {| chat := f (chat w); page := page w;
     speechSynthesis := speechSynthesis w; speakLater := speakLater w;
     npcManager := npcManager w; controllers := controllers w |}.

Definition withPage (f : Page -> Page) (w : World) : World :=
  {| chat := chat w; page := f (page w);
     speechSynthesis := speechSynthesis w; speakLater := speakLater w;
     npcManager := npcManager w; controllers := controllers w |}.

Definition setSynth (s : option Synth) (w : World) : World :=
  {| chat := chat w; page := page w;
     speechSynthesis := s; speakLater := speakLater w;
     npcManager := npcManager w; controllers := controllers w |}.

Definition setSpeakLater (l : list value) (w : World) : World :=
  {| chat := chat w; page := page w;
     speechSynthesis := speechSynthesis w; speakLater := l;
     npcManager := npcManager w; controllers := controllers w |}.

Definition setIsGenerating (b : bool) (c : Chat) : Chat :=
  {| isLoaded := isLoaded c; engine := engine c; isGenerating := b;
     currentNPC := currentNPC c;
     conversationHistory := conversationHistory c |}.

Definition setCurrentNPC (n : option NPC) (c : Chat) : Chat :=
  {| isLoaded := isLoaded c; engine := engine c;
     isGenerating := isGenerating c; currentNPC := n;
     conversationHistory := conversationHistory c |}.

Definition setHistory (h : gmap jsstring (list Entry)) (c : Chat) : Chat :=
  {| isLoaded := isLoaded c; engine := engine c;
     isGenerating := isGenerating c; currentNPC := currentNPC c;
     conversationHistory := h |}.

Definition setChatUI (b : option bool) (p : Page) : Page :=
  {| chatUI := b; chatMessages := chatMessages p; chatInput := chatInput p;
     currentNPCLabel := currentNPCLabel p; nextElement := nextElement p |}.

Definition setChatMessages (m : option (list Element)) (p : Page) : Page :=
  {| chatUI := chatUI p; chatMessages := m; chatInput := chatInput p;
     currentNPCLabel := currentNPCLabel p; nextElement := nextElement p |}.

Definition setChatInput (v : option jsstring) (p : Page) : Page :=
  {| chatUI := chatUI p; chatMessages := chatMessages p; chatInput := v;
     currentNPCLabel := currentNPCLabel p; nextElement := nextElement p |}.

Definition setLabel (v : option jsstring) (p : Page) : Page :=
  {| chatUI := chatUI p; chatMessages := chatMessages p;
     chatInput := chatInput p; currentNPCLabel := v;
     nextElement := nextElement p |}.

Definition setNextElement (n : nat) (p : Page) : Page :=
  {| chatUI := chatUI p; chatMessages := chatMessages p;
     chatInput := chatInput p; currentNPCLabel := currentNPCLabel p;
     nextElement := n |}.

(** [if (window.npcManager) window.npcManager.method(...)]: run a method
    of the manager on the manager of the world, when there is one. *)
Definition onManager (c : M NPCManager.St unit) : M World unit :=
  fun w =>
    match npcManager w with
    | None => (Ret tt, w)
    | Some m =>
        let '(o, (m', h')) := c (m, controllers w) in
        (o, {| chat := chat w; page := page w;
               speechSynthesis := speechSynthesis w;
               speakLater := speakLater w;
               npcManager := Some m'; controllers := h' |})
    end.

(** [this.conversationHistory[id].push(entry)]: the read, then [push] on
    what it returned. *)
Definition pushHistory (i : jsstring) (e : Entry) : M World unit :=
  h ← gets (fun w => conversationHistory (chat w));
  match get h i with
  | Own l => modify (withChat (setHistory (<[i := l ++ [e]]> h)))
  | Inherited => throw TypeError
  | Missing => throw TypeError
  end.

(** [if (!this.conversationHistory[npcId]) this.conversationHistory[npcId] = []]:
    an array and an inherited member are truthy, [undefined] is not. *)
Definition initHistory (npcId : jsstring) : M World unit :=
  h ← gets (fun w => conversationHistory (chat w));
  when (match get h npcId with Missing => true | _ => false end)
       (modify (withChat (setHistory (<[npcId := []]> h)))).

(** [this.currentNPC.id] *)
Definition currentId : M World jsstring :=
  n ← gets (fun w => currentNPC (chat w));
  match n with
  | Some npc => ret (id npc)
  | None => throw TypeError
  end.

(** The methods of the two versions of the class that are the same text
    in both. *)
Module Common.

Definition addMessageToUI (type : Kind) (content : value)
  : M World (option nat) :=
  m ← gets (fun w => chatMessages (page w));
  match m with
  | None => ret None
  | Some els =>
      n ← gets (fun w => nextElement (page w));
      modify (withPage (fun p =>
        setNextElement (S n)
          (setChatMessages
             (Some (els ++ [{| el := n; kind := type;
                               textContent := content |}])) p)));;
      ret (Some n)
  end.

(** [if (msgEl) msgEl.remove()] *)
Definition removeElement (msgEl : option nat) : M World unit :=
  match msgEl with
  | None => ret tt
  | Some n =>
      modify (withPage (fun p =>
        setChatMessages
          (option_map (filter (fun e : Element => el e ≠ n)) (chatMessages p)) p))
  end.

(** [sendMessage], up to the point where [generateResponse] is entered:
    the message to answer, or [None] when it returned before. *)
Definition sendMessage_enter : M World (option jsstring) :=
  npc ← gets (fun w => currentNPC (chat w));
  generating ← gets (fun w => isGenerating (chat w));
  match npc with
  | None => ret None
  | Some _ =>
      if generating then ret None
      else
        input ← gets (fun w => chatInput (page w));
        match input with
        | None => ret None
        | Some v =>
            let message := trim v in
            if truthy_str message then
              modify (withPage (setChatInput (Some [])));;
              addMessageToUI userMsg (Str message);;
              i ← currentId;
              pushHistory i {| role := user; content := Str message |};;
              ret (Some message)
            else ret None
        end
  end.

End Common.

(** [a || b] on the results of [Array.prototype.find]: a voice is truthy,
    [undefined] is not. *)
Definition orElse {A : Type} (a b : option A) : option A :=
  match a with Some x => Some x | None => b end.

(** ** [src/js/ai-chat.js]: the smart response mode *)

Module AIChat.
Export Common.

Section Host.
Variable toLowerCase : jsstring -> jsstring.

(** The object literal [greetings] of [getGreeting]. *)
Definition greetings : gmap jsstring jsstring :=
  list_to_map
    [(js "minjun", js "Hello, teacher! 안녕하세요! I'm Min-jun, the class president. How can I help you today?");
     (js "sooyeon", js "Oh... hello, teacher... *looks up shyly* I was just... drawing something...");
     (js "jihoon", js "Hey, 선생님! What's up? Finally someone to talk to! This class was getting boring, haha!");
     (js "yuna", js "Good day, teacher. I've completed all my assignments. Did you want to discuss the upcoming exam?")].

(** [greetings[npcId] || `Hello, I'm ${config.name}.`] *)
Definition getGreeting (npcId : jsstring) (config : option Config.t)
  : outcome value :=
  match get greetings npcId with
  | Own g => if truthy_str g then Ret (Str g)
             else match config with
                  | Some c => Ret (Str (js "Hello, I'm " ++ Config.name c ++ js "."))
                  | None => Throw TypeError
                  end
  | Inherited => Ret (ProtoMember npcId)
  | Missing =>
      match config with
      | Some c => Ret (Str (js "Hello, I'm " ++ Config.name c ++ js "."))
      | None => Throw TypeError
      end
  end.

Definition femaleNames : list jsstring := map js ["sooyeon"; "yuna"]%string.

(** The voice [speak] assigns to the utterance for the NPC [npcId], or
    [None] when it assigns none. *)
Definition selectVoice (npcId : jsstring) (voices : list Voice.t)
  : option Voice.t :=
  let isFemale := existsb (str_eqb npcId) femaleNames in
  let selectedVoice :=
    if isFemale then
      orElse (List.find (fun v => includes (Voice.name v) (js "Google")
                          && includes (toLowerCase (Voice.name v)) (js "female")) voices)
     (orElse (List.find (fun v => includes (Voice.name v) (js "Female")) voices)
     (orElse (List.find (fun v => includes (Voice.name v) (js "Samantha")) voices)
             (List.find (fun v => startsWith (Voice.lang v) (js "en")
                          && includes (Voice.name v) (js "female")) voices)))
    else
      orElse (List.find (fun v => includes (Voice.name v) (js "Google")
                          && includes (toLowerCase (Voice.name v)) (js "male")) voices)
     (orElse (List.find (fun v => includes (Voice.name v) (js "Male")) voices)
     (orElse (List.find (fun v => includes (Voice.name v) (js "Daniel")) voices)
             (List.find (fun v => startsWith (Voice.lang v) (js "en")
                          && includes (Voice.name v) (js "male")) voices)))
  in
  match selectedVoice with
  | Some v => Some v
  | None => List.find (fun v => startsWith (Voice.lang v) (js "en")) voices
  end.

(** The [switch] on [this.currentNPC.id] that sets the rate, the pitch
    and the volume. *)
Definition tune (npcId : jsstring) (u : Utterance) : Utterance :=
  if str_eqb npcId (js "minjun") then
    {| text := text u; voice := voice u;
       rate := Some 100; pitch := Some 100; volume := volume u |}
  else if str_eqb npcId (js "sooyeon") then
    {| text := text u; voice := voice u;
       rate := Some 85; pitch := Some 115; volume := Some 80 |}
  else if str_eqb npcId (js "jihoon") then
    {| text := text u; voice := voice u;
       rate := Some 115; pitch := Some 110; volume := volume u |}
  else if str_eqb npcId (js "yuna") then
    {| text := text u; voice := voice u;
       rate := Some 100; pitch := Some 105; volume := volume u |}
  else u.

(** The utterance [speak] builds when voices are installed. *)
Definition utter (current : option NPC) (voices : list Voice.t)
    (t : value) : Utterance :=
  let utterance :=
    {| text := t; voice := None; rate := None; pitch := None;
       volume := None |} in
  match current with
  | Some npc =>
      tune (id npc)
        {| text := t; voice := selectVoice (id npc) voices;
           rate := None; pitch := None; volume := None |}
  | None => utterance
  end.

Definition speak (t : value) : M World unit :=
  s ← gets speechSynthesis;
  match s with
  | None => ret tt
  | Some sy =>
      (* cancel() *)
      modify (setSynth (Some {| voices := voices sy; queue := [] |}));;
      match voices sy with
      | [] =>
          (* setTimeout(() => this.speak(text), 100) *)
          modify (fun w => setSpeakLater (speakLater w ++ [t]) w)
      | _ =>
          current ← gets (fun w => currentNPC (chat w));
          modify (setSynth (Some {| voices := voices sy;
                                    queue := [utter current (voices sy) t] |}))
      end
  end.

(** The timer set by [speak] when no voice was installed fires: the
    oldest postponed text is spoken. *)
Definition speakTimer : M World unit :=
  later ← gets speakLater;
  match later with
  | [] => ret tt
  | t :: rest => modify (setSpeakLater rest);; speak t
  end.

Definition startConversation (npcId : jsstring) (config : option Config.t)
  : M World unit :=
  modify (withChat (setCurrentNPC (Some {| id := npcId; config := config |})));;
  initHistory npcId;;
  onManager (NPCManager.setActiveNPC (Some npcId));;
  modify (withPage (fun p => setChatUI (option_map (fun _ => false) (chatUI p)) p));;
  label ← gets (fun w => currentNPCLabel (page w));
  match label with
  | None => ret tt
  | Some _ =>
      match config with
      | None => throw TypeError
      | Some c =>
          modify (withPage (setLabel
            (Some (js "Talking to: " ++ Config.name c ++ js " ("
                   ++ Config.nameKorean c ++ js ")"))))
      end
  end;;
  msgs ← gets (fun w => chatMessages (page w));
  match msgs with
  | None => ret tt
  | Some _ =>
      modify (withPage (setChatMessages (Some [])));;
      h' ← gets (fun w => conversationHistory (chat w));
      match get h' npcId with
      | Own entries =>
          forEach entries (fun msg =>
            addMessageToUI
              (match role msg with user => userMsg | _ => npcMsg end)
              (content msg);;
            ret tt);;
          if Nat.eqb (length entries) 0 then
            greeting ← liftO (getGreeting npcId config);
            addMessageToUI npcMsg greeting;;
            speak greeting
          else ret tt
      | Inherited => throw TypeError
      | Missing => throw TypeError
      end
  end.
  (* chatInput.focus() leaves every field of the state as it is. *)

Definition endConversation : M World unit :=
  current ← gets (fun w => currentNPC (chat w));
  match current with
  | Some _ => onManager (NPCManager.setActiveNPC None)
  | None => ret tt
  end;;
  s ← gets speechSynthesis;
  match s with
  | Some sy => modify (setSynth (Some {| voices := voices sy; queue := [] |}))
  | None => ret tt
  end;;
  modify (withChat (setCurrentNPC None));;
  modify (withPage (fun p => setChatUI (option_map (fun _ => true) (chatUI p)) p)).

(** [generateSmartResponse] after its delay. The category is a function
    of the lower-cased message and the id; the array is
    [npc.responses[category] || npc.responses['default']]; [r] is the
    result of [Math.random()] that indexes it. *)
Definition generateSmartResponse (r : random) (userMessage : jsstring)
  : M World value :=
  npcId ← currentId;
  let lowerMsg := toLowerCase userMessage in
  history ← gets (fun w =>
    match get (conversationHistory (chat w)) npcId with
    | Missing => Own []
    | m => m
    end);
  let category := classify npcId lowerMsg in
  responses ← liftO (candidates npcId category);
  ret (pick r responses).

Definition fallback : jsstring :=
  js "Sorry, I didn't quite catch that. Could you say it again?".

(** [generateResponse] up to the delay of [generateSmartResponse]:
    returns [loadingMsgEl]. *)
Definition generateResponse_enter : M World (option nat) :=
  modify (withChat (setIsGenerating true));;
  addMessageToUI loadingMsg (Str (js "Thinking")).

(** The rest of [generateResponse], run when the delay is over; [r] and
    [r'] are the results of [Math.random()] for the response and for the
    reaction. *)
Definition generateResponse_resume (r r' : random)
    (loadingMsgEl : option nat) (userMessage : jsstring) : M World unit :=
  tryCatch
    (response ← generateSmartResponse r userMessage;
     removeElement loadingMsgEl;;
     addMessageToUI npcMsg response;;
     i ← currentId;
     pushHistory i {| role := assistant; content := response |};;
     mgr ← gets npcManager;
     match mgr with
     | Some _ =>
         let reaction := [nod; excited] !! floorScale r' 2 in
         i' ← currentId;
         onManager (NPCManager.triggerReaction i' reaction)
     | None => ret tt
     end;;
     speak response)
    (fun _ =>
       removeElement loadingMsgEl;;
       addMessageToUI npcMsg (Str fallback);;
       speak (Str fallback));;
  modify (withChat (setIsGenerating false)).

(** [generateResponse] when nothing else runs during the delay. *)
Definition generateResponse (r r' : random) (userMessage : jsstring)
  : M World unit :=
  loadingMsgEl ← generateResponse_enter;
  generateResponse_resume r r' loadingMsgEl userMessage.

(** [sendMessage] up to the delay: the message and [loadingMsgEl] that the
    rest of [generateResponse] will use, or [None] when it returned. *)
Definition sendMessage_begin : M World (option (jsstring * option nat)) :=
  m ← sendMessage_enter;
  match m with
  | None => ret None
  | Some message =>
      loadingMsgEl ← generateResponse_enter;
      ret (Some (message, loadingMsgEl))
  end.

(** [sendMessage] when nothing else runs during the delay. *)
Definition sendMessage (r r' : random) : M World unit :=
  m ← sendMessage_begin;
  match m with
  | None => ret tt
  | Some (message, loadingMsgEl) =>
      generateResponse_resume r r' loadingMsgEl message
  end.

End Host.
End AIChat.

(** ** The WebLLM version of the class ([src/unnamed/part_000]) *)

Module WebLLM.
Export Common.

Section Host.
Variable toLowerCase : jsstring -> jsstring.

(** An entry of the object literal [fallbacks]. *)
Record Fallbacks : Type := {
  fb_greeting : list jsstring;
  fb_question : list jsstring;
  fb_default : list jsstring
}.

Definition fallbacks : gmap jsstring Fallbacks :=
  list_to_map
    [(js "minjun",
      {| fb_greeting := map js ["Hello, teacher! How can I help you today?";
                                "Good day, 선생님!";
                                "Welcome to our classroom!"]%string;
         fb_question := map js ["That's an excellent question! I think...";
                                "Let me help with that, 선생님.";
                                "I'd be happy to assist!"]%string;
         fb_default := map js ["Yes, 선생님!"; "I understand.";
                               "I'll do my best!"]%string |});
     (js "sooyeon",
      {| fb_greeting := map js ["Oh... hello..."; "Hi... *looks down shyly*";
                                "...hello, teacher."]%string;
         fb_question := map js ["Um... I think... maybe...";
                                "I'm not sure, but... perhaps...";
                                "*hesitates* ...I think so?"]%string;
         fb_default := map js ["...okay."; "*nods quietly*"; "I see..."]%string |});
     (js "jihoon",
      {| fb_greeting := map js ["Hey there, teach!"; "What's up, 선생님?";
                                "Yo! Welcome to the fun zone!"]%string;
         fb_question := map js ["Haha, good question! So basically...";
                                "Oh man, let me think... *dramatic pose*";
                                "That's easy! Or is it? Haha!"]%string;
         fb_default := map js ["Ha! Nice one!"; "You got it, boss!";
                               "This class just got interesting!"]%string |});
     (js "yuna",
      {| fb_greeting := map js ["Hello, teacher. I was just reviewing chapter 5.";
                                "Good day. Are we having a quiz today?";
                                "Hi. I've completed all my homework."]%string;
         fb_question := map js ["According to my notes, the answer is...";
                                "I've studied this. The key points are...";
                                "Let me check my reference materials..."]%string;
         fb_default := map js ["I should note this down.";
                               "Understood. Back to studying.";
                               "That's useful information."]%string |})].

(** The [responseSet] chosen by the [includes] tests. *)
Definition responseSet (npcFallbacks : Fallbacks) (lowerMsg : jsstring)
  : list jsstring :=
  if includes lowerMsg (js "hello") || includes lowerMsg (js "hi")
     || includes lowerMsg (js "hey")
  then fb_greeting npcFallbacks
  else if includes lowerMsg (js "?") then fb_question npcFallbacks
  else fb_default npcFallbacks.

Definition generateFallbackResponse (r : random) (userMessage : jsstring)
  : M World value :=
  current ← gets (fun w => currentNPC (chat w));
  match current with
  | None => throw TypeError
  | Some npc =>
      let lowerMsg := toLowerCase userMessage in
      match get fallbacks (id npc) with
      | Own npcFallbacks => ret (pick r (responseSet npcFallbacks lowerMsg))
      | Inherited => throw TypeError
      | Missing =>
          match get fallbacks (js "minjun") with
          | Own npcFallbacks => ret (pick r (responseSet npcFallbacks lowerMsg))
          | _ => throw TypeError
          end
      end
  end.

(** [arr.slice(-n)]: the elements from index [max (length - n) 0] on. *)
Definition sliceLast {A} (n : nat) (arr : list A) : list A :=
  skipn (length arr - n) arr.

(** The [messages] array that [generateWithLLM] hands to the engine. *)
Definition buildMessages (userMessage : jsstring) : M World (list Entry) :=
  current ← gets (fun w => currentNPC (chat w));
  match current with
  | None => throw TypeError
  | Some npc =>
      match config npc with
      | None => throw TypeError
      | Some cfg =>
          let messages :=
            [{| role := system; content := Str (Config.systemPrompt cfg) |}] in
          h ← gets (fun w => conversationHistory (chat w));
          match get h (id npc) with
          | Own entries =>
              let history := sliceLast 6 entries in
              let messages :=
                messages ++
                map (fun msg =>
                       {| role := match role msg with
                                  | user => user
                                  | _ => assistant
                                  end;
                          content := content msg |}) history in
              ret (messages ++ [{| role := user; content := Str userMessage |}])
          | Inherited => throw TypeError
          | Missing => throw TypeError
          end
      end
  end.

(** [generateWithLLM]: the request, the reply of the engine (a rejected
    promise throws), and [reply.choices[0].message.content.trim()]. *)
Definition generateWithLLM (userMessage : jsstring) : M World value :=
  messages ← buildMessages userMessage;
  e ← gets (fun w => engine (chat w));
  match e with
  | None => throw TypeError
  | Some create =>
      reply ← liftO (create messages);
      ret (Str (trim reply))
  end.

Definition speak (t : value) : M World unit :=
  s ← gets speechSynthesis;
  match s with
  | None => ret tt
  | Some sy =>
      current ← gets (fun w => currentNPC (chat w));
      let voices := voices sy in
      let selectedVoice :=
        match current with
        | Some npc =>
            let isFemale := existsb (str_eqb (id npc)) (map js ["sooyeon"; "yuna"]%string) in
            orElse
              (List.find (fun v =>
                 includes (Voice.lang v) (js "en") &&
                 ((isFemale && includes (toLowerCase (Voice.name v)) (js "female"))
                  || (negb isFemale && includes (toLowerCase (Voice.name v)) (js "male"))))
                 voices)
              (orElse
                 (List.find (fun v => includes (Voice.lang v) (js "en")) voices)
                 (head voices))
        | None => None
        end in
      let isJihoon :=
        match current with
        | Some npc => str_eqb (id npc) (js "jihoon")
        | None => false
        end in
      modify (setSynth (Some {| voices := voices;
        queue := [{| text := t; voice := selectedVoice; rate := Some 90;
                     pitch := Some (if isJihoon then 110 else 100);
                     volume := None |}] |}))
  end.

Definition startConversation (npcId : jsstring) (config : option Config.t)
  : M World unit :=
  modify (withChat (setCurrentNPC (Some {| id := npcId; config := config |})));;
  initHistory npcId;;
  onManager (NPCManager.setActiveNPC (Some npcId));;
  modify (withPage (fun p => setChatUI (option_map (fun _ => false) (chatUI p)) p));;
  label ← gets (fun w => currentNPCLabel (page w));
  match label with
  | None => ret tt
  | Some _ =>
      match config with
      | None => throw TypeError
      | Some c =>
          modify (withPage (setLabel
            (Some (js "Talking to: " ++ Config.name c ++ js " ("
                   ++ Config.nameKorean c ++ js ")"))))
      end
  end;;
  msgs ← gets (fun w => chatMessages (page w));
  match msgs with
  | None => ret tt
  | Some _ =>
      modify (withPage (setChatMessages (Some [])));;
      h' ← gets (fun w => conversationHistory (chat w));
      match get h' npcId with
      | Own entries =>
          forEach entries (fun msg =>
            addMessageToUI
              (match role msg with user => userMsg | _ => npcMsg end)
              (content msg);;
            ret tt);;
          if Nat.eqb (length entries) 0 then
            match config with
            | None => throw TypeError
            | Some c =>
                addMessageToUI systemMsg
                  (Str (js "You approached " ++ Config.name c
                        ++ js ". They look up at you."));;
                ret tt
            end
          else ret tt
      | Inherited => throw TypeError
      | Missing => throw TypeError
      end
  end.

Definition endConversation : M World unit :=
  current ← gets (fun w => currentNPC (chat w));
  match current with
  | Some _ => onManager (NPCManager.setActiveNPC None)
  | None => ret tt
  end;;
  modify (withChat (setCurrentNPC None));;
  modify (withPage (fun p => setChatUI (option_map (fun _ => true) (chatUI p)) p)).

Definition trouble : jsstring :=
  js "Sorry, I had trouble responding. Try again?".

(** [generateResponse], with the reply of the engine taken at once: [r]
    and [r'] are the results of [Math.random()] for the scripted response
    and for the reaction. *)
Definition generateResponse (r r' : random) (userMessage : jsstring)
  : M World unit :=
  modify (withChat (setIsGenerating true));;
  loadingMsgEl ← addMessageToUI loadingMsg (Str (js "Thinking"));
  tryCatch
    (loaded ← gets (fun w => isLoaded (chat w));
     e ← gets (fun w => engine (chat w));
     response ← (if loaded && bool_decide (is_Some e)
                 then generateWithLLM userMessage
                 else generateFallbackResponse r userMessage);
     removeElement loadingMsgEl;;
     addMessageToUI npcMsg response;;
     i ← currentId;
     pushHistory i {| role := assistant; content := response |};;
     mgr ← gets npcManager;
     match mgr with
     | Some _ =>
         let reaction := [nod; excited] !! floorScale r' 2 in
         i' ← currentId;
         onManager (NPCManager.triggerReaction i' reaction)
     | None => ret tt
     end;;
     speak response)
    (fun _ =>
       removeElement loadingMsgEl;;
       addMessageToUI systemMsg (Str trouble);;
       ret tt);;
  modify (withChat (setIsGenerating false)).

Definition sendMessage (r r' : random) : M World unit :=
  m ← sendMessage_enter;
  match m with
  | None => ret tt
  | Some message => generateResponse r r' message
  end.

End Host.
End WebLLM.

(** The response set from which [generateFallbackResponse] of the WebLLM
    version draws, for an id and a lower-cased message:
    [fallbacks[id] || fallbacks['minjun']], then the set that the
    [includes] tests choose. A member of [Object.prototype] is truthy and
    has no such sets, so the read of the length of its set throws. *)
Definition fallbackSelection (npcId lowerMsg : jsstring)
  : outcome (list jsstring) :=
  match get WebLLM.fallbacks npcId with
  | Own npcFallbacks => Ret (WebLLM.responseSet npcFallbacks lowerMsg)
  | Inherited => Throw TypeError
  | Missing =>
      match get WebLLM.fallbacks (js "minjun") with
      | Own npcFallbacks => Ret (WebLLM.responseSet npcFallbacks lowerMsg)
      | _ => Throw TypeError
      end
  end.

(** The value of [response] in the [try] block of [generateResponse] of
    the WebLLM version: the reply of the engine when it is loaded, a
    scripted response otherwise. *)
Definition WebLLM_response (toLowerCase : jsstring -> jsstring) (r : random)
    (userMessage : jsstring) : M World value :=
  loaded ← gets (fun w => isLoaded (chat w));
  e ← gets (fun w => engine (chat w));
  if loaded && bool_decide (is_Some e)
  then WebLLM.generateWithLLM userMessage
  else WebLLM.generateFallbackResponse toLowerCase r userMessage.

(** ** Operations and traces *)

(** The operations of the chat, at the granularity at which the browser
    runs them: [sendMessage] up to the delay and the rest of
    [generateResponse] after it are two steps, between which other
    handlers may run; the two methods run without interruption are
    operations too, and so is the timer of [speak]. *)
Inductive ChatOp : Type :=
| StartConversation (npcId : jsstring) (config : option Config.t)
| EndConversation
| SendMessage
| GenerateResponseEnter
| GenerateResponseResume (r r' : random) (loadingMsgEl : option nat)
                         (userMessage : jsstring)
| GenerateResponse (r r' : random) (userMessage : jsstring)
| SendMessageWhole (r r' : random)
| SpeakTimer.

Section ChatSteps.
Variable toLowerCase : jsstring -> jsstring.

(** The world an operation leaves, whether it returned or threw. *)
Definition chatStep (w : World) (op : ChatOp) : World :=
  match op with
  | StartConversation npcId config =>
      snd (AIChat.startConversation toLowerCase npcId config w)
  | EndConversation => snd (AIChat.endConversation w)
  | SendMessage => snd (AIChat.sendMessage_begin w)
  | GenerateResponseEnter => snd (AIChat.generateResponse_enter w)
  | GenerateResponseResume r r' loadingMsgEl userMessage =>
      snd (AIChat.generateResponse_resume toLowerCase r r' loadingMsgEl
             userMessage w)
  | GenerateResponse r r' userMessage =>
      snd (AIChat.generateResponse toLowerCase r r' userMessage w)
  | SendMessageWhole r r' => snd (AIChat.sendMessage toLowerCase r r' w)
  | SpeakTimer => snd (AIChat.speakTimer toLowerCase w)
  end.

Definition chatRun (w : World) (ops : list ChatOp) : World :=
  fold_left chatStep ops w.

End ChatSteps.

(** [h'] holds every history of [h], each possibly with entries appended. *)
Definition grows (h h' : gmap jsstring (list Entry)) : Prop :=
  ∀ i l, h !! i = Some l → ∃ more, h' !! i = Some (l ++ more).

(** A computation that keeps a property [Q] of the history table,
    whether it returns or throws. *)
Definition preserves {A : Type} (Q : gmap jsstring (list Entry) -> Prop)
    (c : M World A) : Prop :=
  ∀ w, Q (conversationHistory (chat w)) →
       Q (conversationHistory (chat (snd (c w)))).

(** The children of the message list once [loadingMsgEl] is removed. *)
Definition withoutElement (loadingMsgEl : option nat) (els : list Element)
  : list Element :=
  match loadingMsgEl with
  | Some n => filter (fun e : Element => el e ≠ n) els
  | None => els
  end.

Inductive ManagerOp : Type :=
| RegisterNPC (id : jsstring) (controller : nat)
| SetActiveNPC (id : option jsstring).

Definition managerStep (s : NPCManager.St) (op : ManagerOp) : NPCManager.St :=
  match op with
  | RegisterNPC id controller => snd (NPCManager.registerNPC id controller s)
  | SetActiveNPC id => snd (NPCManager.setActiveNPC id s)
  end.

Definition managerRun (s : NPCManager.St) (ops : list ManagerOp)
  : NPCManager.St :=
  fold_left managerStep ops s.

(** The controller at address [l] has [isActive] true. *)
Definition active (h : gmap nat Controller) (l : nat) : Prop :=
  ∃ c, h !! l = Some c ∧ isActive c = true.

(** The controller at [l] is an entry of [npcs]. *)
Definition registered (m : NPCManager.t) (l : nat) : Prop :=
  ∃ i, NPCManager.npcs m !! i = Some l.

(** At most one registered controller is active. *)
Definition atMostOneActive (s : NPCManager.St) : Prop :=
  ∀ l l', registered (fst s) l → registered (fst s) l' →
          active (snd s) l → active (snd s) l' → l = l'.

(** Every active controller is the entry of [npcs] under [activeNPC]. *)
Definition activeIsCurrent (s : NPCManager.St) : Prop :=
  ∀ l, active (snd s) l →
       ∃ i, NPCManager.activeNPC (fst s) = Some i
            ∧ truthy_str i = true
            ∧ NPCManager.npcs (fst s) !! i = Some l.

(** An id as [npc-controller]'s [init] computes it,
    [name.toLowerCase().replace(/[^a-z]/g, '')]: lower-case letters only. *)
Definition lowerCaseId (i : jsstring) : bool :=
  forallb (fun c => (97 <=? c) && (c <=? 122)) i.

(** [registerNPC(id, controller)] in the state [s] replaces the
    highlighted controller: [id] is [activeNPC], and its entry is another
    controller, whose [isActive] is true. *)
Definition replacesActive (s : NPCManager.St) (id : jsstring)
    (controller : nat) : bool :=
  bool_decide (NPCManager.activeNPC (fst s) = Some id)
  && match NPCManager.npcs (fst s) !! id with
     | Some l =>
         negb (Nat.eqb l controller)
         && match snd s !! l with
            | Some c => isActive c
            | None => false
            end
     | None => false
     end.

(** No [registerNPC] of the trace, run from [s], replaces the highlighted
    controller at the moment of the call, and none registers the id
    [__proto__]. *)
Fixpoint neverReplacesActive (s : NPCManager.St) (ops : list ManagerOp)
  : bool :=
  match ops with
  | [] => true
  | op :: ops =>
      match op with
      | RegisterNPC id controller =>
          negb (replacesActive s id controller)
          && negb (str_eqb id (js "__proto__"))
      | SetActiveNPC _ => true
      end
      && neverReplacesActive (managerStep s op) ops
  end.

(** ** The statements of the specification, written from its words *)

Module Spec.
Import Regex.

(** The keyword rules in their listed order: the pattern, whether the
    rule applies to the NPC, and the category it gives. *)
Definition rules (npcId : jsstring) : list (regex * bool * Category) :=
  [(Pattern.greetingRe, true, greeting);
   (Pattern.questionRe, true, question);
   (Pattern.nameRe, true, name);
   (Pattern.hobbyRe, true, hobby);
   (Pattern.feelingRe, true, feeling);
   (Pattern.schoolRe, true,
    if str_eqb npcId (js "yuna") then study else school);
   (Pattern.artRe, str_eqb npcId (js "sooyeon"), art);
   (Pattern.jokeRe, str_eqb npcId (js "jihoon"), joke)].

(** The category of the first rule, in that order, whose pattern matches
    the lower-cased message and which applies; [default] when there is
    none. *)
Definition firstMatch (npcId lowerMsg : jsstring) : Category :=
  match List.find (fun '(re, applies, _) => matches lowerMsg re && applies)
                  (rules npcId) with
  | Some (_, _, c) => c
  | None => default
  end.

(** The first criterion of [criteria], in their order, that some voice
    satisfies, gives the first voice satisfying it. *)
Fixpoint firstBy (criteria : list (Voice.t -> bool)) (voices : list Voice.t)
  : option Voice.t :=
  match criteria with
  | [] => None
  | p :: rest =>
      match List.find p voices with
      | Some v => Some v
      | None => firstBy rest voices
      end
  end.

Section Voices.
Variable toLowerCase : jsstring -> jsstring.

(** The four criteria for a gender, in order: a Google name with the
    gender word in the lower-cased name; the capitalized gender word; the
    named voice; an English language with the lower-case gender word. *)
Definition criteria (female : bool) : list (Voice.t -> bool) :=
  let word := if female then js "female" else js "male" in
  let capitalized := if female then js "Female" else js "Male" in
  let named := if female then js "Samantha" else js "Daniel" in
  [(fun v => includes (Voice.name v) (js "Google")
             && includes (toLowerCase (Voice.name v)) word);
   (fun v => includes (Voice.name v) capitalized);
   (fun v => includes (Voice.name v) named);
   (fun v => startsWith (Voice.lang v) (js "en")
             && includes (Voice.name v) word)].

(** The voice of the utterance: by the criteria, else the first voice
    whose language starts with [en], else none. *)
Definition voiceFor (female : bool) (voices : list Voice.t)
  : option Voice.t :=
  match firstBy (criteria female) voices with
  | Some v => Some v
  | None => List.find (fun v => startsWith (Voice.lang v) (js "en")) voices
  end.

End Voices.

(** At most the last [n] entries, in their stored order. *)
Definition lastEntries {A} (n : nat) (l : list A) : list A :=
  rev (take n (rev l)).

(** A history entry as a message of the request. *)
Definition asRequest (e : Entry) : Entry :=
  {| role := match role e with user => user | _ => assistant end;
     content := content e |}.

(** The NPC is one of the two girls. *)
Definition isFemale (npcId : jsstring) : bool :=
  bool_decide (npcId = js "sooyeon" ∨ npcId = js "yuna").

End Spec.

(** ** Sample states *)

(** An entry of [STUDENT_PERSONALITIES], with the system prompt cut to
    its first sentence. *)
Definition minjunConfig : Config.t := {|
  Config.name := js "Min-jun";
  Config.nameKorean := js "민준";
  Config.personality := js "class-president";
  Config.systemPrompt := js "You are Min-jun, the class president of a Korean high school classroom.";
  Config.idleAnimation := js "attentive";
  Config.color := js "#1E3A5F"
|}.

Definition sooyeonConfig : Config.t := {|
  Config.name := js "Soo-yeon";
  Config.nameKorean := js "수연";
  Config.personality := js "shy-artistic";
  Config.systemPrompt := js "You are Soo-yeon, a shy and artistic student in a Korean high school classroom.";
  Config.idleAnimation := js "daydream";
  Config.color := js "#FFB6C1"
|}.

Definition sampleVoices : list Voice.t :=
  [{| Voice.name := js "Daniel"; Voice.lang := js "en-GB" |};
   {| Voice.name := js "Samantha"; Voice.lang := js "en-US" |};
   {| Voice.name := js "Google UK English Female"; Voice.lang := js "en-GB" |};
   {| Voice.name := js "Google UK English Male"; Voice.lang := js "en-GB" |};
   {| Voice.name := js "Yuna"; Voice.lang := js "ko-KR" |}].

Definition idle : Controller :=
  {| isActive := false; body := true; reactions := [] |}.

(** The state after the page has loaded: the four controllers registered,
    no conversation yet. *)
Definition loaded : World := {|
  chat := {| isLoaded := false; engine := None; isGenerating := false;
             currentNPC := None; conversationHistory := ∅ |};
  page := {| chatUI := Some true; chatMessages := Some [];
             chatInput := Some []; currentNPCLabel := Some [];
             nextElement := 0 |};
  speechSynthesis := Some {| voices := sampleVoices; queue := [] |};
  speakLater := [];
  npcManager := Some {|
    NPCManager.npcs :=
      list_to_map [(js "minjun", 0%nat); (js "sooyeon", 1%nat);
                   (js "jihoon", 2%nat); (js "yuna", 3%nat)];
    NPCManager.activeNPC := None |};
  controllers := list_to_map [(0%nat, idle); (1%nat, idle); (2%nat, idle);
                              (3%nat, idle)]
|}.

(** The user has clicked on Min-jun, or on Soo-yeon. *)
Definition withMinjun : World :=
  snd (AIChat.startConversation asciiLower (js "minjun") (Some minjunConfig)
         loaded).

Definition withSooyeon : World :=
  snd (AIChat.startConversation asciiLower (js "sooyeon") (Some sooyeonConfig)
         loaded).

(** The user has typed [v] into the input box. *)
Definition typed (v : jsstring) (w : World) : World :=
  withPage (setChatInput (Some v)) w.

(** A conversation whose NPC id is [constructor]. *)
Definition withConstructor : World :=
  withChat (setCurrentNPC (Some {| id := js "constructor";
                                   config := Some minjunConfig |})) loaded.

Definition afterThreeTurns : World :=
  withChat (fun c =>
    setHistory
      {[ js "minjun" :=
           [{| role := user; content := Str (js "one") |};
            {| role := assistant; content := Str (js "two") |};
            {| role := user; content := Str (js "three") |};
            {| role := assistant; content := Str (js "four") |};
            {| role := user; content := Str (js "five") |};
            {| role := assistant; content := Str (js "six") |};
            {| role := user; content := Str (js "seven") |}] ]}
      (setCurrentNPC (Some {| id := js "minjun";
                              config := Some minjunConfig |}) c)) loaded.

(** The user sends "hello" to Min-jun and leaves the conversation with
    Escape while the response is being prepared. *)
Definition leftDuringDelay : World :=
  snd (AIChat.endConversation
         (snd (AIChat.sendMessage_begin (typed (js "hello") withMinjun)))).

(** The WebLLM version in a conversation with Min-jun, its engine loaded
    and rejecting every request. *)
Definition engineRejects : World :=
  withChat (fun c => {| isLoaded := true;
                        engine := Some (fun _ => Throw Rejected);
                        isGenerating := isGenerating c;
                        currentNPC := currentNPC c;
                        conversationHistory := conversationHistory c |})
    (snd (WebLLM.startConversation (js "minjun") (Some minjunConfig) loaded)).

(** The only installed voice is a Korean one. *)
Definition koreanVoiceOnly : World :=
  setSynth (Some {| voices := [{| Voice.name := js "Yuna";
                                  Voice.lang := js "ko-KR" |}];
                    queue := [] |}) withMinjun.

(** Two controllers, both idle. *)
Definition twoControllers : gmap nat Controller :=
  list_to_map [(0%nat, idle); (1%nat, idle)].

(** ** Invariants of computations *)

(** A computation that keeps a property of the state, whether it returns
    or throws. *)
Definition keeps {A : Type} (P : World -> Prop) (c : M World A) : Prop :=
  ∀ w, P w → P (snd (c w)).

(** A computation that never throws. *)
Definition returns {S A : Type} (c : M S A) : Prop :=
  ∀ s, ∃ a, fst (c s) = Ret a.

(** The elements of the message list have distinct numbers, all below the
    number of the next element. *)
Definition freshElements (w : World) : Prop :=
  ∀ els, chatMessages (page w) = Some els →
         NoDup (map el els)
         ∧ Forall (fun e => (el e < nextElement (page w))%nat) els.

(** The history table has no entry under a name of [Object.prototype],
    and it has one for the current NPC unless its id is such a name. *)
Definition readyChat (c : Chat) : Prop :=
  (∀ k, is_Some (conversationHistory c !! k) → inPrototype k = false)
  ∧ (∀ npc, currentNPC c = Some npc → inPrototype (id npc) = false →
            is_Some (conversationHistory c !! id npc)).

Definition historyReady (w : World) : Prop := readyChat (chat w).

(** [hoare P c Q]: from a state with [P], the computation [c] returns a
    value and leaves a state that satisfy [Q]. *)
Definition hoare {A : Type} (P : World -> Prop) (c : M World A)
    (Q : A -> World -> Prop) : Prop :=
  ∀ w, P w → ∃ a, fst (c w) = Ret a ∧ Q a (snd (c w)).

(** What a turn of the conversation reads and writes: the fields of the
    instance, the message list with the number of its next element, the
    speech queue and the postponed texts. *)
Definition view (w : World)
  : Chat * option (list Element) * nat * option Synth * list value :=
  (chat w, chatMessages (page w), nextElement (page w), speechSynthesis w,
   speakLater w).

(** The message list after [addMessageToUI]. *)
Definition appended (type : Kind) (content : value) (n : nat)
    (msgs : option (list Element)) : option (list Element) :=
  option_map (fun els => els ++ [{| el := n; kind := type;
                                    textContent := content |}]) msgs.

(** The number of the next element after [addMessageToUI]. *)
Definition nextAfter (n : nat) (msgs : option (list Element)) : nat :=
  match msgs with Some _ => S n | None => n end.

(** The speech queue and the postponed texts after [speak]: the queue is
    cancelled, and the text is either queued with the voice of the
    current NPC or, when no voice is installed, postponed. *)
Definition spoken (toLowerCase : jsstring -> jsstring) (current : option NPC)
    (t : value) (s : option Synth) : option Synth :=
  match s with
  | None => None
  | Some sy =>
      Some {| voices := voices sy;
              queue := match voices sy with
                       | [] => []
                       | _ => [AIChat.utter toLowerCase current (voices sy) t]
                       end |}
  end.

Definition postponed (t : value) (s : option Synth) (later : list value)
  : list value :=
  match s with
  | Some sy => match voices sy with [] => later ++ [t] | _ => later end
  | None => later
  end.

(** The elements [startConversation] makes of a history: one for each
    entry, in order, numbered from [n]. *)
Definition replayed (n : nat) (entries : list Entry) : list Element :=
  imap (fun k msg =>
          {| el := n + k;
             kind := match role msg with user => userMsg | _ => npcMsg end;
             textContent := content msg |}) entries.

(** The id that the manager holds as [activeNPC], if any, names no member
    of [Object.prototype]. *)
Definition managerReady (w : World) : Prop :=
  ∀ m i, npcManager w = Some m → NPCManager.activeNPC m = Some i →
         inPrototype i = false.

(** The history kept for an id; the empty one when there is none. *)
Definition historyOf (h : gmap jsstring (list Entry)) (i : jsstring)
  : list Entry :=
  match h !! i with Some l => l | None => [] end.

(** At most one utterance is queued. *)
Definition quietSpeech (w : World) : Prop :=
  ∀ sy, speechSynthesis w = Some sy → (length (queue sy) ≤ 1)%nat.

(** ** [src/js/ai-chat.js]: speech recognition *)

Module Recognition.

(** An entry of [event.results]: the transcript of its first alternative
    and its [isFinal] flag. *)
Record SpeechResult : Type := {
  transcript : jsstring;
  isFinal : bool
}.

(** The loop of [onresult] over the results, from the values of
    [finalTranscript] and [interimTranscript] it starts with. *)
Fixpoint transcripts (results : list SpeechResult)
    (finalTranscript interimTranscript : jsstring) : jsstring * jsstring :=
  match results with
  | [] => (finalTranscript, interimTranscript)
  | r :: rest =>
      if isFinal r
      then transcripts rest (finalTranscript ++ transcript r) interimTranscript
      else transcripts rest finalTranscript (interimTranscript ++ transcript r)
  end.

(** [msg.textContent.includes(p)] for an element of the message list.
    The system messages are all made from strings; the text of a value
    that is no string holds no word of the code. *)
Definition textIncludes (e : Element) (p : jsstring) : bool :=
  match textContent e with
  | Str s => includes s p
  | _ => false
  end.

(** The system messages that hold "Listening" are removed. *)
Definition removeListening (els : list Element) : list Element :=
  List.filter
    (fun e => negb (match kind e with systemMsg => true | _ => false end
                    && textIncludes e (js "Listening")))
    els.

(** [speechRecognition.onresult]: the interim text goes to the input box;
    a final text goes there too, the listening notices are removed, and
    [sendMessage] is called. The result is what [sendMessage] leaves to be
    answered after its delay. *)
Definition onresult (resultIndex : nat) (results : list SpeechResult)
  : M World (option (jsstring * option nat)) :=
  let '(finalTranscript, interimTranscript) :=
    transcripts (drop resultIndex results) [] [] in
  input ← gets (fun w => chatInput (page w));
  when (truthy_str interimTranscript && bool_decide (is_Some input))
       (modify (withPage (setChatInput (Some interimTranscript))));;
  if truthy_str finalTranscript then
    when (bool_decide (is_Some input))
         (modify (withPage (setChatInput (Some finalTranscript))));;
    modify (withPage (fun p =>
      setChatMessages (option_map removeListening (chatMessages p)) p));;
    AIChat.sendMessage_begin
  else ret None.

(** The voice button: whether it carries the class [recording], its text,
    and the opacity and the title set when speech is not supported. *)
Record Button : Type := {
  recording : bool;
  label : jsstring;
  opacity : option jsstring;
  title : option jsstring
}.

Inductive Call : Type := startCall | stopCall.

(** The fields of the instance that belong to the microphone: the
    recognizer is represented by the calls made to it. *)
Record Mic : Type := {
  isRecording : bool;
  voiceBtn : option Button;
  speechRecognition : option (list Call)
}.

Definition St : Type := World * Mic.

(** A method of the chat, run on the world of the pair. *)
Definition onWorld {A : Type} (c : M World A) : M St A :=
  fun '(w, m) => let '(o, w') := c w in (o, (w', m)).

Definition setButton (f : Button -> Button) (m : Mic) : Mic :=
  {| isRecording := isRecording m; voiceBtn := option_map f (voiceBtn m);
     speechRecognition := speechRecognition m |}.

Definition setIsRecording (b : bool) (m : Mic) : Mic :=
  {| isRecording := b; voiceBtn := voiceBtn m;
     speechRecognition := speechRecognition m |}.

Definition call (c : Call) (m : Mic) : Mic :=
  {| isRecording := isRecording m; voiceBtn := voiceBtn m;
     speechRecognition := option_map (fun cs => cs ++ [c]) (speechRecognition m) |}.

Definition onMic (f : Mic -> Mic) : M St unit :=
  modify (fun '(w, m) => (w, f m)).

(** [initSpeechRecognition]; [supported] is whether the browser has
    [SpeechRecognition]. *)
Definition initSpeechRecognition (supported : bool) : M St unit :=
  if supported then
    onMic (fun m => {| isRecording := isRecording m; voiceBtn := voiceBtn m;
                       speechRecognition := Some [] |})
  else
    onMic (setButton (fun b =>
      {| recording := recording b; label := label b;
         opacity := Some (js "0.5");
         title := Some (js "Speech not supported in this browser") |})).

Definition onstart : M St unit :=
  onMic (setIsRecording true);;
  onMic (setButton (fun b =>
    {| recording := true; label := js "🔴"; opacity := opacity b;
       title := title b |}));;
  onWorld (Common.addMessageToUI systemMsg (Str (js "🎤 Listening...")));;
  ret tt.

(** [stopRecording]; a failure of [stop()] is swallowed. *)
Definition stopRecording : M St unit :=
  onMic (setIsRecording false);;
  onMic (setButton (fun b =>
    {| recording := false; label := js "🎤"; opacity := opacity b;
       title := title b |}));;
  onMic (call stopCall).


Definition onerror (error : jsstring) : M St unit :=
  stopRecording;;
  if str_eqb error (js "not-allowed") then
    onWorld (Common.addMessageToUI systemMsg
      (Str (js "⚠️ Microphone access denied. Please allow microphone access.")));;
    ret tt
  else if negb (str_eqb error (js "aborted")) then
    onWorld (Common.addMessageToUI systemMsg
      (Str (js "⚠️ Could not hear you. Try again?")));;
    ret tt
  else ret tt.

Definition onend : M St unit := stopRecording.


End Recognition.

(** ** The controllers of the scene and [src/js/main.js] *)

Module Scene.

Definition isLowerLetter (c : N) : bool := (97 <=? c) && (c <=? 122).

(** [this.data.name.toLowerCase().replace(/[^a-z]/g, '')] *)
Definition npcIdOf (toLowerCase : jsstring -> jsstring) (name : jsstring)
  : jsstring :=
  List.filter isLowerLetter (toLowerCase name).

Definition setControllers (h : gmap nat Controller) (w : World) : World :=
  {| chat := chat w; page := page w;
     speechSynthesis := speechSynthesis w; speakLater := speakLater w;
     npcManager := npcManager w; controllers := h |}.

(** [controller.setActive(active)], called on the controller itself. *)
Definition setActive (l : nat) (active : bool) : M World unit :=
  modify (fun w =>
    setControllers
      (match controllers w !! l with
       | Some c => <[l := {| isActive := active; body := body c;
                             reactions := reactions c |}]> (controllers w)
       | None => controllers w
       end) w).

(** What [init] leaves in a controller besides the fields of the store:
    its [npcId] and its [config]. *)
Definition Data : Type := nat -> jsstring * option Config.t.

(** The part of [init] that touches the state: the new controller, at the
    address [l], is inactive and registers itself under its id. *)
Definition init (toLowerCase : jsstring -> jsstring) (name : jsstring)
    (hasBody : bool) (l : nat) : M World unit :=
  modify (fun w =>
    setControllers
      (<[l := {| isActive := false; body := hasBody; reactions := [] |}]>
         (controllers w)) w);;
  onManager (NPCManager.registerNPC (npcIdOf toLowerCase name) l).

Section Host.
Variable toLowerCase : jsstring -> jsstring.
Variable data : Data.

(** [onInteract] of the controller at [l]. *)
Definition onInteract (l : nat) : M World unit :=
  AIChat.startConversation toLowerCase (fst (data l)) (snd (data l));;
  setActive l true.

(** [window.classroomVR.talkTo(npcId)] *)
Definition talkTo (npcId : jsstring) : M World unit :=
  m ← gets npcManager;
  match m with
  | None => ret tt
  | Some mgr =>
      match get (NPCManager.npcs mgr) npcId with
      | Own l => onInteract l
      | Inherited => throw TypeError
      | Missing => ret tt
      end
  end.

End Host.

End Scene.

(** What happens in the scene: a click on a controller, the Escape key,
    [talkTo], an operation of the chat. *)
Inductive SceneOp : Type :=
| Click (l : nat)
| Escape
| TalkTo (npcId : jsstring)
| ChatStep (op : ChatOp).

Definition sceneStep (toLowerCase : jsstring -> jsstring) (data : Scene.Data)
    (w : World) (op : SceneOp) : World :=
  match op with
  | Click l => snd (Scene.onInteract toLowerCase data l w)
  | Escape => snd (AIChat.endConversation w)
  | TalkTo npcId => snd (Scene.talkTo toLowerCase data npcId w)
  | ChatStep op => chatStep toLowerCase w op
  end.

Definition sceneRun (toLowerCase : jsstring -> jsstring) (data : Scene.Data)
    (w : World) (ops : list SceneOp) : World :=
  fold_left (sceneStep toLowerCase data) ops w.

(** Every entry of [npcs] is a controller registered under its own id,
    and the id is not empty. *)
Definition ownIds (data : Scene.Data) (m : NPCManager.t) : Prop :=
  ∀ i l, NPCManager.npcs m !! i = Some l →
         fst (data l) = i ∧ truthy_str i = true.

(** The controller at [l] is in the manager, under its own id. *)
Definition inManager (data : Scene.Data) (m : NPCManager.t) (l : nat) : Prop :=
  NPCManager.npcs m !! fst (data l) = Some l.

(** [ensures c Q]: when [c] returns normally, it leaves a state with [Q]. *)
Definition ensures {A : Type} (c : M World A) (Q : World -> Prop) : Prop :=
  ∀ w, (∃ a, fst (c w) = Ret a) → Q (snd (c w)).

(** The scene has a manager with the entries [npcs], and every active
    controller is the entry of the manager's [activeNPC]. *)
Definition sceneInvariant (npcs : gmap jsstring nat) (w : World) : Prop :=
  ∃ m, npcManager w = Some m ∧ NPCManager.npcs m = npcs
       ∧ activeIsCurrent (m, controllers w).

(** The manager of the scene, if there is one, holds [i] as [activeNPC]. *)
Definition activeId (i : jsstring) (w : World) : Prop :=
  ∀ m, npcManager w = Some m → NPCManager.activeNPC m = Some i.

(** The controllers that an operation of the scene clicks on. *)
Definition clicked (ops : list SceneOp) : list nat :=
  omap (fun op => match op with Click l => Some l | _ => None end) ops.

(** A classroom of two: Min-jun and Soo-yeon. *)
Definition twoStudents : World := {|
  chat := chat loaded; page := page loaded;
  speechSynthesis := speechSynthesis loaded; speakLater := [];
  npcManager := Some {|
    NPCManager.npcs := list_to_map [(js "minjun", 0%nat); (js "sooyeon", 1%nat)];
    NPCManager.activeNPC := None |};
  controllers := twoControllers
|}.

Definition twoStudentsData : Scene.Data :=
  fun l => match l with
           | O => (js "minjun", Some minjunConfig)
           | _ => (js "sooyeon", Some sooyeonConfig)
           end.

(** * Properties *)

(** ** The embedding on concrete inputs *)

Example js_korean : js "안녕" = [50504; 45397].
Proof. reflexivity. Qed.

Example js_emoji : js "🎂" = [55356; 57218].
Proof. reflexivity. Qed.

Example trim_example : trim (js "  hi there
") = js "hi there".
Proof. reflexivity. Qed.

Example classify_hi :
  classify (js "minjun") (asciiLower (js "Hi there")) = greeting.
Proof. vm_compute. reflexivity. Qed.

(** "this" holds "hi", but not between word boundaries. *)
Example classify_this :
  classify (js "minjun") (asciiLower (js "this is it")) = default.
Proof. vm_compute. reflexivity. Qed.

Example classify_question :
  classify (js "minjun") (asciiLower (js "What is your name?")) = question.
Proof. vm_compute. reflexivity. Qed.

Example classify_name :
  classify (js "minjun") (asciiLower (js "tell me your name")) = name.
Proof. vm_compute. reflexivity. Qed.

Example classify_study_yuna :
  classify (js "yuna") (asciiLower (js "I have an exam")) = study.
Proof. vm_compute. reflexivity. Qed.

Example classify_art_other :
  classify (js "yuna") (asciiLower (js "I like art")) = default.
Proof. vm_compute. reflexivity. Qed.

(** The Korean greeting stands between no word boundaries: its syllables
    are not word characters, and neither is the start or the end of the
    message. *)
Example classify_korean :
  classify (js "minjun") (js "안녕") = default.
Proof. vm_compute. reflexivity. Qed.

Example candidates_sooyeon_school :
  candidates (js "sooyeon") school
  = Ret (map js ["...okay."; "*nods quietly*"; "I see..."; "...maybe..."]%string).
Proof. vm_compute. reflexivity. Qed.

Example candidates_unknown :
  candidates (js "teacher") greeting = candidates (js "minjun") greeting.
Proof. vm_compute. reflexivity. Qed.

Example candidates_constructor :
  candidates (js "constructor") greeting = Throw TypeError.
Proof. vm_compute. reflexivity. Qed.

Example turn_with_minjun :
  conversationHistory
    (chat (snd (AIChat.sendMessage asciiLower rnd0 rndHalf
                  (typed (js "  Hello there ") withMinjun))))
  = {[ js "minjun" :=
         [{| role := user; content := Str (js "Hello there") |};
          {| role := assistant;
             content := Str (js "Hello! How can I assist you, 선생님?") |}] ]}.
Proof. vm_compute. reflexivity. Qed.

Example reaction_of_turn :
  controllers (snd (AIChat.sendMessage asciiLower rnd0 rndHalf
                      (typed (js "Hello there") withMinjun))) !! 0%nat
  = Some {| isActive := true; body := true; reactions := [excited] |}.
Proof. vm_compute. reflexivity. Qed.

Example voice_of_sooyeon :
  AIChat.selectVoice asciiLower (js "sooyeon") sampleVoices
  = Some {| Voice.name := js "Google UK English Female";
            Voice.lang := js "en-GB" |}.
Proof. vm_compute. reflexivity. Qed.

(** The lower-cased name of a female voice includes the word "male". *)
Example voice_of_minjun :
  AIChat.selectVoice asciiLower (js "minjun") sampleVoices
  = Some {| Voice.name := js "Google UK English Female";
            Voice.lang := js "en-GB" |}.
Proof. vm_compute. reflexivity. Qed.

Example voice_without_english :
  AIChat.selectVoice asciiLower (js "minjun")
    [{| Voice.name := js "Yuna"; Voice.lang := js "ko-KR" |}]
  = None.
Proof. vm_compute. reflexivity. Qed.

Example scripted_responses_differ :
  fst (WebLLM.generateFallbackResponse asciiLower rnd0 (js "hello") withMinjun)
  = Ret (Str (js "Hello, teacher! How can I help you today?"))
  ∧ fst (WebLLM.generateFallbackResponse asciiLower rndHalf (js "hello")
           withMinjun)
    = Ret (Str (js "Good day, 선생님!")).
Proof. split; vm_compute; reflexivity. Qed.

Example greeting_of_constructor :
  AIChat.getGreeting (js "constructor") None
  = Ret (ProtoMember (js "constructor")).
Proof. vm_compute. reflexivity. Qed.

(** Through [sendMessage] the id [constructor] fails before a response is
    asked for: the history read is the inherited member, which has no
    [push]. *)
Example sendMessage_of_constructor :
  fst (Common.sendMessage_enter (typed (js "hello") withConstructor))
  = Throw TypeError.
Proof. vm_compute. reflexivity. Qed.

(** ** The matcher and the meaning of the patterns *)

Section RegexFacts.
Import Regex.

Lemma eat_denote (w : jsstring) (prev : option N) (s : jsstring)
    (q : position) :
  eat w prev s = Some q ↔ denote (Lit w) (prev, s) q.
Proof.
  revert prev s. induction w as [| c w IH]; intros prev s; simpl.
  - split.
    + intros [= <-]. constructor.
    + intros H. inversion H. reflexivity.
  - destruct s as [| d s].
    + split; [discriminate | intros H; inversion H].
    + destruct (N.eqb_spec c d) as [-> | Hne].
      * rewrite IH. split.
        -- intros H. by constructor.
        -- intros H. by inversion H.
      * split; [discriminate |]. intros H. inversion H. congruence.
Qed.

Lemma dotStar_denote (k : option N -> jsstring -> bool) (prev : option N)
    (s : jsstring) :
  dotStar k prev s = true ↔
  ∃ p' s', denote DotStar (prev, s) (p', s') ∧ k p' s' = true.
Proof.
  revert prev. induction s as [| c s IH]; intros prev; simpl.
  - rewrite orb_false_r. split.
    + intros H. exists prev, []. split; [constructor | exact H].
    + intros (p' & s' & Hd & Hk). inversion Hd; subst. exact Hk.
  - rewrite orb_true_iff, andb_true_iff, negb_true_iff, IH. split.
    + intros [H | [Hc (p' & s' & Hd & Hk)]].
      * exists prev, (c :: s). split; [constructor | exact H].
      * exists p', s'. split; [by constructor | exact Hk].
    + intros (p' & s' & Hd & Hk). inversion Hd; subst.
      * left. exact Hk.
      * right. split; [assumption |]. eauto.
Qed.

(** The backtracking matcher finds a match exactly when there is one. *)
Lemma matchAt_denote (r : regex) (k : option N -> jsstring -> bool)
    (prev : option N) (s : jsstring) :
  matchAt r k prev s = true ↔
  ∃ p' s', denote r (prev, s) (p', s') ∧ k p' s' = true.
Proof.
  revert k prev s. induction r as [w | a IHa b IHb | a IHa b IHb | |];
    intros k prev s; simpl.
  - destruct (eat w prev s) as [[p s'] |] eqn:E.
    + apply eat_denote in E. split; [eauto |].
      intros (p' & s'' & Hd & Hk). apply eat_denote in Hd.
      apply eat_denote in E. congruence.
    + split; [discriminate |].
      intros (p' & s'' & Hd & _). apply eat_denote in Hd. congruence.
  - rewrite orb_true_iff, IHa, IHb. split.
    + intros [(p' & s' & Hd & Hk) | (p' & s' & Hd & Hk)];
        exists p', s'; split; auto using denote_left, denote_right.
    + intros (p' & s' & Hd & Hk). inversion Hd; subst; eauto.
  - rewrite IHa. split.
    + intros (p1 & s1 & Hd1 & Hk1). apply IHb in Hk1 as (p2 & s2 & Hd2 & Hk2).
      exists p2, s2. split; [| exact Hk2]. eapply denote_cat; eauto.
    + intros (p2 & s2 & Hd & Hk). inversion Hd as [| | | | ? ? ? [p1 s1] ? Hd1 Hd2 | | |]; subst.
      exists p1, s1. split; [exact Hd1 |]. apply IHb. eauto.
  - rewrite andb_true_iff. split.
    + intros [Hb Hk]. exists prev, s. split; [by constructor | exact Hk].
    + intros (p' & s' & Hd & Hk). inversion Hd; subst. auto.
  - apply dotStar_denote.
Qed.

Lemma searchFrom_denote (r : regex) (prev : option N) (s : jsstring) :
  searchFrom r prev s = true ↔
  ∃ pre post q, s = pre ++ post ∧ denote r (before prev pre, post) q.
Proof.
  revert prev. induction s as [| c s IH]; intros prev; simpl.
  - rewrite orb_false_r, matchAt_denote. split.
    + intros (p' & s' & Hd & _). exists [], [], (p', s'). auto.
    + intros (pre & post & [p' s'] & Hs & Hd).
      symmetry in Hs. apply app_eq_nil in Hs as [-> ->]. eauto.
  - rewrite orb_true_iff, matchAt_denote, IH. split.
    + intros [(p' & s' & Hd & _) | (pre & post & q & -> & Hd)].
      * exists [], (c :: s), (p', s'). auto.
      * exists (c :: pre), post, q. split; [reflexivity |].
        unfold before in *. rewrite last_cons. destruct (last pre); exact Hd.
    + intros (pre & post & [p' s'] & Hs & Hd). destruct pre as [| c' pre].
      * left. simpl in Hs. subst post. eauto.
      * right. simpl in Hs. injection Hs as <- ->.
        exists pre, post, (p', s'). split; [reflexivity |].
        unfold before in *. rewrite last_cons in Hd. destruct (last pre); exact Hd.
Qed.

(** [s.match(r)] is truthy exactly when [r] matches somewhere in [s]. *)
Lemma matches_denote (s : jsstring) (r : regex) :
  matches s r = true ↔
  ∃ pre post q, s = pre ++ post ∧ denote r (last pre, post) q.
Proof.
  unfold matches. rewrite searchFrom_denote.
  split; intros (pre & post & q & Hs & Hd); exists pre, post, q;
    (split; [exact Hs |]); unfold before in *; destruct (last pre); exact Hd.
Qed.

Lemma before_cons (prev : option N) (c : N) (w : jsstring) :
  before prev (c :: w) = before (Some c) w.
Proof. unfold before. rewrite last_cons. destruct (last w); reflexivity. Qed.

(** A literal matches its own code units and nothing else. *)
Lemma denote_Lit (w : jsstring) (prev : option N) (s : jsstring)
    (q : position) :
  denote (Lit w) (prev, s) q ↔
  ∃ post, s = w ++ post ∧ q = (before prev w, post).
Proof.
  revert prev s. induction w as [| c w IH]; intros prev s.
  - split.
    + intros H. inversion H; subst. exists s. auto.
    + intros (post & -> & ->). constructor.
  - split.
    + intros H. inversion H; subst.
      match goal with Hd : denote (Lit w) _ _ |- _ => apply IH in Hd
                                                      as (post & -> & ->) end.
      exists post. by rewrite before_cons.
    + intros (post & -> & ->). simpl. constructor. apply IH.
      exists post. by rewrite before_cons.
Qed.

Lemma denote_alt (ws : list jsstring) (p q : position) :
  ws ≠ [] →
  denote (alt ws) p q ↔ ∃ w, w ∈ ws ∧ denote (Lit w) p q.
Proof.
  induction ws as [| w ws IH]; [done |]. intros _.
  destruct ws as [| w' ws].
  - simpl. split.
    + intros H. exists w. split; [apply list_elem_of_singleton; reflexivity | exact H].
    + intros (w0 & Hin & H). apply list_elem_of_singleton in Hin. by subst.
  - change (alt (w :: w' :: ws)) with (Or (Lit w) (alt (w' :: ws))). split.
    + intros H. inversion H as [| | ? ? ? ? Hl | ? ? ? ? Hr | | | |]; subst.
      * exists w. split; [apply elem_of_cons; auto | assumption].
      * apply IH in Hr as (w0 & Hin & Hr); [| done].
        exists w0. split; [apply elem_of_cons; auto | assumption].
    + intros (w0 & Hin & H). apply elem_of_cons in Hin as [-> | Hin].
      * by apply denote_left.
      * apply denote_right. apply IH; [done |]. eauto.
Qed.

(** [\b(w1|w2|...)\b] matches in [s] exactly when [s] holds one of the
    words between two word boundaries. *)
Lemma matches_keywords (s : jsstring) (ws : list jsstring) :
  ws ≠ [] →
  matches s (keywords ws) = true ↔
  ∃ pre w post,
    s = pre ++ w ++ post ∧ w ∈ ws
    ∧ atBoundary (last pre) (w ++ post) = true
    ∧ atBoundary (before (last pre) w) post = true.
Proof.
  intros Hne. rewrite matches_denote. unfold keywords. split.
  - intros (pre & rest & q & -> & Hd).
    inversion Hd as [| | | | ? ? ? q1 ? Hb Hd' | | |]; subst.
    inversion Hb; subst.
    inversion Hd' as [| | | | ? ? ? q2 ? Ha Hb' | | |]; subst.
    apply (denote_alt ws _ _ Hne) in Ha as (w & Hin & Hw).
    apply denote_Lit in Hw as (post & -> & ->).
    inversion Hb'; subst.
    exists pre, w, post. auto.
  - intros (pre & w & post & -> & Hin & Hb1 & Hb2).
    exists pre, (w ++ post), (before (last pre) w, post).
    split; [reflexivity |].
    eapply denote_cat; [by constructor |].
    eapply denote_cat; [| by constructor].
    apply (denote_alt ws _ _ Hne). exists w. split; [exact Hin |].
    apply denote_Lit. eauto.
Qed.

End RegexFacts.

(** ** Random indices and response arrays *)

(** Rounding moves a product by at most half of the last bit kept. *)
Lemma roundNearestEven_le (p : N) :
  roundNearestEven p ≤ p + 2 ^ (N.log2 p - 53)
  ∧ (N.log2 p ≤ 52 → roundNearestEven p = p).
Proof.
  unfold roundNearestEven.
  destruct (N.eqb_spec (N.log2 p - 52) 0) as [Hs | Hs].
  - split; [lia | reflexivity].
  - split; [| lia].
    set (s := N.log2 p - 52) in *.
    replace (N.log2 p - 53) with (s - 1) by lia.
    assert (2 ^ s = 2 * 2 ^ (s - 1)) as Hd.
    { rewrite <- N.pow_succ_r'. f_equal. lia. }
    assert (2 ^ s ≠ 0) as Hnz by (apply N.pow_nonzero; lia).
    pose proof (N.div_mod p (2 ^ s) Hnz) as Hp.
    pose proof (N.mod_lt p (2 ^ s) Hnz) as Hlt.
    set (d := 2 ^ s) in *. set (half := 2 ^ (s - 1)) in *.
    set (q := p / d) in *. set (rest := p mod d) in *.
    destruct ((half <? rest) || ((rest =? half) && N.odd q)) eqn:Hup.
    + assert (half ≤ rest) as Hge.
      { apply orb_true_iff in Hup as [H | H].
        - apply N.ltb_lt in H. lia.
        - apply andb_true_iff in H as [H _]. apply N.eqb_eq in H. lia. }
      nia.
    + nia.
Qed.

(** The index is inside the array: rounding never brings a product of a
    number below one with [n] up to [n]. *)
Lemma floorScale_lt (r : random) (n : nat) :
  (0 < n)%nat → (floorScale r n < n)%nat.
Proof.
  intros Hn. unfold floorScale.
  pose proof (numer_lt r) as Hr. apply N.ltb_lt in Hr.
  set (p := numer r * N.of_nat n).
  assert (p + N.of_nat n ≤ N.of_nat n * 2 ^ 53) as Hp by (unfold p; nia).
  destruct (roundNearestEven_le p) as [Hle Hsmall].
  assert (roundNearestEven p < N.of_nat n * 2 ^ 53) as Hround.
  { destruct (N.le_gt_cases (N.log2 p) 52) as [Hl | Hl].
    - rewrite (Hsmall Hl). lia.
    - assert (0 < p) as Hpos.
      { destruct p; [simpl in Hl; lia | lia]. }
      pose proof (N.log2_spec p Hpos) as [Hlow _].
      assert (2 ^ N.log2 p = 2 ^ (N.log2 p - 53) * 2 ^ 53) as Hsplit.
      { rewrite <- N.pow_add_r. f_equal. lia. }
      assert (2 ^ (N.log2 p - 53) < N.of_nat n) as Hhalf.
      { apply (N.mul_lt_mono_pos_r (2 ^ 53)); lia. }
      lia. }
  assert (roundNearestEven p / 2 ^ 53 < N.of_nat n) as H.
  { apply N.Div0.div_lt_upper_bound. lia. }
  lia.
Qed.

(** The rounding shows: [6004799503160661 * 3 = 2^54 - 1] lies half-way
    between two doubles and goes up to [2], where the exact quotient is
    below [2]; the draw before it gives [1]. *)
Example floorScale_rounds :
  floorScale {| numer := 6004799503160661; numer_lt := eq_refl |} 3 = 2%nat
  ∧ floorScale {| numer := 6004799503160660; numer_lt := eq_refl |} 3 = 1%nat
  ∧ floorScale rndMax 3 = 2%nat.
Proof. vm_compute. auto. Qed.

Lemma pick_elem (r : random) (arr : list jsstring) :
  arr ≠ [] → ∃ s, pick r arr = Str s ∧ s ∈ arr.
Proof.
  intros Hne. unfold pick.
  assert (floorScale r (length arr) < length arr)%nat as Hlt.
  { apply floorScale_lt. destruct arr; [done | simpl; lia]. }
  destruct (lookup_lt_is_Some_2 _ _ Hlt) as [s Hs].
  exists s. rewrite Hs. split; [done |].
  by eapply list_elem_of_lookup_2.
Qed.

Lemma pick_same_index (r1 r2 : random) (arr : list jsstring) :
  floorScale r1 (length arr) = floorScale r2 (length arr) →
  pick r1 arr = pick r2 arr.
Proof. unfold pick. by intros ->. Qed.

(** ** The tables *)

Lemma knownIds_cases (i : jsstring) :
  i ∈ knownIds →
  i = js "minjun" ∨ i = js "sooyeon" ∨ i = js "jihoon" ∨ i = js "yuna".
Proof.
  unfold knownIds. simpl. rewrite !elem_of_cons, elem_of_nil. tauto.
Qed.

(** For a known student the table entry is the student's own and the
    array is a non-empty part of the static tables. *)
Lemma candidates_known (i : jsstring) (c : Category) :
  i ∈ knownIds →
  ∃ p arr, personalities !! i = Some p
           ∧ responsesOrDefault p c = Some arr
           ∧ candidates i c = Ret arr
           ∧ arr ≠ []
           ∧ Forall (fun s => s ∈ staticResponses) arr.
Proof.
  intros Hi.
  destruct (knownIds_cases i Hi) as [-> | [-> | [-> | ->]]].
  - exists minjun. destruct c; eexists;
      (split; [vm_compute; reflexivity |]);
      (split; [reflexivity |]);
      (split; [vm_compute; reflexivity |]);
      (split; [discriminate |]);
      apply (bool_decide_unpack _); vm_compute; reflexivity.
  - exists sooyeon. destruct c; eexists;
      (split; [vm_compute; reflexivity |]);
      (split; [reflexivity |]);
      (split; [vm_compute; reflexivity |]);
      (split; [discriminate |]);
      apply (bool_decide_unpack _); vm_compute; reflexivity.
  - exists jihoon. destruct c; eexists;
      (split; [vm_compute; reflexivity |]);
      (split; [reflexivity |]);
      (split; [vm_compute; reflexivity |]);
      (split; [discriminate |]);
      apply (bool_decide_unpack _); vm_compute; reflexivity.
  - exists yuna. destruct c; eexists;
      (split; [vm_compute; reflexivity |]);
      (split; [reflexivity |]);
      (split; [vm_compute; reflexivity |]);
      (split; [discriminate |]);
      apply (bool_decide_unpack _); vm_compute; reflexivity.
Qed.

(** ** Response selection *)

Section SmartResponse.
Variable toLowerCase : jsstring -> jsstring.

(** The method reads the id of the current NPC and the message, and
    nothing else that matters: it leaves the state as it is. *)
Lemma generateSmartResponse_eq (r : random) (msg : jsstring) (w : World) :
  AIChat.generateSmartResponse toLowerCase r msg w =
  (match currentNPC (chat w) with
   | None => Throw TypeError
   | Some npc =>
       match candidates (id npc) (classify (id npc) (toLowerCase msg)) with
       | Ret arr => Ret (pick r arr)
       | Throw e => Throw e
       end
   end, w).
Proof.
  unfold AIChat.generateSmartResponse, currentId, bind, gets, liftO, ret, throw.
  destruct (currentNPC (chat w)) as [npc |]; [| reflexivity].
  destruct (candidates _ _); reflexivity.
Qed.

(** The [if]/[else if] chain picks the first rule of the list that
    matches. *)
Lemma classify_firstMatch (npcId lowerMsg : jsstring) :
  classify npcId lowerMsg = Spec.firstMatch npcId lowerMsg.
Proof.
  unfold classify, Spec.firstMatch, Spec.rules. simpl.
  repeat (destruct (Regex.matches lowerMsg _); simpl; [try reflexivity |]);
    try reflexivity.
  all: repeat (destruct (str_eqb npcId _); simpl; try reflexivity);
    repeat (destruct (Regex.matches lowerMsg _); simpl; try reflexivity).
Qed.

(** No student is called like a member of [Object.prototype]. *)
Lemma inPrototype_not_a_student (i : jsstring) :
  inPrototype i = true → personalities !! i = None.
Proof.
  unfold inPrototype. rewrite existsb_exists.
  intros (k & Hin & Heq). apply bool_decide_eq_true_1 in Heq. subst k.
  unfold ObjectPrototype in Hin. simpl in Hin.
  repeat (destruct Hin as [<- | Hin]; [vm_compute; reflexivity |]).
  destruct Hin.
Qed.

(** Off the names of [Object.prototype] an unknown id reads the entry of
    Min-jun. *)
Lemma candidates_unknown_id (i : jsstring) (c : Category) :
  i ∉ knownIds → inPrototype i = false →
  candidates i c = candidates (js "minjun") c.
Proof.
  intros Hi Hp. unfold candidates at 1, get. rewrite Hp.
  assert (personalities !! i = None) as ->; [| reflexivity].
  apply not_elem_of_list_to_map_1. exact Hi.
Qed.

(** Every id that is not a name of [Object.prototype] gets a response:
    a string of a non-empty array of the tables. *)
Lemma generateSmartResponse_returns (r : random) (msg : jsstring)
    (w : World) (npc : NPC) :
  currentNPC (chat w) = Some npc → inPrototype (id npc) = false →
  ∃ s, AIChat.generateSmartResponse toLowerCase r msg w = (Ret (Str s), w)
       ∧ s ∈ staticResponses.
Proof.
  intros Hnpc Hp. rewrite generateSmartResponse_eq, Hnpc.
  set (c := classify _ _).
  assert (∃ arr, candidates (id npc) c = Ret arr ∧ arr ≠ []
                 ∧ Forall (fun s => s ∈ staticResponses) arr)
    as (arr & -> & Hne & Hall).
  { destruct (decide (id npc ∈ knownIds)) as [Hk | Hk].
    - destruct (candidates_known (id npc) c Hk) as (p & arr & _ & _ & ? & ? & ?).
      eauto.
    - rewrite (candidates_unknown_id _ c Hk Hp).
      destruct (candidates_known (js "minjun") c) as (p & arr & _ & _ & ? & ? & ?).
      { apply (bool_decide_unpack _). vm_compute. reflexivity. }
      eauto. }
  destruct (pick_elem r arr Hne) as (s & -> & Hs).
  exists s. split; [reflexivity |].
  rewrite Forall_forall in Hall. auto.
Qed.

(** [generateFallbackResponse] draws from [fallbackSelection]. *)
Lemma generateFallbackResponse_selection (r : random) (msg : jsstring)
    (w : World) :
  WebLLM.generateFallbackResponse toLowerCase r msg w =
  (match currentNPC (chat w) with
   | None => Throw TypeError
   | Some npc =>
       match fallbackSelection (id npc) (toLowerCase msg) with
       | Ret arr => Ret (pick r arr)
       | Throw e => Throw e
       end
   end, w).
Proof.
  unfold WebLLM.generateFallbackResponse, fallbackSelection, bind, gets, ret,
    throw.
  destruct (currentNPC (chat w)) as [npc |]; [| reflexivity].
  destruct (get WebLLM.fallbacks (id npc)); reflexivity.
Qed.

(** C1, as amended. For every user message, NPC id and conversation
    history, [generateSmartResponse], and [generateFallbackResponse] of
    the WebLLM version, route deterministically to a response array: the
    array (or the error) is a function of the message and of the NPC id
    alone, the text returned is the element of that array at the index
    [Math.floor(Math.random() * length)], and two runs whose random
    numbers give the same index return the same text. *)
Theorem C1_routing_is_deterministic (w : World) (npc : NPC)
    (history : gmap jsstring (list Entry)) (msg : jsstring) :
  let w' := withChat (fun c => setHistory history (setCurrentNPC (Some npc) c)) w in
  let selection := candidates (id npc) (classify (id npc) (toLowerCase msg)) in
  let fallbackSet := fallbackSelection (id npc) (toLowerCase msg) in
  (∀ r, AIChat.generateSmartResponse toLowerCase r msg w'
        = (match selection with
           | Ret arr => Ret (pick r arr)
           | Throw e => Throw e
           end, w'))
  ∧ (∀ r1 r2,
       (∀ arr, selection = Ret arr →
               floorScale r1 (length arr) = floorScale r2 (length arr)) →
       AIChat.generateSmartResponse toLowerCase r1 msg w'
       = AIChat.generateSmartResponse toLowerCase r2 msg w')
  ∧ (∀ r, WebLLM.generateFallbackResponse toLowerCase r msg w'
          = (match fallbackSet with
             | Ret arr => Ret (pick r arr)
             | Throw e => Throw e
             end, w'))
  ∧ (∀ r1 r2,
       (∀ arr, fallbackSet = Ret arr →
               floorScale r1 (length arr) = floorScale r2 (length arr)) →
       WebLLM.generateFallbackResponse toLowerCase r1 msg w'
       = WebLLM.generateFallbackResponse toLowerCase r2 msg w').
Proof.
  simpl. split; [| split; [| split]].
  - intros r. rewrite generateSmartResponse_eq. reflexivity.
  - intros r1 r2 Hidx. rewrite !generateSmartResponse_eq. simpl.
    destruct (candidates _ _) as [arr |]; [| reflexivity].
    by rewrite (pick_same_index r1 r2 arr (Hidx arr eq_refl)).
  - intros r. rewrite generateFallbackResponse_selection. reflexivity.
  - intros r1 r2 Hidx. rewrite !generateFallbackResponse_selection. simpl.
    destruct (fallbackSelection _ _) as [arr |]; [| reflexivity].
    by rewrite (pick_same_index r1 r2 arr (Hidx arr eq_refl)).
Qed.

(** C2, as amended. For every user message and every NPC id among the
    four known students, [generateSmartResponse] picks the category of the
    first keyword rule, in their listed order, that matches the
    lower-cased message, takes the student's own table, and returns an
    element of the student's array for that category, or of the student's
    [default] array when the table has no array for the category; the
    string returned is a member of the static response tables. *)
Theorem C2_known_student_response (w : World) (npc : NPC) (msg : jsstring)
    (r : random) :
  currentNPC (chat w) = Some npc →
  id npc ∈ knownIds →
  ∃ p arr s,
    personalities !! id npc = Some p
    ∧ (responses p (Spec.firstMatch (id npc) (toLowerCase msg)) = Some arr
       ∨ (responses p (Spec.firstMatch (id npc) (toLowerCase msg)) = None
          ∧ responses p default = Some arr))
    ∧ AIChat.generateSmartResponse toLowerCase r msg w = (Ret (Str s), w)
    ∧ s ∈ arr
    ∧ s ∈ staticResponses.
Proof.
  intros Hnpc Hk. rewrite generateSmartResponse_eq, Hnpc.
  rewrite classify_firstMatch. set (c := Spec.firstMatch _ _).
  destruct (candidates_known (id npc) c Hk)
    as (p & arr & Hp & Harr & -> & Hne & Hall).
  destruct (pick_elem r arr Hne) as (s & -> & Hs).
  exists p, arr, s. split; [exact Hp |]. split.
  - unfold responsesOrDefault in Harr.
    destruct (responses p c) as [a |]; [left; congruence | right; auto].
  - split; [reflexivity |]. split; [exact Hs |].
    rewrite Forall_forall in Hall. auto.
Qed.

(** C3. The response selection consumes only the user message and the NPC
    id: for every two conversation histories, with the message and the id
    fixed, [generateSmartResponse] selects the same category and the same
    response array, which are those computed from the message and the id,
    and returns the same result for the same random number. *)
Theorem C3_history_has_no_influence (w : World) (npc : NPC) (msg : jsstring)
    (h1 h2 : gmap jsstring (list Entry)) (r : random) :
  let at_history h :=
    withChat (fun c => setHistory h (setCurrentNPC (Some npc) c)) w in
  let selection := candidates (id npc) (classify (id npc) (toLowerCase msg)) in
  fst (AIChat.generateSmartResponse toLowerCase r msg (at_history h1))
  = fst (AIChat.generateSmartResponse toLowerCase r msg (at_history h2))
  ∧ fst (AIChat.generateSmartResponse toLowerCase r msg (at_history h1))
    = match selection with
      | Ret arr => Ret (pick r arr)
      | Throw e => Throw e
      end.
Proof.
  simpl. rewrite !generateSmartResponse_eq. simpl. split; reflexivity.
Qed.

(** C8, at the failing id. When the current NPC has an id that names a
    member of [Object.prototype], [personalities[npcId]] is that member,
    the entry of Min-jun is not taken, and indexing the [responses] of
    the member throws: no response is returned. *)
Theorem C8_inherited_id_throws (w : World) (npc : NPC) (msg : jsstring)
    (r : random) :
  currentNPC (chat w) = Some npc →
  inPrototype (id npc) = true →
  AIChat.generateSmartResponse toLowerCase r msg w = (Throw TypeError, w).
Proof.
  intros Hnpc Hp. rewrite generateSmartResponse_eq, Hnpc.
  unfold candidates, get. rewrite Hp.
  rewrite (inPrototype_not_a_student _ Hp). reflexivity.
Qed.

End SmartResponse.

Lemma C1_routing_is_deterministic_witness :
  let w := withChat (fun c => setHistory ∅
                       (setCurrentNPC (Some {| id := js "minjun";
                                               config := Some minjunConfig |}) c))
             loaded in
  let r := {| numer := 6004799503160661; numer_lt := eq_refl |} in
  floorScale rnd0 2 = floorScale rndQuarter 2
  ∧ AIChat.generateSmartResponse asciiLower rnd0 (js "hello") w
    = AIChat.generateSmartResponse asciiLower rndQuarter (js "hello") w
  ∧ floorScale r 3 = floorScale rndMax 3
  ∧ WebLLM.generateFallbackResponse asciiLower r (js "fine") w
    = WebLLM.generateFallbackResponse asciiLower rndMax (js "fine") w
  ∧ fst (WebLLM.generateFallbackResponse asciiLower r (js "fine") w)
    = Ret (Str (js "I'll do my best!")).
Proof.
  intros w r.
  pose proof (C1_routing_is_deterministic asciiLower loaded
                {| id := js "minjun"; config := Some minjunConfig |}
                ∅ (js "hello")) as (_ & Hsmart & _).
  pose proof (C1_routing_is_deterministic asciiLower loaded
                {| id := js "minjun"; config := Some minjunConfig |}
                ∅ (js "fine")) as (_ & _ & Hrun & Hfallback).
  split; [reflexivity |].
  split.
  { apply (Hsmart rnd0 rndQuarter).
    intros arr Harr. vm_compute in Harr. injection Harr as <-. reflexivity. }
  split; [reflexivity |].
  split.
  { apply (Hfallback r rndMax).
    intros arr Harr. vm_compute in Harr. injection Harr as <-. reflexivity. }
  unfold w. rewrite (Hrun r). vm_compute. reflexivity.
Defined.

(** C1, as stated, fails: with the same message, NPC and history, two
    runs return different texts when [Math.random()] differs. *)
Lemma C1_counterexample :
  fst (AIChat.generateSmartResponse asciiLower rnd0 (js "hello") withMinjun)
  = Ret (Str (js "Hello! How can I assist you, 선생님?"))
  ∧ fst (AIChat.generateSmartResponse asciiLower rndHalf (js "hello") withMinjun)
    = Ret (Str (js "Good to see you, teacher! What would you like to discuss?"))
  ∧ fst (AIChat.generateSmartResponse asciiLower rnd0 (js "hello") withMinjun)
    ≠ fst (AIChat.generateSmartResponse asciiLower rndHalf (js "hello") withMinjun).
Proof.
  split; [vm_compute; reflexivity |].
  split; [vm_compute; reflexivity |].
  vm_compute. discriminate.
Qed.

Lemma C2_known_student_response_witness :
  ∃ p arr s,
    personalities !! js "sooyeon" = Some p
    ∧ (responses p (Spec.firstMatch (js "sooyeon") (asciiLower (js "I like school")))
       = Some arr
       ∨ (responses p (Spec.firstMatch (js "sooyeon") (asciiLower (js "I like school")))
          = None
          ∧ responses p default = Some arr))
    ∧ AIChat.generateSmartResponse asciiLower rnd0 (js "I like school") withSooyeon
      = (Ret (Str s), withSooyeon)
    ∧ s ∈ arr
    ∧ s ∈ staticResponses.
Proof.
  apply (C2_known_student_response asciiLower withSooyeon
           {| id := js "sooyeon"; config := Some sooyeonConfig |}
           (js "I like school") rnd0).
  - vm_compute. reflexivity.
  - apply (bool_decide_unpack _). vm_compute. reflexivity.
Defined.

(** C2, as stated, fails: for Soo-yeon the message "I like school" picks
    the category [school], for which her table has no array; the string
    returned comes from her [default] array. *)
Lemma C2_counterexample :
  classify (js "sooyeon") (asciiLower (js "I like school")) = school
  ∧ personalities !! js "sooyeon" = Some sooyeon
  ∧ responses sooyeon school = None
  ∧ fst (AIChat.generateSmartResponse asciiLower rnd0 (js "I like school")
           withSooyeon)
    = Ret (Str (js "...okay."))
  ∧ ¬ (∃ arr, responses sooyeon school = Some arr ∧ js "...okay." ∈ arr).
Proof.
  split; [vm_compute; reflexivity |].
  split; [vm_compute; reflexivity |].
  split; [reflexivity |].
  split; [vm_compute; reflexivity |].
  intros (arr & Harr & _). discriminate Harr.
Qed.

Lemma C8_inherited_id_throws_witness :
  AIChat.generateSmartResponse asciiLower rnd0 (js "hello") withConstructor
  = (Throw TypeError, withConstructor).
Proof.
  apply (C8_inherited_id_throws asciiLower withConstructor
           {| id := js "constructor"; config := Some minjunConfig |}).
  - reflexivity.
  - vm_compute. reflexivity.
Defined.

(** ** The request to the language model *)

Lemma sliceLast_lastEntries {A} (n : nat) (l : list A) :
  WebLLM.sliceLast n l = Spec.lastEntries n l.
Proof.
  unfold WebLLM.sliceLast, Spec.lastEntries.
  rewrite firstn_rev, rev_involutive. reflexivity.
Qed.

Lemma sliceLast_suffix {A} (n : nat) (l : list A) :
  l = take (length l - n) l ++ WebLLM.sliceLast n l.
Proof. unfold WebLLM.sliceLast. symmetry. apply take_drop. Qed.

Lemma sliceLast_length {A} (n : nat) (l : list A) :
  length (WebLLM.sliceLast n l) = min n (length l).
Proof. unfold WebLLM.sliceLast. rewrite length_drop. lia. Qed.

Lemma sliceLast_short {A} (n : nat) (l : list A) :
  (length l ≤ n)%nat → WebLLM.sliceLast n l = l.
Proof.
  intros H. unfold WebLLM.sliceLast.
  replace (length l - n)%nat with 0%nat by lia. reflexivity.
Qed.

(** C4. When the external LLM is used, [generateWithLLM] builds the
    request message list as: the NPC's system prompt first, then at most
    the last 6 entries of that NPC's conversation history in their stored
    order (all of them when the history is shorter than 6), then the
    current user message last; that list is what the engine receives. *)
Theorem C4_llm_request_messages (w : World) (npc : NPC) (cfg : Config.t)
    (entries : list Entry) (msg : jsstring) :
  currentNPC (chat w) = Some npc →
  config npc = Some cfg →
  conversationHistory (chat w) !! id npc = Some entries →
  ∃ recent,
    WebLLM.buildMessages msg w
    = (Ret ({| role := system; content := Str (Config.systemPrompt cfg) |}
            :: map Spec.asRequest recent
            ++ [{| role := user; content := Str msg |}]), w)
    ∧ recent = Spec.lastEntries 6 entries
    ∧ (∃ older, entries = older ++ recent)
    ∧ length recent = min 6 (length entries)
    ∧ ((length entries ≤ 6)%nat → recent = entries)
    ∧ (∀ e, e ∈ recent → role e ≠ system → Spec.asRequest e = e)
    ∧ (∀ create, engine (chat w) = Some create →
         WebLLM.generateWithLLM msg w
         = (match create ({| role := system;
                             content := Str (Config.systemPrompt cfg) |}
                          :: map Spec.asRequest recent
                          ++ [{| role := user; content := Str msg |}]) with
            | Ret reply => Ret (Str (trim reply))
            | Throw e => Throw e
            end, w)).
Proof.
  intros Hnpc Hcfg Hh.
  assert (WebLLM.buildMessages msg w
          = (Ret ({| role := system; content := Str (Config.systemPrompt cfg) |}
                  :: map Spec.asRequest (WebLLM.sliceLast 6 entries)
                  ++ [{| role := user; content := Str msg |}]), w)) as Hb.
  { unfold WebLLM.buildMessages, bind, gets, ret, throw, get.
    rewrite Hnpc, Hcfg, Hh. reflexivity. }
  exists (WebLLM.sliceLast 6 entries).
  split; [exact Hb |].
  split; [apply sliceLast_lastEntries |].
  split; [eexists; apply sliceLast_suffix |].
  split; [apply sliceLast_length |].
  split; [apply sliceLast_short |].
  split.
  - intros [ro co] _ Hr. unfold Spec.asRequest. simpl in *.
    destruct ro; congruence.
  - intros create He. unfold WebLLM.generateWithLLM, bind.
    rewrite Hb. unfold gets, liftO, ret. rewrite He.
    destruct (create _); reflexivity.
Qed.

Lemma C4_llm_request_messages_witness :
  WebLLM.buildMessages (js "seven") afterThreeTurns
  = (Ret [{| role := system;
             content := Str (Config.systemPrompt minjunConfig) |};
          {| role := assistant; content := Str (js "two") |};
          {| role := user; content := Str (js "three") |};
          {| role := assistant; content := Str (js "four") |};
          {| role := user; content := Str (js "five") |};
          {| role := assistant; content := Str (js "six") |};
          {| role := user; content := Str (js "seven") |};
          {| role := user; content := Str (js "seven") |}],
     afterThreeTurns).
Proof.
  destruct (C4_llm_request_messages afterThreeTurns
              {| id := js "minjun"; config := Some minjunConfig |}
              minjunConfig
              [{| role := user; content := Str (js "one") |};
               {| role := assistant; content := Str (js "two") |};
               {| role := user; content := Str (js "three") |};
               {| role := assistant; content := Str (js "four") |};
               {| role := user; content := Str (js "five") |};
               {| role := assistant; content := Str (js "six") |};
               {| role := user; content := Str (js "seven") |}]
              (js "seven") eq_refl eq_refl)
    as (recent & Hb & -> & _).
  - vm_compute. reflexivity.
  - rewrite Hb. reflexivity.
Defined.

(** ** Voice selection *)

Lemma isFemale_femaleNames (npcId : jsstring) :
  existsb (str_eqb npcId) AIChat.femaleNames = Spec.isFemale npcId.
Proof.
  unfold AIChat.femaleNames, Spec.isFemale, str_eqb. cbn [map existsb].
  rewrite orb_false_r.
  repeat case_bool_decide; cbn [orb]; try reflexivity;
    exfalso; intuition congruence.
Qed.

Section VoiceSelection.
Variable toLowerCase : jsstring -> jsstring.


(** The chain of [find]s joined by [||] is the scan of the criteria in
    their order, followed by the scan for an English voice. *)
Lemma selectVoice_voiceFor (npcId : jsstring) (voices : list Voice.t) :
  AIChat.selectVoice toLowerCase npcId voices
  = Spec.voiceFor toLowerCase (Spec.isFemale npcId) voices.
Proof.
  unfold AIChat.selectVoice, Spec.voiceFor. rewrite isFemale_femaleNames.
  destruct (Spec.isFemale npcId); simpl; unfold orElse;
    repeat (match goal with
            | |- context [List.find ?p voices] => destruct (List.find p voices)
            end; try reflexivity).
Qed.

Lemma tune_text_voice (npcId : jsstring) (u : Utterance) :
  text (AIChat.tune npcId u) = text u ∧ voice (AIChat.tune npcId u) = voice u.
Proof.
  unfold AIChat.tune.
  repeat (destruct (str_eqb npcId _); [split; reflexivity |]).
  split; reflexivity.
Qed.

(** The voice chain of the WebLLM version: an English voice whose
    lower-cased name holds the gender word, else the first English voice,
    else the first voice of the list; a language is English when it
    holds "en" anywhere. *)
Lemma WebLLM_speak_voice (w : World) (sy : Synth) (npc : NPC) (t : value) :
  speechSynthesis w = Some sy →
  currentNPC (chat w) = Some npc →
  ∃ u,
    WebLLM.speak toLowerCase t w
    = (Ret tt, setSynth (Some {| voices := voices sy; queue := [u] |}) w)
    ∧ text u = t
    ∧ voice u
      = orElse
          (List.find (fun v =>
             includes (Voice.lang v) (js "en")
             && ((Spec.isFemale (id npc)
                  && includes (toLowerCase (Voice.name v)) (js "female"))
                 || (negb (Spec.isFemale (id npc))
                     && includes (toLowerCase (Voice.name v)) (js "male"))))
             (voices sy))
          (orElse (List.find (fun v => includes (Voice.lang v) (js "en"))
                     (voices sy))
                  (head (voices sy))).
Proof.
  intros Hs Hnpc. eexists. split.
  - unfold WebLLM.speak, bind, gets, modify. rewrite Hs, Hnpc. reflexivity.
  - split; [reflexivity |]. cbn [voice].
    change (existsb (str_eqb (id npc)) (map js ["sooyeon"; "yuna"]%string))
      with (existsb (str_eqb (id npc)) AIChat.femaleNames).
    rewrite isFemale_femaleNames. reflexivity.
Qed.

(** A scan that finds no English voice finds none with a further
    condition either. *)
Lemma find_english_none (p : Voice.t → bool) (vs : list Voice.t) :
  List.find (fun v => includes (Voice.lang v) (js "en")) vs = None →
  List.find (fun v => includes (Voice.lang v) (js "en") && p v) vs = None.
Proof.
  intros Hnone.
  destruct (List.find (fun v => includes (Voice.lang v) (js "en") && p v) vs)
    as [v |] eqn:E; [| reflexivity].
  apply find_some in E as [Hin Hv]. apply andb_true_iff in Hv as [Hen _].
  pose proof (find_none _ _ Hnone v Hin) as Hno. simpl in Hno. congruence.
Qed.

(** C7, as amended. Voice selection in [speak] is a linear scan with
    string-matching fallbacks. In ai-chat.js, for the active NPC's gender
    the utterance gets the first voice satisfying, in order, (Google name
    and lower-cased gender word), (capitalized gender word), (the named
    voice Samantha for female or Daniel for male), (English language and
    lower-case gender word); if none matches, the first voice whose
    language starts with [en]; and if there is no such voice the voice of
    the utterance is left unset. In the WebLLM version the utterance gets
    the first voice whose language holds [en] and whose lower-cased name
    holds the gender word, else the first voice whose language holds
    [en], else the first voice of the list: with a voice installed its
    voice is always set. *)
Theorem C7_voice_selection (w : World) (sy : Synth) (npc : NPC) (t : value) :
  speechSynthesis w = Some sy →
  voices sy ≠ [] →
  currentNPC (chat w) = Some npc →
  (∃ u,
     AIChat.speak toLowerCase t w
     = (Ret tt, setSynth (Some {| voices := voices sy; queue := [u] |}) w)
     ∧ text u = t
     ∧ voice u = Spec.voiceFor toLowerCase (Spec.isFemale (id npc)) (voices sy)
     ∧ (voice u = None ↔
        Spec.firstBy (Spec.criteria toLowerCase (Spec.isFemale (id npc)))
                     (voices sy) = None
        ∧ List.find (fun v => startsWith (Voice.lang v) (js "en")) (voices sy)
          = None))
  ∧ (∃ u,
       WebLLM.speak toLowerCase t w
       = (Ret tt, setSynth (Some {| voices := voices sy; queue := [u] |}) w)
       ∧ text u = t
       ∧ voice u
         = orElse
             (List.find (fun v =>
                includes (Voice.lang v) (js "en")
                && ((Spec.isFemale (id npc)
                     && includes (toLowerCase (Voice.name v)) (js "female"))
                    || (negb (Spec.isFemale (id npc))
                        && includes (toLowerCase (Voice.name v)) (js "male"))))
                (voices sy))
             (orElse (List.find (fun v => includes (Voice.lang v) (js "en"))
                        (voices sy))
                     (head (voices sy)))
       ∧ is_Some (voice u)
       ∧ (List.find (fun v => includes (Voice.lang v) (js "en")) (voices sy)
          = None →
          voice u = head (voices sy))).
Proof.
  intros Hs Hv Hnpc. split.
  - exists (AIChat.utter toLowerCase (Some npc) (voices sy) t).
    split.
    + unfold AIChat.speak, bind, gets, modify, ret. rewrite Hs.
      destruct (voices sy) as [| v vs] eqn:E; [done |].
      simpl. rewrite Hnpc. reflexivity.
    + unfold AIChat.utter.
      destruct (tune_text_voice (id npc)
                  {| text := t;
                     voice := AIChat.selectVoice toLowerCase (id npc) (voices sy);
                     rate := None; pitch := None; volume := None |})
        as [-> ->]. cbn [text voice].
      rewrite selectVoice_voiceFor.
      split; [reflexivity |]. split; [reflexivity |].
      unfold Spec.voiceFor.
      destruct (Spec.firstBy _ _).
      * split; [intros H; discriminate H | intros [H _]; discriminate H].
      * split; [intros ->; split; reflexivity | intros [_ ?]; assumption].
  - destruct (WebLLM_speak_voice w sy npc t Hs Hnpc) as (u & Hrun & Ht & Hu).
    exists u. split; [exact Hrun |]. split; [exact Ht |].
    split; [exact Hu |]. rewrite Hu. split.
    + unfold orElse.
      destruct (List.find _ (voices sy)); [by eexists |].
      destruct (List.find _ (voices sy)); [by eexists |].
      destruct (voices sy) as [| v vs]; [done | by eexists].
    + intros Hnone. rewrite find_english_none by exact Hnone.
      rewrite Hnone. reflexivity.
Qed.

End VoiceSelection.

Lemma C7_voice_selection_witness :
  (∃ u,
     AIChat.speak asciiLower (Str (js "hello")) withSooyeon
     = (Ret tt, setSynth (Some {| voices := sampleVoices; queue := [u] |})
                  withSooyeon)
     ∧ text u = Str (js "hello")
     ∧ voice u = Spec.voiceFor asciiLower (Spec.isFemale (js "sooyeon"))
                   sampleVoices
     ∧ (voice u = None ↔
        Spec.firstBy (Spec.criteria asciiLower (Spec.isFemale (js "sooyeon")))
                     sampleVoices = None
        ∧ List.find (fun v => startsWith (Voice.lang v) (js "en")) sampleVoices
          = None))
  ∧ (∃ u,
       WebLLM.speak asciiLower (Str (js "hello")) withSooyeon
       = (Ret tt, setSynth (Some {| voices := sampleVoices; queue := [u] |})
                    withSooyeon)
       ∧ text u = Str (js "hello")
       ∧ is_Some (voice u)).
Proof.
  destruct (C7_voice_selection asciiLower withSooyeon
              {| voices := sampleVoices;
                 queue := [AIChat.utter asciiLower
                             (Some {| id := js "sooyeon";
                                      config := Some sooyeonConfig |})
                             sampleVoices
                             (Str (js "Oh... hello, teacher... *looks up shyly* I was just... drawing something..."))] |}
              {| id := js "sooyeon"; config := Some sooyeonConfig |}
              (Str (js "hello")))
    as [Hchat (u & Hrun & Ht & _ & Hset & _)].
  - vm_compute. reflexivity.
  - discriminate.
  - vm_compute. reflexivity.
  - split; [exact Hchat |]. exists u. auto.
Defined.

(** C7, as stated, fails for the WebLLM version: with a Korean voice as
    the only one installed, no criterion of the claim matches and no
    language starts with [en], so the claim leaves the voice unset, as
    ai-chat.js does; the WebLLM version sets the Korean voice. *)
Lemma C7_counterexample :
  let korean := {| Voice.name := js "Yuna"; Voice.lang := js "ko-KR" |} in
  let t := Str (js "hello") in
  option_map voices (speechSynthesis koreanVoiceOnly) = Some [korean]
  ∧ Spec.voiceFor asciiLower (Spec.isFemale (js "minjun")) [korean] = None
  ∧ option_map (fun sy => map voice (queue sy))
      (speechSynthesis (snd (AIChat.speak asciiLower t koreanVoiceOnly)))
    = Some [None]
  ∧ fst (WebLLM.speak asciiLower t koreanVoiceOnly) = Ret tt
  ∧ option_map (fun sy => map voice (queue sy))
      (speechSynthesis (snd (WebLLM.speak asciiLower t koreanVoiceOnly)))
    = Some [Some korean].
Proof. vm_compute. repeat split; reflexivity. Qed.

(** ** [sendMessage] under its failed preconditions *)

Section SendMessage.
Variable toLowerCase : jsstring -> jsstring.

(** C10. [sendMessage] is a no-op under its failed preconditions: if no
    NPC conversation is active, or a response is currently being
    generated, or the trimmed input text is empty, [sendMessage] returns
    and leaves the whole state as it was: nothing is appended to any
    conversation history and no message is added to the UI. *)
Theorem C10_sendMessage_noop (w : World) (r r' : random) :
  currentNPC (chat w) = None
  ∨ isGenerating (chat w) = true
  ∨ (∀ v, chatInput (page w) = Some v → trim v = []) →
  Common.sendMessage_enter w = (Ret None, w)
  ∧ AIChat.sendMessage_begin w = (Ret None, w)
  ∧ AIChat.sendMessage toLowerCase r r' w = (Ret tt, w)
  ∧ WebLLM.sendMessage toLowerCase r r' w = (Ret tt, w).
Proof.
  intros H.
  assert (Common.sendMessage_enter w = (Ret None, w)) as He.
  { unfold Common.sendMessage_enter, bind, gets, ret.
    destruct (currentNPC (chat w)) as [npc |]; [| reflexivity].
    destruct (isGenerating (chat w)); [reflexivity |].
    destruct H as [H | [H | H]]; [discriminate | discriminate |].
    destruct (chatInput (page w)) as [v |]; [| reflexivity].
    rewrite (H v eq_refl). reflexivity. }
  split; [exact He |].
  unfold AIChat.sendMessage, AIChat.sendMessage_begin, WebLLM.sendMessage, bind.
  rewrite He. repeat split; reflexivity.
Qed.

End SendMessage.

Lemma C10_sendMessage_noop_witness :
  Common.sendMessage_enter (typed (js "   ") withMinjun)
  = (Ret None, typed (js "   ") withMinjun)
  ∧ AIChat.sendMessage_begin (typed (js "   ") withMinjun)
    = (Ret None, typed (js "   ") withMinjun)
  ∧ AIChat.sendMessage asciiLower rnd0 rnd0 (typed (js "   ") withMinjun)
    = (Ret tt, typed (js "   ") withMinjun)
  ∧ WebLLM.sendMessage asciiLower rnd0 rnd0 (typed (js "   ") withMinjun)
    = (Ret tt, typed (js "   ") withMinjun).
Proof.
  apply (C10_sendMessage_noop asciiLower (typed (js "   ") withMinjun)
           rnd0 rnd0).
  right. right. intros v Hv. vm_compute in Hv.
  injection Hv as <-. vm_compute. reflexivity.
Defined.

(** ** The conversation history only grows *)

Lemma grows_refl (h : gmap jsstring (list Entry)) : grows h h.
Proof. intros i l Hl. exists []. by rewrite app_nil_r. Qed.

Lemma grows_trans (h1 h2 h3 : gmap jsstring (list Entry)) :
  grows h1 h2 → grows h2 h3 → grows h1 h3.
Proof.
  intros H12 H23 i l Hl.
  destruct (H12 i l Hl) as [m1 H1]. destruct (H23 i _ H1) as [m2 H2].
  exists (m1 ++ m2). by rewrite app_assoc.
Qed.

Section Preservation.
Variable Q : gmap jsstring (list Entry) -> Prop.

Lemma preserves_ret {A} (a : A) : preserves Q (ret a).
Proof. intros w H. exact H. Qed.

Lemma preserves_throw {A} (e : exn) : preserves Q (throw (A := A) e).
Proof. intros w H. exact H. Qed.

Lemma preserves_gets {A} (f : World → A) : preserves Q (gets f).
Proof. intros w H. exact H. Qed.

Lemma preserves_liftO {A} (o : outcome A) : preserves Q (liftO o).
Proof. intros w H. exact H. Qed.

Lemma preserves_modify (f : World → World) :
  (∀ w, conversationHistory (chat (f w)) = conversationHistory (chat w)) →
  preserves Q (modify f).
Proof. intros Hf w H. simpl. by rewrite Hf. Qed.

Lemma preserves_bind {A B} (c : M World A) (k : A → M World B) :
  preserves Q c → (∀ a, preserves Q (k a)) → preserves Q (bind c k).
Proof.
  intros Hc Hk w H. unfold bind. specialize (Hc w H).
  destruct (c w) as [[a | e] w1]; simpl in *; [| exact Hc].
  by apply Hk.
Qed.

Lemma preserves_tryCatch {A} (c : M World A) (h : exn → M World A) :
  preserves Q c → (∀ e, preserves Q (h e)) → preserves Q (tryCatch c h).
Proof.
  intros Hc Hh w H. unfold tryCatch. specialize (Hc w H).
  destruct (c w) as [[a | e] w1]; simpl in *; [exact Hc |].
  by apply Hh.
Qed.

Lemma preserves_forEach {A} (l : list A) (f : A → M World unit) :
  (∀ a, preserves Q (f a)) → preserves Q (forEach l f).
Proof.
  intros Hf. induction l as [| a l IH]; simpl.
  - apply preserves_ret.
  - apply preserves_bind; [apply Hf | intros _; exact IH].
Qed.

Lemma preserves_onManager (c : M NPCManager.St unit) :
  preserves Q (onManager c).
Proof.
  intros w H. unfold onManager.
  destruct (npcManager w) as [m |]; [| exact H].
  destruct (c (m, controllers w)) as [o [m' h']]. exact H.
Qed.

(** The plumbing of a proof of [preserves]: the rules of the monad, and
    the case analysis that the code makes. *)
Ltac preserve_step :=
  first
    [ apply preserves_ret | apply preserves_throw | apply preserves_gets
    | apply preserves_liftO | apply preserves_onManager
    | apply preserves_modify; intros ?; reflexivity
    | apply preserves_bind; [| intros ?]
    | apply preserves_tryCatch; [| intros ?]
    | apply preserves_forEach; intros ?
    | match goal with
      | |- preserves _ (match ?x with _ => _ end) => destruct x
      end ].

Lemma preserves_currentId : preserves Q currentId.
Proof. unfold currentId. repeat preserve_step. Qed.

Lemma preserves_addMessageToUI (type : Kind) (content : value) :
  preserves Q (Common.addMessageToUI type content).
Proof. unfold Common.addMessageToUI. repeat preserve_step. Qed.

Lemma preserves_removeElement (msgEl : option nat) :
  preserves Q (Common.removeElement msgEl).
Proof. unfold Common.removeElement. repeat preserve_step. Qed.

Section Speak.
Variable toLowerCase : jsstring -> jsstring.

Lemma preserves_speak (t : value) : preserves Q (AIChat.speak toLowerCase t).
Proof. unfold AIChat.speak. repeat preserve_step. Qed.

Lemma preserves_generateSmartResponse (r : random) (msg : jsstring) :
  preserves Q (AIChat.generateSmartResponse toLowerCase r msg).
Proof.
  unfold AIChat.generateSmartResponse.
  repeat first [apply preserves_currentId | preserve_step].
Qed.

Lemma preserves_speakTimer : preserves Q (AIChat.speakTimer toLowerCase).
Proof.
  unfold AIChat.speakTimer.
  repeat first [apply preserves_speak | preserve_step].
Qed.

Lemma preserves_endConversation : preserves Q AIChat.endConversation.
Proof. unfold AIChat.endConversation. repeat preserve_step. Qed.

Lemma preserves_generateResponse_enter :
  preserves Q AIChat.generateResponse_enter.
Proof.
  unfold AIChat.generateResponse_enter.
  repeat first [apply preserves_addMessageToUI | preserve_step].
Qed.

End Speak.

(** [Q] holds on to a table to which an empty history is added under an
    unused name. *)
Hypothesis Q_init : ∀ h i, Q h → h !! i = None → Q (<[i := []]> h).

Lemma preserves_initHistory (npcId : jsstring) :
  preserves Q (initHistory npcId).
Proof.
  intros w H. unfold initHistory, bind, gets, get.
  destruct (conversationHistory (chat w) !! npcId) eqn:Hn; [exact H |].
  destruct (inPrototype npcId); [exact H |]. simpl. by apply Q_init.
Qed.

Lemma preserves_startConversation (toLowerCase : jsstring → jsstring)
    (npcId : jsstring) (config : option Config.t) :
  preserves Q (AIChat.startConversation toLowerCase npcId config).
Proof.
  unfold AIChat.startConversation.
  repeat first [apply preserves_initHistory | apply preserves_addMessageToUI
               | apply preserves_speak | preserve_step].
Qed.

(** [Q] holds on to a table in which an entry is appended to a history. *)
Hypothesis Q_push :
  ∀ h i l e, Q h → h !! i = Some l → Q (<[i := l ++ [e]]> h).

Lemma preserves_pushHistory (i : jsstring) (e : Entry) :
  preserves Q (pushHistory i e).
Proof.
  intros w H. unfold pushHistory, bind, gets, get.
  destruct (conversationHistory (chat w) !! i) as [l |] eqn:Hi; simpl.
  - by apply Q_push.
  - destruct (inPrototype i); exact H.
Qed.

Lemma preserves_sendMessage_enter : preserves Q Common.sendMessage_enter.
Proof.
  unfold Common.sendMessage_enter.
  repeat first [apply preserves_pushHistory | apply preserves_addMessageToUI
               | apply preserves_currentId | preserve_step].
Qed.

Lemma preserves_generateResponse_resume (toLowerCase : jsstring → jsstring)
    (r r' : random) (loadingMsgEl : option nat) (msg : jsstring) :
  preserves Q
    (AIChat.generateResponse_resume toLowerCase r r' loadingMsgEl msg).
Proof.
  unfold AIChat.generateResponse_resume.
  repeat first [apply preserves_pushHistory | apply preserves_addMessageToUI
               | apply preserves_removeElement | apply preserves_currentId
               | apply preserves_speak | apply preserves_generateSmartResponse
               | preserve_step].
Qed.

(** Every operation of the chat keeps [Q]. *)
Lemma preserves_chatStep (toLowerCase : jsstring → jsstring) (op : ChatOp)
    (w : World) :
  Q (conversationHistory (chat w)) →
  Q (conversationHistory (chat (chatStep toLowerCase w op))).
Proof.
  destruct op; simpl.
  - apply preserves_startConversation.
  - apply preserves_endConversation.
  - apply (preserves_bind _ _ preserves_sendMessage_enter).
    intros [m |]; [| apply preserves_ret].
    apply preserves_bind; [apply preserves_generateResponse_enter |].
    intros ?. apply preserves_ret.
  - apply preserves_generateResponse_enter.
  - apply preserves_generateResponse_resume.
  - apply preserves_bind; [apply preserves_generateResponse_enter |].
    intros ?. apply preserves_generateResponse_resume.
  - apply preserves_bind.
    + apply (preserves_bind _ _ preserves_sendMessage_enter).
      intros [m |]; [| apply preserves_ret].
      apply preserves_bind; [apply preserves_generateResponse_enter |].
      intros ?. apply preserves_ret.
    + intros [[m e] |]; [apply preserves_generateResponse_resume
                        | apply preserves_ret].
  - apply preserves_speakTimer.
Qed.

Lemma preserves_chatRun (toLowerCase : jsstring → jsstring)
    (ops : list ChatOp) (w : World) :
  Q (conversationHistory (chat w)) →
  Q (conversationHistory (chat (chatRun toLowerCase w ops))).
Proof.
  revert w. induction ops as [| op ops IH]; intros w H; simpl; [exact H |].
  apply IH. by apply preserves_chatStep.
Qed.

End Preservation.

Lemma grows_init (h0 h : gmap jsstring (list Entry)) (i : jsstring) :
  grows h0 h → h !! i = None → grows h0 (<[i := []]> h).
Proof.
  intros Hg Hi j l Hj. destruct (Hg j l Hj) as [more Hm].
  exists more. rewrite lookup_insert_ne; [exact Hm | congruence].
Qed.

Lemma grows_push (h0 h : gmap jsstring (list Entry)) (i : jsstring)
    (l : list Entry) (e : Entry) :
  grows h0 h → h !! i = Some l → grows h0 (<[i := l ++ [e]]> h).
Proof.
  intros Hg Hi j lj Hj. destruct (Hg j lj Hj) as [more Hm].
  destruct (decide (i = j)) as [<- | Hne].
  - exists (more ++ [e]). rewrite lookup_insert_eq, app_assoc. congruence.
  - exists more. by rewrite lookup_insert_ne.
Qed.

(** C6. The per-NPC conversation-history map only grows: every operation
    of the chat system ([startConversation], [sendMessage],
    [generateResponse], [endConversation]), and so every sequence of
    them, either appends entries to an NPC's history list or leaves it
    unchanged; no operation removes, truncates or evicts stored history
    entries, and [startConversation] preserves every existing NPC history
    intact. *)
Theorem C6_history_only_grows (toLowerCase : jsstring → jsstring)
    (w : World) :
  (∀ op, grows (conversationHistory (chat w))
               (conversationHistory (chat (chatStep toLowerCase w op))))
  ∧ (∀ ops, grows (conversationHistory (chat w))
                  (conversationHistory (chat (chatRun toLowerCase w ops))))
  ∧ (∀ npcId config i l,
       conversationHistory (chat w) !! i = Some l →
       conversationHistory
         (chat (chatStep toLowerCase w (StartConversation npcId config))) !! i
       = Some l).
Proof.
  split; [| split].
  - intros op.
    apply (preserves_chatStep (grows (conversationHistory (chat w)))).
    + intros h i. apply grows_init.
    + intros h i l e. apply grows_push.
    + apply grows_refl.
  - intros ops.
    apply (preserves_chatRun (grows (conversationHistory (chat w)))).
    + intros h i. apply grows_init.
    + intros h i l e. apply grows_push.
    + apply grows_refl.
  - intros npcId config i l Hl. simpl.
    apply (preserves_startConversation (fun h => h !! i = Some l));
      [| exact Hl].
    intros h j Hh Hj. rewrite lookup_insert_ne; [exact Hh | congruence].
Qed.

(** ** What a turn appends *)

(** What [sendMessage] appends before the response is generated: the
    user message, to the history of the current NPC. *)
Lemma sendMessage_enter_appends (w w1 : World) (msg : jsstring) :
  Common.sendMessage_enter w = (Ret (Some msg), w1) →
  ∃ npc old,
    currentNPC (chat w) = Some npc
    ∧ conversationHistory (chat w) !! id npc = Some old
    ∧ conversationHistory (chat w1)
      = <[id npc := old ++ [{| role := user; content := Str msg |}]]>
          (conversationHistory (chat w)).
Proof.
  destruct w as [[ld en gen cur hist] [ui msgs input label next]
                 synth later mgr ctrls].
  unfold Common.sendMessage_enter, Common.addMessageToUI, currentId,
    pushHistory, bind, gets, modify, ret, throw, get. simpl.
  intros H.
  destruct cur as [npc |]; simpl in H; [| discriminate H].
  destruct gen; simpl in H; [discriminate H |].
  destruct input as [v |]; simpl in H; [| discriminate H].
  destruct (truthy_str (trim v)); simpl in H; [| discriminate H].
  destruct msgs as [els |]; simpl in H;
    (destruct (hist !! id npc) as [old |] eqn:Hold; simpl in H;
     [| destruct (inPrototype (id npc)); discriminate H]);
    injection H as <- <-; exists npc, old; simpl; auto.
Qed.

Lemma sendMessage_begin_appends (w w1 : World) (msg : jsstring)
    (loadingMsgEl : option nat) :
  AIChat.sendMessage_begin w = (Ret (Some (msg, loadingMsgEl)), w1) →
  ∃ npc old,
    currentNPC (chat w) = Some npc
    ∧ conversationHistory (chat w) !! id npc = Some old
    ∧ conversationHistory (chat w1)
      = <[id npc := old ++ [{| role := user; content := Str msg |}]]>
          (conversationHistory (chat w)).
Proof.
  unfold AIChat.sendMessage_begin. unfold bind at 1.
  destruct (Common.sendMessage_enter w) as [[[m |] | e] w2] eqn:E;
    [| discriminate | discriminate].
  destruct (sendMessage_enter_appends w w2 m E) as (npc & old & ? & ? & Hw2).
  unfold AIChat.generateResponse_enter, bind. simpl.
  destruct (Common.addMessageToUI loadingMsg (Str (js "Thinking"))
              (withChat (setIsGenerating true) w2)) as [[o | e] w3] eqn:E3;
    [| discriminate].
  intros [= <- <- <-]. exists npc, old. split; [assumption |].
  split; [assumption |]. rewrite <- Hw2.
  pose proof (preserves_addMessageToUI
                (fun h => h = conversationHistory (chat w2)) loadingMsg
                (Str (js "Thinking")) (withChat (setIsGenerating true) w2)
                eq_refl) as H3.
  rewrite E3 in H3. exact H3.
Qed.

(** ** Recovery from an error *)

(** Reading the state does not change it. *)
Lemma bind_gets {S A B} (f : S → A) (k : A → M S B) (s : S) :
  bind (gets f) k s = k (f s) s.
Proof. reflexivity. Qed.

Section Recovery.
Variable toLowerCase : jsstring -> jsstring.

(** What the [catch] branch leaves behind. *)
Lemma generateResponse_resume_recovers (w : World) (r r' : random)
    (loadingMsgEl : option nat) (msg : jsstring) (e : exn) (w' : World) :
  AIChat.generateSmartResponse toLowerCase r msg w = (Throw e, w') →
  ∃ final,
    AIChat.generateResponse_resume toLowerCase r r' loadingMsgEl msg w
    = (Ret tt, final)
    ∧ conversationHistory (chat final) = conversationHistory (chat w)
    ∧ isGenerating (chat final) = false
    ∧ chatMessages (page final)
      = option_map
          (fun els => withoutElement loadingMsgEl els
                      ++ [{| el := nextElement (page w); kind := npcMsg;
                             textContent := Str AIChat.fallback |}])
          (chatMessages (page w))
    ∧ (∀ sy, speechSynthesis w = Some sy → voices sy ≠ [] →
         speechSynthesis final
         = Some {| voices := voices sy;
                   queue := [AIChat.utter toLowerCase (currentNPC (chat w))
                               (voices sy) (Str AIChat.fallback)] |}
         ∧ speakLater final = speakLater w)
    ∧ (∀ sy, speechSynthesis w = Some sy → voices sy = [] →
         speakLater final = speakLater w ++ [Str AIChat.fallback]).
Proof.
  intros Hthrow.
  assert (w' = w) as ->.
  { rewrite generateSmartResponse_eq in Hthrow. congruence. }
  assert (∀ k : value → M World unit,
            bind (AIChat.generateSmartResponse toLowerCase r msg) k w
            = (Throw e, w)) as Hbind.
  { intros k. unfold bind. rewrite Hthrow. reflexivity. }
  unfold AIChat.generateResponse_resume.
  unfold bind at 1. unfold tryCatch. rewrite Hbind. clear Hbind Hthrow.
  destruct w as [c [ui msgs input label next] synth later mgr ctrls].
  unfold Common.removeElement, Common.addMessageToUI, AIChat.speak,
    bind, gets, modify, ret.
  destruct loadingMsgEl as [n |], msgs as [els |], synth as [[vs q] |];
    simpl;
    try (destruct vs as [| v vs]; simpl);
    (eexists; split; [reflexivity |]; simpl;
     split; [reflexivity |]; split; [reflexivity |]; split; [reflexivity |];
     split; intros sy Hsy Hv; try discriminate Hsy;
     injection Hsy as <-; simpl in *; try done; try (split; reflexivity)).
Qed.

(** The response of the WebLLM version reads four fields of the chat and
    leaves the state as it is. *)
Lemma WebLLM_response_reads (r : random) (msg : jsstring) (w w2 : World) :
  isLoaded (chat w2) = isLoaded (chat w) →
  engine (chat w2) = engine (chat w) →
  currentNPC (chat w2) = currentNPC (chat w) →
  conversationHistory (chat w2) = conversationHistory (chat w) →
  WebLLM_response toLowerCase r msg w2
  = (fst (WebLLM_response toLowerCase r msg w), w2).
Proof.
  destruct w as [[ld en gen cur hist] pg synth later mgr ctrls],
           w2 as [[ld2 en2 gen2 cur2 hist2] pg2 synth2 later2 mgr2 ctrls2].
  simpl. intros -> -> -> ->.
  unfold WebLLM_response, WebLLM.generateWithLLM, WebLLM.buildMessages,
    WebLLM.generateFallbackResponse, bind, gets, liftO, ret, throw.
  simpl.
  destruct (ld && bool_decide (is_Some en)); simpl.
  - destruct cur as [npc |]; simpl; [| reflexivity].
    destruct (config npc) as [cfg |]; simpl; [| reflexivity].
    destruct (get hist (id npc)); simpl; try reflexivity.
    destruct en as [create |]; simpl; [| reflexivity].
    destruct (create _); reflexivity.
  - destruct cur as [npc |]; simpl; [| reflexivity].
    destruct (get WebLLM.fallbacks (id npc)); reflexivity.
Qed.

(** A body that throws hands over to the [catch] branch. *)
Lemma tryCatch_throws {A} (c : M World A) (h : exn → M World A)
    (w w' : World) (e : exn) :
  c w = (Throw e, w') → tryCatch c h w = h e w'.
Proof. intros H. unfold tryCatch. rewrite H. reflexivity. Qed.

(** The [try] block of [generateResponse] stops where its response
    throws. *)
Lemma WebLLM_response_bind {B} (r : random) (msg : jsstring)
    (k : value → M World B) (w : World) (e : exn) :
  WebLLM_response toLowerCase r msg w = (Throw e, w) →
  (loaded ← gets (fun w => isLoaded (chat w));
   en ← gets (fun w => engine (chat w));
   response ← (if loaded && bool_decide (is_Some en)
               then WebLLM.generateWithLLM msg
               else WebLLM.generateFallbackResponse toLowerCase r msg);
   k response) w = (Throw e, w).
Proof.
  intros H. unfold WebLLM_response in H. rewrite !bind_gets in H.
  rewrite !bind_gets. unfold bind. rewrite H. reflexivity.
Qed.

(** What the [catch] branch of the WebLLM version leaves behind: its own
    text as a system message in place of the loading message, nothing
    spoken, no entry appended. *)
Lemma WebLLM_generateResponse_throws (w : World) (r r' : random)
    (msg : jsstring) (e : exn) (w' : World) :
  WebLLM_response toLowerCase r msg w = (Throw e, w') →
  ∃ final,
    WebLLM.generateResponse toLowerCase r r' msg w = (Ret tt, final)
    ∧ conversationHistory (chat final) = conversationHistory (chat w)
    ∧ isGenerating (chat final) = false
    ∧ chatMessages (page final)
      = option_map
          (fun els => withoutElement (Some (nextElement (page w))) els
                      ++ [{| el := S (nextElement (page w));
                             kind := systemMsg;
                             textContent := Str WebLLM.trouble |}])
          (chatMessages (page w))
    ∧ speechSynthesis final = speechSynthesis w
    ∧ speakLater final = speakLater w.
Proof.
  intros Hthrow.
  assert (∀ w2, isLoaded (chat w2) = isLoaded (chat w) →
                engine (chat w2) = engine (chat w) →
                currentNPC (chat w2) = currentNPC (chat w) →
                conversationHistory (chat w2) = conversationHistory (chat w) →
                WebLLM_response toLowerCase r msg w2 = (Throw e, w2)) as Hat.
  { intros w2 Hl He Hc Hh.
    rewrite (WebLLM_response_reads r msg w w2 Hl He Hc Hh), Hthrow.
    reflexivity. }
  clear Hthrow.
  destruct w as [[ld en gen cur hist] [ui msgs input label next]
                 synth later mgr ctrls].
  unfold WebLLM.generateResponse.
  unfold bind at 1. unfold modify at 1. unfold bind at 1.
  match goal with
  | |- context [Common.addMessageToUI ?k ?t ?s] =>
      destruct (Common.addMessageToUI k t s) as [o w2] eqn:Hadd
  end.
  destruct msgs as [els |]; cbn in Hadd; injection Hadd as <- <-;
    unfold bind at 1;
    (erewrite tryCatch_throws
       by (apply WebLLM_response_bind, Hat; reflexivity));
    unfold Common.removeElement, Common.addMessageToUI, bind, gets, modify,
      ret;
    simpl;
    (eexists; split; [reflexivity |]; simpl; repeat split; try reflexivity).
  rewrite filter_app, filter_cons_False, filter_nil, app_nil_r
    by (simpl; intros H; apply H; reflexivity).
  reflexivity.
Qed.
(** The utterance that [speak] builds carries the text it was given. *)
Lemma utter_text (current : option NPC) (vs : list Voice.t) (t : value) :
  text (AIChat.utter toLowerCase current vs t) = t.
Proof.
  unfold AIChat.utter. destruct current as [npc |]; [| reflexivity].
  apply tune_text_voice.
Qed.

(** C5, as amended. If response generation throws an error,
    [generateResponse] recovers through its single [try]/[catch] with a
    fixed text: it returns normally, no assistant entry is appended to
    any conversation history, and [isGenerating] is reset. In ai-chat.js
    the fallback text is shown as a message of the NPC in place of the
    loading message and it is the text of the utterance spoken (at once
    when voices are installed, on a timer when they are not); when no
    history changed during the delay, the history of the NPC keeps its
    entries and the user message that [sendMessage] had appended. In the
    WebLLM version another fixed text is shown, as a system message in
    place of the loading message, and nothing is spoken. *)
Theorem C5_fallback_on_error (w : World) (r r' : random)
    (loadingMsgEl : option nat) (msg : jsstring) :
  (∀ e w',
     AIChat.generateSmartResponse toLowerCase r msg w = (Throw e, w') →
     ∃ final,
       AIChat.generateResponse_resume toLowerCase r r' loadingMsgEl msg w
       = (Ret tt, final)
       ∧ conversationHistory (chat final) = conversationHistory (chat w)
       ∧ isGenerating (chat final) = false
       ∧ chatMessages (page final)
         = option_map
             (fun els => withoutElement loadingMsgEl els
                         ++ [{| el := nextElement (page w); kind := npcMsg;
                                textContent := Str AIChat.fallback |}])
             (chatMessages (page w))
       ∧ (∀ sy, speechSynthesis w = Some sy → voices sy ≠ [] →
            ∃ u,
              speechSynthesis final
              = Some {| voices := voices sy; queue := [u] |}
              ∧ text u = Str AIChat.fallback
              ∧ u = AIChat.utter toLowerCase (currentNPC (chat w))
                      (voices sy) (Str AIChat.fallback)
              ∧ speakLater final = speakLater w)
       ∧ (∀ sy, speechSynthesis w = Some sy → voices sy = [] →
            speakLater final = speakLater w ++ [Str AIChat.fallback])
       ∧ (∀ w0 w1,
            AIChat.sendMessage_begin w0
            = (Ret (Some (msg, loadingMsgEl)), w1) →
            conversationHistory (chat w) = conversationHistory (chat w1) →
            ∃ npc old,
              currentNPC (chat w0) = Some npc
              ∧ conversationHistory (chat w0) !! id npc = Some old
              ∧ conversationHistory (chat final)
                = <[id npc := old ++ [{| role := user; content := Str msg |}]]>
                    (conversationHistory (chat w0))))
  ∧ (∀ e w',
       WebLLM_response toLowerCase r msg w = (Throw e, w') →
       ∃ final,
         WebLLM.generateResponse toLowerCase r r' msg w = (Ret tt, final)
         ∧ conversationHistory (chat final) = conversationHistory (chat w)
         ∧ isGenerating (chat final) = false
         ∧ chatMessages (page final)
           = option_map
               (fun els => withoutElement (Some (nextElement (page w))) els
                           ++ [{| el := S (nextElement (page w));
                                  kind := systemMsg;
                                  textContent := Str WebLLM.trouble |}])
               (chatMessages (page w))
         ∧ speechSynthesis final = speechSynthesis w
         ∧ speakLater final = speakLater w).
Proof.
  split.
  - intros e w' Hthrow.
    destruct (generateResponse_resume_recovers w r r' loadingMsgEl msg e w'
                Hthrow)
      as (final & Hrun & Hhist & Hgen & Hshown & Hspoken & Hlater).
    exists final. repeat (split; [assumption |]).
    split; [| split; [exact Hlater |]].
    + intros sy Hsy Hv. destruct (Hspoken sy Hsy Hv) as [Hq Hl].
      eexists. split; [exact Hq |]. split; [apply utter_text |].
      split; [reflexivity | exact Hl].
    + intros w0 w1 Hbegin Hsame.
      destruct (sendMessage_begin_appends w0 w1 msg loadingMsgEl Hbegin)
        as (npc & old & Hnpc & Hold & Hw1).
      exists npc, old. split; [exact Hnpc |]. split; [exact Hold |].
      congruence.
  - intros e w'. apply WebLLM_generateResponse_throws.
Qed.

End Recovery.

Lemma C5_fallback_on_error_witness :
  AIChat.generateSmartResponse asciiLower rnd0 (js "hello") leftDuringDelay
  = (Throw TypeError, leftDuringDelay)
  ∧ (∃ final,
       AIChat.generateResponse_resume asciiLower rnd0 rnd0 (Some 2%nat)
         (js "hello") leftDuringDelay
       = (Ret tt, final)
       ∧ conversationHistory (chat final)
         = conversationHistory (chat leftDuringDelay)
       ∧ isGenerating (chat final) = false
       ∧ chatMessages (page final)
         = option_map
             (fun els => withoutElement (Some 2%nat) els
                         ++ [{| el := nextElement (page leftDuringDelay);
                                kind := npcMsg;
                                textContent := Str AIChat.fallback |}])
             (chatMessages (page leftDuringDelay))
       ∧ ∃ u, option_map queue (speechSynthesis final) = Some [u]
              ∧ text u = Str AIChat.fallback)
  ∧ WebLLM_response asciiLower rnd0 (js "hello") engineRejects
    = (Throw Rejected, engineRejects)
  ∧ ∃ final,
      WebLLM.generateResponse asciiLower rnd0 rnd0 (js "hello") engineRejects
      = (Ret tt, final)
      ∧ conversationHistory (chat final)
        = conversationHistory (chat engineRejects)
      ∧ isGenerating (chat final) = false
      ∧ speechSynthesis final = speechSynthesis engineRejects.
Proof.
  split; [vm_compute; reflexivity |].
  split.
  { destruct (proj1 (C5_fallback_on_error asciiLower leftDuringDelay rnd0 rnd0
                       (Some 2%nat) (js "hello"))
                TypeError leftDuringDelay)
      as (final & Hrun & Hhist & Hgen & Hshown & Hspoken & _).
    - vm_compute. reflexivity.
    - exists final. repeat (split; [assumption |]).
      destruct (Hspoken {| voices := sampleVoices; queue := [] |})
        as (u & Hq & Ht & _).
      + vm_compute. reflexivity.
      + discriminate.
      + exists u. rewrite Hq. split; [reflexivity | exact Ht]. }
  split; [vm_compute; reflexivity |].
  destruct (proj2 (C5_fallback_on_error asciiLower engineRejects rnd0 rnd0
                     None (js "hello"))
              Rejected engineRejects)
    as (final & Hrun & Hhist & Hgen & _ & Hsynth & _).
  - vm_compute. reflexivity.
  - exists final. auto.
Defined.

(** C5, as stated, fails for the WebLLM version: when the engine rejects
    the request, [generateResponse] shows its text as a system message
    and speaks nothing, neither at once nor on a timer. *)
Lemma C5_counterexample :
  let run :=
    WebLLM.generateResponse asciiLower rnd0 rnd0 (js "hello") engineRejects in
  WebLLM_response asciiLower rnd0 (js "hello") engineRejects
  = (Throw Rejected, engineRejects)
  ∧ fst run = Ret tt
  ∧ option_map (map (fun e => (kind e, textContent e)))
      (chatMessages (page (snd run)))
    = Some [(systemMsg, Str (js "You approached Min-jun. They look up at you."));
            (systemMsg, Str WebLLM.trouble)]
  ∧ option_map queue (speechSynthesis (snd run)) = Some []
  ∧ speakLater (snd run) = []
  ∧ option_map voices (speechSynthesis (snd run)) = Some sampleVoices.
Proof. vm_compute. repeat split; reflexivity. Qed.

Example leftDuringDelay_history :
  conversationHistory (chat leftDuringDelay)
  = {[ js "minjun" := [{| role := user; content := Str (js "hello") |}] ]}.
Proof. vm_compute. reflexivity. Qed.

Example leftDuringDelay_recovered :
  option_map (map (fun e => (kind e, textContent e)))
    (chatMessages (page (snd
       (AIChat.generateResponse_resume asciiLower rnd0 rnd0 (Some 2%nat)
          (js "hello") leftDuringDelay))))
  = Some [(npcMsg, Str (js "Hello, teacher! 안녕하세요! I'm Min-jun, the class president. How can I help you today?"));
          (userMsg, Str (js "hello"));
          (npcMsg, Str AIChat.fallback)].
Proof. vm_compute. reflexivity. Qed.

Lemma C6_history_only_grows_witness :
  ∃ more,
    conversationHistory
      (chat (chatRun asciiLower leftDuringDelay
               [GenerateResponseResume rnd0 rnd0 (Some 2%nat) (js "hello");
                StartConversation (js "minjun") (Some minjunConfig);
                GenerateResponse rnd0 rndHalf (js "what is this?");
                EndConversation;
                StartConversation (js "sooyeon") (Some sooyeonConfig)]))
      !! js "minjun"
    = Some ([{| role := user; content := Str (js "hello") |}] ++ more).
Proof.
  apply (proj1 (proj2 (C6_history_only_grows asciiLower leftDuringDelay))).
  vm_compute. reflexivity.
Defined.

(** ** The WebLLM version *)

Section WebLLMVersion.
Variable toLowerCase : jsstring -> jsstring.

(** The scripted response of the WebLLM version is drawn with
    [Math.random()] from an array chosen by the message and the id. *)
Lemma generateFallbackResponse_eq (r : random) (msg : jsstring) (w : World)
    (npc : NPC) (f : WebLLM.Fallbacks) :
  currentNPC (chat w) = Some npc →
  WebLLM.fallbacks !! id npc = Some f →
  WebLLM.generateFallbackResponse toLowerCase r msg w
  = (Ret (pick r (WebLLM.responseSet f (toLowerCase msg))), w).
Proof.
  intros Hnpc Hf.
  unfold WebLLM.generateFallbackResponse, bind, gets, ret, get.
  rewrite Hnpc, Hf. reflexivity.
Qed.

(** When the conversation has ended before the response is generated,
    the [catch] branch of the WebLLM version shows its own text as a
    system message in place of the loading message; it speaks nothing
    and appends nothing to the histories. *)
Lemma WebLLM_generateResponse_recovers (w : World) (r r' : random)
    (msg : jsstring) :
  currentNPC (chat w) = None →
  ∃ final,
    WebLLM.generateResponse toLowerCase r r' msg w = (Ret tt, final)
    ∧ conversationHistory (chat final) = conversationHistory (chat w)
    ∧ isGenerating (chat final) = false
    ∧ chatMessages (page final)
      = option_map
          (fun els => withoutElement (Some (nextElement (page w))) els
                      ++ [{| el := S (nextElement (page w));
                                 kind := systemMsg;
                                 textContent := Str WebLLM.trouble |}])
          (chatMessages (page w))
    ∧ speechSynthesis final = speechSynthesis w
    ∧ speakLater final = speakLater w.
Proof.
  destruct w as [[ld en gen cur hist] [ui msgs input label next]
                 synth later mgr ctrls].
  simpl. intros ->.
  unfold WebLLM.generateResponse, WebLLM.generateWithLLM,
    WebLLM.buildMessages, WebLLM.generateFallbackResponse,
    Common.addMessageToUI, Common.removeElement, tryCatch, bind, gets,
    modify, ret, throw.
  simpl.
  destruct msgs as [els |]; simpl;
    destruct (ld && bool_decide (is_Some en)); simpl;
    (eexists; split; [reflexivity |]; simpl; repeat split; try reflexivity).
  all: rewrite filter_app, filter_cons_False, filter_nil, app_nil_r
         by (simpl; intros H; apply H; reflexivity).
  all: reflexivity.
Qed.

End WebLLMVersion.

(** ** The NPC manager *)

Lemma activeIsCurrent_unique (s : NPCManager.St) :
  activeIsCurrent s →
  ∀ l l', active (snd s) l → active (snd s) l' → l = l'.
Proof.
  intros Hinv l l' Hl Hl'.
  destruct (Hinv l Hl) as (i & Hi & _ & Hil).
  destruct (Hinv l' Hl') as (i' & Hi' & _ & Hil').
  congruence.
Qed.

Lemma active_setActive (m : NPCManager.t) (h : gmap nat Controller)
    (l : nat) (b : bool) (l' : nat) :
  active (snd (snd (NPCManager.setActive l b (m, h)))) l' ↔
  (l' = l ∧ b = true ∧ is_Some (h !! l)) ∨ (l' ≠ l ∧ active h l').
Proof.
  unfold NPCManager.setActive, modify, active. simpl.
  destruct (h !! l) as [c |] eqn:Hc.
  - destruct (decide (l' = l)) as [-> | Hne].
    + rewrite lookup_insert_eq. split.
      * intros (c' & [= <-] & Hb). simpl in Hb. left. eauto.
      * intros [(_ & -> & _) | [Hne _]]; [| done]. eexists. split; eauto.
    + rewrite lookup_insert_ne by done. split.
      * intros H. right. auto.
      * intros [[? _] | [_ H]]; [done | exact H].
  - split.
    + intros (c' & Hc' & Hb). right. split; [congruence | eauto].
    + intros [(_ & _ & [? ?]) | [_ H]]; [done | exact H].
Qed.

(** [setActiveNPC] keeps the invariant, also when it throws. *)
Lemma setActiveNPC_activeIsCurrent (id : option jsstring) (s : NPCManager.St) :
  activeIsCurrent s → activeIsCurrent (snd (NPCManager.setActiveNPC id s)).
Proof.
  destruct s as [m h]. intros Hinv.
  (* after the first step no controller is active *)
  assert (∀ o s1, NPCManager.onEntry (NPCManager.activeNPC m)
                    (fun l => NPCManager.setActive l false) (m, h) = (o, s1) →
                  fst s1 = m
                  ∧ ((o = Ret tt ∧ ∀ l, ¬ active (snd s1) l)
                     ∨ (∃ e, o = Throw e) ∧ snd s1 = h)) as Hfirst.
  { intros o s1. unfold NPCManager.onEntry.
    destruct (NPCManager.activeNPC m) as [a |] eqn:Ha.
    - destruct (truthy_str a) eqn:Ht.
      + unfold bind, NPCManager.getNPC, gets, get. simpl.
        destruct (NPCManager.npcs m !! a) as [la |] eqn:Hla.
        * change (NPCManager.setActive la false (m, h))
            with (Ret tt, snd (NPCManager.setActive la false (m, h))).
          intros [= <- <-]. split; [reflexivity |]. left.
          split; [reflexivity |]. intros l Hl.
          apply active_setActive in Hl.
          destruct Hl as [(_ & Hb & _) | [Hne Hl]]; [discriminate Hb |].
          destruct (Hinv l Hl) as (i & Hi & _ & Hil). simpl in *. congruence.
        * destruct (inPrototype a).
          -- intros [= <- <-]. split; [reflexivity |]. right. eauto.
          -- intros [= <- <-]. split; [reflexivity |]. left.
             split; [reflexivity |]. intros l Hl.
             destruct (Hinv l Hl) as (i & Hi & _ & Hil). simpl in *. congruence.
      + intros [= <- <-]. split; [reflexivity |]. left.
        split; [reflexivity |]. intros l Hl.
        destruct (Hinv l Hl) as (i & Hi & Hti & _). simpl in *. congruence.
    - intros [= <- <-]. split; [reflexivity |]. left.
      split; [reflexivity |]. intros l Hl.
      destruct (Hinv l Hl) as (i & Hi & _). simpl in *. congruence. }
  unfold NPCManager.setActiveNPC. unfold bind at 1. unfold gets at 1.
  unfold bind at 1.
  destruct (NPCManager.onEntry _ _ (m, h)) as [o [m1 h1]] eqn:E1.
  destruct (Hfirst _ _ eq_refl) as [Hm [[-> Hnone] | [[e ->] Hh]]];
    simpl in Hm; subst m1.
  2:{ simpl in Hh. subst h1. exact Hinv. }
  simpl in Hnone.
  unfold bind at 1. unfold modify at 1.
  unfold NPCManager.onEntry.
  destruct id as [i |]; [| intros l Hl; destruct (Hnone l Hl)].
  destruct (truthy_str i) eqn:Hti; [| intros l Hl; destruct (Hnone l Hl)].
  unfold bind, NPCManager.getNPC, gets, get. simpl.
  destruct (NPCManager.npcs m !! i) as [li |] eqn:Hli.
  - intros l Hl. apply active_setActive in Hl.
    destruct Hl as [(-> & _ & _) | [_ Hl]]; [| destruct (Hnone l Hl)].
    exists i. simpl. auto.
  - destruct (inPrototype i); intros l Hl; destruct (Hnone l Hl).
Qed.

(** Registering keeps the invariant unless it replaces the highlighted
    controller. *)
Lemma registerNPC_activeIsCurrent (i : jsstring) (l : nat)
    (s : NPCManager.St) :
  replacesActive s i l = false →
  activeIsCurrent s →
  activeIsCurrent (snd (NPCManager.registerNPC i l s)).
Proof.
  destruct s as [m h]. unfold replacesActive. simpl.
  intros Hkeeps Hinv l' Hl'.
  destruct (Hinv l' Hl') as (a & Ha & Hta & Hal). simpl in *.
  exists a. split; [exact Ha |]. split; [exact Hta |].
  destruct (decide (a = i)) as [-> | Hne];
    [| rewrite lookup_insert_ne; [exact Hal | congruence]].
  rewrite lookup_insert_eq. f_equal.
  rewrite Hal in Hkeeps. rewrite bool_decide_eq_true_2 in Hkeeps by exact Ha.
  destruct Hl' as (c & Hc & Hact). rewrite Hc, Hact in Hkeeps.
  simpl in Hkeeps. rewrite andb_true_r in Hkeeps.
  apply negb_false_iff, Nat.eqb_eq in Hkeeps. congruence.
Qed.

Lemma setActiveNPC_npcs (id : option jsstring) (s : NPCManager.St) :
  NPCManager.npcs (fst (snd (NPCManager.setActiveNPC id s)))
  = NPCManager.npcs (fst s).
Proof.
  destruct s as [m h].
  assert (∀ a b s', NPCManager.npcs (fst (snd (NPCManager.onEntry a
                       (fun l => NPCManager.setActive l b) s')))
                    = NPCManager.npcs (fst s')) as Hon.
  { intros a b [m' h']. unfold NPCManager.onEntry.
    destruct a as [a |]; [| reflexivity].
    destruct (truthy_str a); [| reflexivity].
    unfold bind, NPCManager.getNPC, gets, get. simpl.
    destruct (NPCManager.npcs m' !! a); [reflexivity |].
    destruct (inPrototype a); reflexivity. }
  unfold NPCManager.setActiveNPC. unfold bind at 1. unfold gets at 1.
  unfold bind at 1.
  pose proof (Hon (NPCManager.activeNPC m) false (m, h)) as H1.
  destruct (NPCManager.onEntry _ _ (m, h)) as [[[] | e] [m1 h1]];
    simpl in H1 |- *; [| exact H1].
  unfold bind at 1. unfold modify at 1.
  rewrite Hon. simpl. exact H1.
Qed.

Lemma managerRun_activeIsCurrent (ops : list ManagerOp) (s : NPCManager.St) :
  activeIsCurrent s →
  neverReplacesActive s ops = true →
  activeIsCurrent (managerRun s ops).
Proof.
  revert s. induction ops as [| op ops IH]; intros s Hinv Hops;
    [exact Hinv |].
  simpl in Hops |- *. apply andb_true_iff in Hops as [Hop Hops].
  apply IH; [| exact Hops].
  destruct op as [i l | id]; simpl.
  - apply andb_true_iff in Hop as [Hop _]. apply negb_true_iff in Hop.
    by apply registerNPC_activeIsCurrent.
  - by apply setActiveNPC_activeIsCurrent.
Qed.

(** After [setActiveNPC(null)], [activeNPC] is [null], or the call threw
    on an [activeNPC] that is no entry of [npcs]. *)
Lemma setActiveNPC_null_current (s : NPCManager.St) :
  let s' := snd (NPCManager.setActiveNPC None s) in
  NPCManager.activeNPC (fst s') = None
  ∨ ∃ a, NPCManager.activeNPC (fst s') = Some a
         ∧ NPCManager.npcs (fst s') !! a = None.
Proof.
  destruct s as [m h].
  unfold NPCManager.setActiveNPC, NPCManager.onEntry, NPCManager.getNPC,
    NPCManager.setActive, bind, gets, modify, get, ret, throw.
  simpl.
  destruct (NPCManager.activeNPC m) as [a |] eqn:Ha; simpl; [| auto].
  destruct (truthy_str a); simpl; [| auto].
  destruct (NPCManager.npcs m !! a) as [l |] eqn:Hl; simpl; [auto |].
  destruct (inPrototype a); simpl; [| auto].
  right. exists a. auto.
Qed.

(** C9, as amended. The manager keeps at most one controller active as
    long as no [registerNPC] replaces the highlighted controller: from
    the initial manager with no controller active, after any sequence of
    [registerNPC]/[setActiveNPC] calls in which no [registerNPC] is given
    the id that is [activeNPC] at that moment together with a controller
    other than the active one registered under it (and none the id
    [__proto__]), every active controller is the entry of [npcs] under
    [activeNPC], so at most one controller, registered or not, has
    [isActive] true; [setActiveNPC] has deactivated the previously active
    one, and passed [null] it leaves none active. *)
Theorem C9_one_active_unless_replaced (h : gmap nat Controller)
    (ops : list ManagerOp) :
  (∀ l, ¬ active h l) →
  neverReplacesActive (NPCManager.empty, h) ops = true →
  let s := managerRun (NPCManager.empty, h) ops in
  atMostOneActive s
  ∧ (∀ l l', active (snd s) l → active (snd s) l' → l = l')
  ∧ (∀ l, active (snd s) l →
          ∃ i, NPCManager.activeNPC (fst s) = Some i
               ∧ NPCManager.npcs (fst s) !! i = Some l)
  ∧ (∀ l, ¬ active (snd (managerStep s (SetActiveNPC None))) l).
Proof.
  intros Hidle Hops. simpl.
  assert (activeIsCurrent (managerRun (NPCManager.empty, h) ops)) as Hinv.
  { apply managerRun_activeIsCurrent; [| exact Hops].
    intros l Hl. destruct (Hidle l Hl). }
  split; [| split; [| split]].
  - intros l l' _ _. by apply activeIsCurrent_unique.
  - by apply activeIsCurrent_unique.
  - intros l Hl. destruct (Hinv l Hl) as (i & ? & _ & ?). eauto.
  - intros l Hl.
    pose proof (setActiveNPC_activeIsCurrent None _ Hinv) as Hinv'.
    destruct (Hinv' l Hl) as (i & Hi & _ & Hil).
    destruct (setActiveNPC_null_current
                (managerRun (NPCManager.empty, h) ops))
      as [Hnone | (a & Ha & Hna)]; simpl in *; congruence.
Qed.

Lemma C9_one_active_unless_replaced_witness :
  let ops := [RegisterNPC (js "minjun") 0; RegisterNPC (js "npc1") 1;
              SetActiveNPC (Some (js "minjun"));
              RegisterNPC (js "npc1") 0;
              RegisterNPC (js "minjun") 0;
              RegisterNPC (js "constructor") 1;
              SetActiveNPC (Some (js "npc1"))] in
  let s := managerRun (NPCManager.empty, twoControllers) ops in
  neverReplacesActive (NPCManager.empty, twoControllers) ops = true
  ∧ active (snd s) 0
  ∧ atMostOneActive s
  ∧ (∀ l l', active (snd s) l → active (snd s) l' → l = l')
  ∧ (∀ l, active (snd s) l →
          ∃ i, NPCManager.activeNPC (fst s) = Some i
               ∧ NPCManager.npcs (fst s) !! i = Some l)
  ∧ (∀ l, ¬ active (snd (managerStep s (SetActiveNPC None))) l).
Proof.
  intros ops s.
  split; [vm_compute; reflexivity |].
  split; [eexists; split; [vm_compute; reflexivity | reflexivity] |].
  apply (C9_one_active_unless_replaced twoControllers ops).
  - assert (map_Forall (fun _ c => isActive c = false) twoControllers) as H.
    { apply (bool_decide_unpack _). vm_compute. reflexivity. }
    intros l (c & Hc & Ha). specialize (H l c Hc). simpl in H. congruence.
  - vm_compute. reflexivity.
Defined.

(** C9, as stated, fails: an id registered a second time leaves the
    controller it named active and out of the manager's reach. Min-jun's
    controller is activated, the id is registered again for a second
    controller, the first one is registered under another id, and
    [setActiveNPC('minjun')] then activates the second: two registered
    controllers have [isActive] true. *)
Lemma C9_counterexample :
  let s := managerRun (NPCManager.empty, twoControllers)
             [RegisterNPC (js "minjun") 0;
              SetActiveNPC (Some (js "minjun"));
              RegisterNPC (js "minjun") 1;
              RegisterNPC (js "yuna") 0;
              SetActiveNPC (Some (js "minjun"))] in
  registered (fst s) 0 ∧ registered (fst s) 1
  ∧ active (snd s) 0 ∧ active (snd s) 1
  ∧ ¬ atMostOneActive s.
Proof.
  set (s := managerRun _ _).
  assert (registered (fst s) 0) as R0.
  { exists (js "yuna"). vm_compute. reflexivity. }
  assert (registered (fst s) 1) as R1.
  { exists (js "minjun"). vm_compute. reflexivity. }
  assert (active (snd s) 0) as A0.
  { eexists. split; [vm_compute; reflexivity | reflexivity]. }
  assert (active (snd s) 1) as A1.
  { eexists. split; [vm_compute; reflexivity | reflexivity]. }
  repeat split; try assumption.
  intros H. specialize (H 0%nat 1%nat R0 R1 A0 A1). discriminate H.
Qed.

(** * Further properties *)

(** ** The rules for [keeps] and [returns] *)

Section KeepsRules.
Variable P : World -> Prop.

Lemma keeps_ret {A} (a : A) : keeps P (ret a).
Proof. intros w H. exact H. Qed.

Lemma keeps_throw {A} (e : exn) : keeps P (throw (A := A) e).
Proof. intros w H. exact H. Qed.

Lemma keeps_gets {A} (f : World → A) : keeps P (gets f).
Proof. intros w H. exact H. Qed.

Lemma keeps_liftO {A} (o : outcome A) : keeps P (liftO o).
Proof. intros w H. exact H. Qed.

Lemma keeps_modify (f : World → World) :
  (∀ w, P w → P (f w)) → keeps P (modify f).
Proof. intros Hf w H. by apply Hf. Qed.

Lemma keeps_bind {A B} (c : M World A) (k : A → M World B) :
  keeps P c → (∀ a, keeps P (k a)) → keeps P (bind c k).
Proof.
  intros Hc Hk w H. unfold bind. specialize (Hc w H).
  destruct (c w) as [[a | e] w1]; simpl in *; [| exact Hc].
  by apply Hk.
Qed.

Lemma keeps_tryCatch {A} (c : M World A) (h : exn → M World A) :
  keeps P c → (∀ e, keeps P (h e)) → keeps P (tryCatch c h).
Proof.
  intros Hc Hh w H. unfold tryCatch. specialize (Hc w H).
  destruct (c w) as [[a | e] w1]; simpl in *; [exact Hc |].
  by apply Hh.
Qed.

Lemma keeps_forEach {A} (l : list A) (f : A → M World unit) :
  (∀ a, keeps P (f a)) → keeps P (forEach l f).
Proof.
  intros Hf. induction l as [| a l IH]; simpl.
  - apply keeps_ret.
  - apply keeps_bind; [apply Hf | intros _; exact IH].
Qed.

Lemma keeps_when (b : bool) (c : M World unit) :
  keeps P c → keeps P (when b c).
Proof. destruct b; [auto | intros _; apply keeps_ret]. Qed.

End KeepsRules.

Lemma returns_ret {S A} (a : A) : returns (ret (S := S) a).
Proof. intros s. by exists a. Qed.

Lemma returns_gets {S A} (f : S → A) : returns (gets f).
Proof. intros s. by eexists. Qed.

Lemma returns_modify {S} (f : S → S) : returns (modify f).
Proof. intros s. by eexists. Qed.

Lemma returns_bind {S A B} (c : M S A) (k : A → M S B) :
  returns c → (∀ a, returns (k a)) → returns (bind c k).
Proof.
  intros Hc Hk s. unfold bind. destruct (Hc s) as [a Ha].
  destruct (c s) as [o s1]. simpl in Ha. subst o. apply Hk.
Qed.

Lemma returns_tryCatch {S A} (c : M S A) (h : exn → M S A) :
  (∀ e, returns (h e)) → returns (tryCatch c h).
Proof.
  intros Hh s. unfold tryCatch. destruct (c s) as [[a | e] s1].
  - by exists a.
  - apply Hh.
Qed.

Lemma returns_when {S} (b : bool) (c : M S unit) :
  returns c → returns (when b c).
Proof. destruct b; [auto | intros _; apply returns_ret]. Qed.

Ltac returns_step :=
  first
    [ apply returns_ret | apply returns_gets | apply returns_modify
    | apply returns_when
    | apply returns_bind; [| intros ?]
    | apply returns_tryCatch; intros ?
    | match goal with
      | |- returns (match ?x with _ => _ end) => destruct x
      end ].

Lemma returns_addMessageToUI (type : Kind) (content : value) :
  returns (Common.addMessageToUI type content).
Proof. unfold Common.addMessageToUI. repeat returns_step. Qed.

Lemma returns_removeElement (msgEl : option nat) :
  returns (Common.removeElement msgEl).
Proof. unfold Common.removeElement. repeat returns_step. Qed.

Lemma returns_speak (toLowerCase : jsstring → jsstring) (t : value) :
  returns (AIChat.speak toLowerCase t).
Proof. unfold AIChat.speak. repeat returns_step. Qed.

(** ** The keyword patterns *)

Section Patterns.
Import Regex.

(** [.*] matches any run of code units without a line terminator. *)
Lemma denote_DotStar (prev : option N) (s : jsstring) (q : position) :
  denote DotStar (prev, s) q ↔
  ∃ mid post, s = mid ++ post
              ∧ forallb (fun c => negb (isLineTerminator c)) mid = true
              ∧ q = (before prev mid, post).
Proof.
  split.
  - revert prev. induction s as [| c s IH]; intros prev H.
    + inversion H; subst. exists [], []. auto.
    + inversion H as [| | | | | | | ? ? ? ? Hc Hd]; subst.
      * exists [], (c :: s). auto.
      * destruct (IH _ Hd) as (mid & post & -> & Hm & ->).
        exists (c :: mid), post. split; [reflexivity |]. split.
        -- simpl. rewrite Hc. exact Hm.
        -- by rewrite before_cons.
  - intros (mid & post & -> & Hm & ->). revert prev Hm.
    induction mid as [| c mid IH]; intros prev Hm; simpl.
    + constructor.
    + simpl in Hm. apply andb_true_iff in Hm as [Hc Hm].
      rewrite before_cons. apply denote_any.
      * by apply negb_true_iff.
      * by apply IH.
Qed.

Lemma before_app (prev : option N) (a b : jsstring) :
  before prev (a ++ b) = before (before prev a) b.
Proof.
  revert prev. induction a as [| c a IH]; intros prev; [reflexivity |].
  simpl. rewrite !before_cons. apply IH.
Qed.

Lemma denote_keywords (ws : list jsstring) (prev : option N) (s : jsstring)
    (q : position) :
  ws ≠ [] →
  denote (keywords ws) (prev, s) q ↔
  ∃ w post, s = w ++ post ∧ w ∈ ws
            ∧ atBoundary prev s = true
            ∧ atBoundary (before prev w) post = true
            ∧ q = (before prev w, post).
Proof.
  intros Hne. unfold keywords. split.
  - intros Hd.
    inversion Hd as [| | | | ? ? ? q1 ? Hb Hd' | | |]; subst.
    inversion Hb; subst.
    inversion Hd' as [| | | | ? ? ? q2 ? Ha Hb' | | |]; subst.
    apply (denote_alt ws _ _ Hne) in Ha as (w & Hin & Hw).
    apply denote_Lit in Hw as (post & -> & ->).
    inversion Hb'; subst. exists w, post. auto.
  - intros (w & post & -> & Hin & Hb1 & Hb2 & ->).
    eapply denote_cat; [by constructor |].
    eapply denote_cat; [| by constructor].
    apply (denote_alt ws _ _ Hne). exists w. split; [exact Hin |].
    apply denote_Lit. eauto.
Qed.

End Patterns.

Section PatternTheorems.
Import Regex.

(** X1. A keyword pattern [\b(w1|w2|...)\b] matches a message exactly
    when the message holds one of the words with a word boundary on each
    side: on each side, exactly one of the two neighbouring code units is
    a letter, a digit or an underscore. *)
Theorem X1_keyword_between_boundaries (s : jsstring) (ws : list jsstring) :
  ws ≠ [] →
  matches s (keywords ws) = true ↔
  ∃ pre w post,
    s = pre ++ w ++ post ∧ w ∈ ws
    ∧ atBoundary (last pre) (w ++ post) = true
    ∧ atBoundary (before (last pre) w) post = true.
Proof. apply matches_keywords. Qed.

(** X2. The question pattern matches exactly when one of its words stands
    between word boundaries and a question mark follows it on the same
    line: no line terminator lies between the word and the mark. *)
Theorem X2_question_needs_mark_on_same_line (s : jsstring) :
  matches s Pattern.questionRe = true ↔
  ∃ pre w mid post,
    s = pre ++ w ++ mid ++ js "?" ++ post
    ∧ w ∈ map js ["what"; "how"; "why"; "when"; "where"; "who"; "can you";
                  "do you"; "is it"]%string
    ∧ atBoundary (last pre) (w ++ mid ++ js "?" ++ post) = true
    ∧ atBoundary (before (last pre) w) (mid ++ js "?" ++ post) = true
    ∧ forallb (fun c => negb (isLineTerminator c)) mid = true.
Proof.
  rewrite matches_denote. unfold Pattern.questionRe. split.
  - intros (pre & rest & q & -> & Hd).
    inversion Hd as [| | | | ? ? ? [p1 s1] ? Hk Hrest | | |]; subst.
    apply denote_keywords in Hk as (w & post & -> & Hin & Hb1 & Hb2 & [= -> ->]);
      [| discriminate].
    inversion Hrest as [| | | | ? ? ? [p2 s2] ? Hstar Hq | | |]; subst.
    apply denote_DotStar in Hstar as (mid & post' & -> & Hm & [= -> ->]).
    apply denote_Lit in Hq as (post'' & -> & _).
    exists pre, w, mid, post''. auto.
  - intros (pre & w & mid & post & -> & Hin & Hb1 & Hb2 & Hm).
    exists pre, (w ++ mid ++ js "?" ++ post),
      (before (before (before (last pre) w) mid) (js "?"), post).
    split; [reflexivity |].
    eapply denote_cat.
    + apply denote_keywords; [discriminate |].
      exists w, (mid ++ js "?" ++ post). auto.
    + eapply denote_cat.
      * apply denote_DotStar. exists mid, (js "?" ++ post). auto.
      * apply denote_Lit. exists post. auto.
Qed.

(** X3. The Korean greeting is a keyword of the greeting pattern, but
    its syllables are not word characters: it counts as a greeting only
    when it is glued between two word characters, and never when it
    stands alone or between spaces. Apart from that case a greeting is
    one of the four English words between word boundaries. *)
Theorem X3_korean_greeting_only_when_glued (s : jsstring) :
  matches s Pattern.greetingRe = true ↔
  matches s (keywords (map js ["hi"; "hello"; "hey"; "greetings"]%string))
  = true
  ∨ ∃ pre c d post,
      s = pre ++ [c] ++ js "안녕" ++ [d] ++ post
      ∧ isWordChar c = true ∧ isWordChar d = true.
Proof.
  unfold Pattern.greetingRe.
  rewrite !matches_keywords by discriminate. split.
  - intros (pre & w & post & -> & Hin & Hb1 & Hb2).
    change (map js ["hi"; "hello"; "hey"; "greetings"; "안녕"]%string)
      with (map js ["hi"; "hello"; "hey"; "greetings"]%string ++ [js "안녕"])
      in Hin.
    apply elem_of_app in Hin as [Hin | Hin].
    + left. exists pre, w, post. auto.
    + right. apply list_elem_of_singleton in Hin. subst w.
      destruct (last pre) as [c |] eqn:Hc; [| discriminate Hb1].
      apply last_Some in Hc as [pre' ->].
      destruct post as [| d post]; [discriminate Hb2 |].
      exists pre', c, d, post. split.
      * by rewrite <- app_assoc.
      * unfold atBoundary in Hb1, Hb2. simpl in Hb1, Hb2.
        rewrite xorb_false_r in Hb1. auto.
  - intros [(pre & w & post & -> & Hin & Hb1 & Hb2)
           | (pre & c & d & post & -> & Hc & Hd)].
    + exists pre, w, post. split; [reflexivity |]. split; [| auto].
      change (map js ["hi"; "hello"; "hey"; "greetings"; "안녕"]%string)
        with (map js ["hi"; "hello"; "hey"; "greetings"]%string ++ [js "안녕"]).
      apply elem_of_app. auto.
    + exists (pre ++ [c]), (js "안녕"), (d :: post).
      split; [by rewrite <- app_assoc |].
      split; [apply (bool_decide_unpack _); vm_compute; reflexivity |].
      rewrite last_snoc. unfold atBoundary. simpl.
      rewrite Hc, Hd. auto.
Qed.

End PatternTheorems.

Lemma X1_keyword_between_boundaries_witness :
  Regex.matches (js "oh hi there")
    (Regex.keywords (map js ["hi"; "hello"]%string)) = true ↔
  ∃ pre w post,
    js "oh hi there" = pre ++ w ++ post ∧ w ∈ map js ["hi"; "hello"]%string
    ∧ Regex.atBoundary (last pre) (w ++ post) = true
    ∧ Regex.atBoundary (Regex.before (last pre) w) post = true.
Proof.
  apply (X1_keyword_between_boundaries (js "oh hi there")
           (map js ["hi"; "hello"]%string)).
  discriminate.
Defined.

(** ** A turn of the conversation *)

(** One step of a proof of [keeps]; a [modify] that leaves the property
    as it is, up to computation, is closed on the spot. *)
Ltac keeps_step :=
  first
    [ apply keeps_ret | apply keeps_throw | apply keeps_gets
    | apply keeps_liftO
    | apply keeps_modify; let w := fresh "w" in let H := fresh "H" in
                          intros w H; exact H
    | apply keeps_when
    | apply keeps_bind; [| intros ?]
    | apply keeps_tryCatch; [| intros ?]
    | apply keeps_forEach; intros ?
    | match goal with
      | |- keeps _ (match ?x with _ => _ end) => destruct x
      end ].

Section ChatOnly.
(** Properties of the fields of the instance alone. *)
Variable Q : Chat -> Prop.

Lemma chat_keeps_onManager (c : M NPCManager.St unit) :
  keeps (fun w => Q (chat w)) (onManager c).
Proof.
  intros w H. unfold onManager.
  destruct (npcManager w) as [m |]; [| exact H].
  destruct (c (m, controllers w)) as [o [m' h']]. exact H.
Qed.

Lemma chat_keeps_addMessageToUI (type : Kind) (content : value) :
  keeps (fun w => Q (chat w)) (Common.addMessageToUI type content).
Proof. unfold Common.addMessageToUI. repeat keeps_step. Qed.

Lemma chat_keeps_removeElement (msgEl : option nat) :
  keeps (fun w => Q (chat w)) (Common.removeElement msgEl).
Proof. unfold Common.removeElement. repeat keeps_step. Qed.

Lemma chat_keeps_speak (toLowerCase : jsstring → jsstring) (t : value) :
  keeps (fun w => Q (chat w)) (AIChat.speak toLowerCase t).
Proof. unfold AIChat.speak. repeat keeps_step. Qed.

End ChatOnly.

Lemma chat_addMessageToUI (type : Kind) (content : value) (w : World) :
  chat (snd (Common.addMessageToUI type content w)) = chat w.
Proof. by apply (chat_keeps_addMessageToUI (fun c => c = chat w)). Qed.

Lemma chat_removeElement (msgEl : option nat) (w : World) :
  chat (snd (Common.removeElement msgEl w)) = chat w.
Proof. by apply (chat_keeps_removeElement (fun c => c = chat w)). Qed.

Lemma chat_speak (toLowerCase : jsstring → jsstring) (t : value) (w : World) :
  chat (snd (AIChat.speak toLowerCase t w)) = chat w.
Proof. by apply (chat_keeps_speak (fun c => c = chat w)). Qed.

Lemma chat_onManager (c : M NPCManager.St unit) (w : World) :
  chat (snd (onManager c w)) = chat w.
Proof. by apply (chat_keeps_onManager (fun c => c = chat w)). Qed.

Lemma pushHistory_run (i : jsstring) (e : Entry) (w : World)
    (l : list Entry) :
  conversationHistory (chat w) !! i = Some l →
  pushHistory i e w
  = (Ret tt, withChat (setHistory (<[i := l ++ [e]]>
                                     (conversationHistory (chat w)))) w).
Proof.
  intros H. unfold pushHistory, bind, gets, get. rewrite H. reflexivity.
Qed.


Lemma sendMessage_enter_busy (w : World) :
  isGenerating (chat w) = true →
  Common.sendMessage_enter w = (Ret None, w).
Proof.
  intros H. unfold Common.sendMessage_enter, bind, gets, ret.
  rewrite H. destruct (currentNPC (chat w)); reflexivity.
Qed.

Lemma sendMessage_begin_busy (w w1 : World) (p : jsstring * option nat) :
  AIChat.sendMessage_begin w = (Ret (Some p), w1) →
  isGenerating (chat w1) = true.
Proof.
  unfold AIChat.sendMessage_begin. unfold bind at 1.
  destruct (Common.sendMessage_enter w) as [[[m |] | e] w2];
    [| discriminate | discriminate].
  unfold AIChat.generateResponse_enter. unfold bind at 1. unfold bind at 1.
  unfold modify at 1.
  pose proof (chat_addMessageToUI loadingMsg (Str (js "Thinking"))
                (withChat (setIsGenerating true) w2)) as Hc.
  destruct (Common.addMessageToUI _ _ _) as [[o | e] w3]; [| discriminate].
  intros [= _ <-]. simpl in Hc. rewrite Hc. reflexivity.
Qed.

(** The rest of [generateResponse] always returns: what its [try] throws
    is caught, and the handler does not throw. *)
Lemma returns_resume (toLowerCase : jsstring → jsstring) (r r' : random)
    (loadingMsgEl : option nat) (msg : jsstring) :
  returns (AIChat.generateResponse_resume toLowerCase r r' loadingMsgEl msg).
Proof.
  unfold AIChat.generateResponse_resume.
  apply returns_bind; [| intros _; apply returns_modify].
  apply returns_tryCatch. intros e.
  apply returns_bind; [apply returns_removeElement |]. intros _.
  apply returns_bind; [apply returns_addMessageToUI |]. intros _.
  apply returns_speak.
Qed.

Section Turn.
Variable toLowerCase : jsstring -> jsstring.

(** X4. When a conversation is active, no response is being generated
    and the input holds more than white space, [sendMessage] takes the
    trimmed text as the message: it empties the input box, shows the
    message and the loading notice, appends the message as a [user] entry
    to the history of the current NPC and to no other, and sets
    [isGenerating]. *)
Theorem X4_sendMessage_takes_trimmed_input (w : World) (npc : NPC)
    (v : jsstring) (old : list Entry) :
  currentNPC (chat w) = Some npc →
  isGenerating (chat w) = false →
  chatInput (page w) = Some v →
  trim v ≠ [] →
  conversationHistory (chat w) !! id npc = Some old →
  ∃ w1,
    AIChat.sendMessage_begin w
    = (Ret (Some (trim v,
                  option_map (fun _ => S (nextElement (page w)))
                             (chatMessages (page w)))), w1)
    ∧ conversationHistory (chat w1)
      = <[id npc := old ++ [{| role := user; content := Str (trim v) |}]]>
          (conversationHistory (chat w))
    ∧ currentNPC (chat w1) = Some npc
    ∧ isGenerating (chat w1) = true
    ∧ chatInput (page w1) = Some []
    ∧ chatMessages (page w1)
      = option_map
          (fun els =>
             els ++ [{| el := nextElement (page w); kind := userMsg;
                        textContent := Str (trim v) |};
                     {| el := S (nextElement (page w)); kind := loadingMsg;
                        textContent := Str (js "Thinking") |}])
          (chatMessages (page w)).
Proof.
  destruct w as [[ld en gen cur hist] [ui msgs input label next]
                 synth later mgr ctrls].
  simpl. intros -> -> -> Hv Hold.
  unfold AIChat.sendMessage_begin, AIChat.generateResponse_enter,
    Common.sendMessage_enter, Common.addMessageToUI, currentId, pushHistory,
    bind, gets, modify, ret, throw, get.
  simpl.
  destruct (trim v) as [| c t] eqn:Ht; [done |]. simpl.
  destruct msgs as [els |]; simpl; rewrite Hold; simpl;
    (eexists; split; [reflexivity |]; simpl; repeat split; try reflexivity).
  by rewrite <- app_assoc.
Qed.

(** X5. While a response is being generated, [sendMessage] does nothing:
    after a [sendMessage] that took a message, another one, before the
    response has arrived, returns at once and leaves the state, the
    input text included, as it is. *)
Theorem X5_no_second_message_while_generating (w w1 : World)
    (p : jsstring * option nat) (r r' : random) :
  AIChat.sendMessage_begin w = (Ret (Some p), w1) →
  AIChat.sendMessage_begin w1 = (Ret None, w1)
  ∧ AIChat.sendMessage toLowerCase r r' w1 = (Ret tt, w1).
Proof.
  intros H. apply sendMessage_begin_busy in H.
  apply sendMessage_enter_busy in H.
  unfold AIChat.sendMessage, AIChat.sendMessage_begin, bind. rewrite H.
  split; reflexivity.
Qed.

(** X6. [generateResponse] never leaves the chat locked: whatever the
    state when the delay is over (no conversation, an unknown id, no
    history, a manager that throws), the rest of [generateResponse]
    returns normally and [isGenerating] is false afterwards; the same
    holds for the WebLLM version, whatever the engine answers. *)
Theorem X6_generateResponse_always_unlocks (w : World) (r r' : random)
    (loadingMsgEl : option nat) (msg : jsstring) :
  (∃ final,
     AIChat.generateResponse_resume toLowerCase r r' loadingMsgEl msg w
     = (Ret tt, final)
     ∧ isGenerating (chat final) = false)
  ∧ (∃ final,
       WebLLM.generateResponse toLowerCase r r' msg w = (Ret tt, final)
       ∧ isGenerating (chat final) = false).
Proof.
  split.
  - unfold AIChat.generateResponse_resume. unfold bind at 1.
    match goal with
    | |- context [tryCatch ?c ?h w] =>
        assert (returns (tryCatch c h)) as Hr
    end.
    { apply returns_tryCatch. intros e.
      apply returns_bind; [apply returns_removeElement |]. intros _.
      apply returns_bind; [apply returns_addMessageToUI |]. intros _.
      apply returns_speak. }
    destruct (Hr w) as [[] Ha].
    destruct (tryCatch _ _ w) as [o w1]. simpl in Ha. subst o.
    eexists. split; reflexivity.
  - unfold WebLLM.generateResponse. unfold bind at 1. unfold modify at 1.
    unfold bind at 1.
    destruct (returns_addMessageToUI loadingMsg (Str (js "Thinking"))
                (withChat (setIsGenerating true) w)) as [el Hel].
    destruct (Common.addMessageToUI _ _ _) as [o w1]. simpl in Hel. subst o.
    unfold bind at 1.
    match goal with
    | |- context [tryCatch ?c ?h w1] =>
        assert (returns (tryCatch c h)) as Hr
    end.
    { apply returns_tryCatch. intros e.
      apply returns_bind; [apply returns_removeElement |]. intros _.
      apply returns_bind; [apply returns_addMessageToUI |]. intros _.
      apply returns_ret. }
    destruct (Hr w1) as [[] Ha].
    destruct (tryCatch _ _ w1) as [o w2]. simpl in Ha. subst o.
    eexists. split; reflexivity.
Qed.

End Turn.

Lemma X4_sendMessage_takes_trimmed_input_witness :
  ∃ w1,
    AIChat.sendMessage_begin (typed (js " hello ") withMinjun)
    = (Ret (Some (js "hello", Some 2%nat)), w1)
    ∧ conversationHistory (chat w1)
      = {[ js "minjun" := [{| role := user; content := Str (js "hello") |}] ]}
    ∧ isGenerating (chat w1) = true
    ∧ chatInput (page w1) = Some [].
Proof.
  destruct (X4_sendMessage_takes_trimmed_input
              (typed (js " hello ") withMinjun)
              {| id := js "minjun"; config := Some minjunConfig |}
              (js " hello ") [])
    as (w1 & Hrun & Hhist & _ & Hgen & Hin & _).
  - reflexivity.
  - reflexivity.
  - reflexivity.
  - vm_compute. discriminate.
  - vm_compute. reflexivity.
  - exists w1. split; [exact Hrun |]. split; [| by split].
    rewrite Hhist. vm_compute. reflexivity.
Defined.

Lemma X5_no_second_message_while_generating_witness :
  let w1 := snd (AIChat.sendMessage_begin (typed (js "hello") withMinjun)) in
  AIChat.sendMessage_begin w1 = (Ret None, w1)
  ∧ AIChat.sendMessage asciiLower rnd0 rnd0 w1 = (Ret tt, w1).
Proof.
  apply (X5_no_second_message_while_generating asciiLower
           (typed (js "hello") withMinjun)
           (snd (AIChat.sendMessage_begin (typed (js "hello") withMinjun)))
           (js "hello", Some 2%nat) rnd0 rnd0).
  vm_compute. reflexivity.
Defined.

(** The rules of [hoare], and what the methods do to the [view]. *)

Lemma hoare_bind {A B} (P : World → Prop) (c : M World A)
    (Q : A → World → Prop) (k : A → M World B) (R : B → World → Prop) :
  hoare P c Q → (∀ a, hoare (Q a) (k a) R) → hoare P (bind c k) R.
Proof.
  intros Hc Hk w Hw. unfold bind. destruct (Hc w Hw) as (a & Ha & HQ).
  destruct (c w) as [o w1]. simpl in Ha, HQ. subst o. by apply Hk.
Qed.

Lemma hoare_ret {A} (P : World → Prop) (a : A) :
  hoare P (ret a) (fun b w => b = a ∧ P w).
Proof. intros w Hw. exists a. auto. Qed.

Lemma hoare_gets {A} (P : World → Prop) (f : World → A) :
  hoare P (gets f) (fun a w => a = f w ∧ P w).
Proof. intros w Hw. exists (f w). auto. Qed.

Lemma hoare_read {A} (P : World → Prop) (f : World → A) :
  hoare P (gets f) (fun _ => P).
Proof. intros w Hw. exists (f w). auto. Qed.

Lemma hoare_modify (P : World → Prop) (f : World → World)
    (Q : World → Prop) :
  (∀ w, P w → Q (f w)) → hoare P (modify f) (fun _ => Q).
Proof. intros Hf w Hw. exists tt. split; [reflexivity |]. by apply Hf. Qed.

Lemma hoare_pre {A} (P P' : World → Prop) (c : M World A)
    (Q : A → World → Prop) :
  (∀ w, P' w → P w) → hoare P c Q → hoare P' c Q.
Proof. intros HP Hc w Hw. apply Hc. by apply HP. Qed.

Lemma hoare_post {A} (P : World → Prop) (c : M World A)
    (Q Q' : A → World → Prop) :
  (∀ a w, Q a w → Q' a w) → hoare P c Q → hoare P c Q'.
Proof.
  intros HQ Hc w Hw. destruct (Hc w Hw) as (a & Ha & Hq). eauto.
Qed.

Lemma hoare_assume {A} (φ : Prop) (P : World → Prop) (c : M World A)
    (Q : A → World → Prop) :
  (φ → hoare P c Q) → hoare (fun w => φ ∧ P w) c Q.
Proof. intros H w [Hφ Hw]. by apply H. Qed.

(** A [try] whose body succeeds does what the body does. *)
Lemma hoare_tryCatch {A} (P : World → Prop) (c : M World A)
    (h : exn → M World A) (Q : A → World → Prop) :
  hoare P c Q → hoare P (tryCatch c h) Q.
Proof.
  intros Hc w Hw. unfold tryCatch. destruct (Hc w Hw) as (a & Ha & HQ).
  destruct (c w) as [o w1]. simpl in Ha, HQ. subst o. eauto.
Qed.

Lemma bind_currentId {B} (k : jsstring → M World B) (w : World) (npc : NPC) :
  currentNPC (chat w) = Some npc → bind currentId k w = k (id npc) w.
Proof. intros H. unfold currentId, bind, gets. by rewrite H. Qed.

Section ViewOf.
Variables (C : Chat) (msgs : option (list Element)) (n : nat)
          (S : option Synth) (L : list value).

Lemma view_removeElement (msgEl : option nat) :
  hoare (fun w => view w = (C, msgs, n, S, L))
        (Common.removeElement msgEl)
        (fun _ w =>
           view w = (C, option_map (withoutElement msgEl) msgs, n, S, L)).
Proof.
  intros [c [ui m input label next] synth later mgr ctrls] [= -> -> -> -> ->].
  exists tt. destruct msgEl as [k |]; simpl; split; try reflexivity.
  destruct msgs; reflexivity.
Qed.

Lemma view_addMessageToUI (type : Kind) (content : value) :
  hoare (fun w => view w = (C, msgs, n, S, L))
        (Common.addMessageToUI type content)
        (fun a w =>
           a = option_map (fun _ => n) msgs
           ∧ view w = (C, appended type content n msgs, nextAfter n msgs, S, L)).
Proof.
  intros [c [ui m input label next] synth later mgr ctrls] [= -> -> -> -> ->].
  destruct msgs as [els |]; eexists; split; [reflexivity | split; reflexivity | reflexivity | split; reflexivity].
Qed.

Lemma view_chat (w : World) : view w = (C, msgs, n, S, L) → chat w = C.
Proof. by intros [= -> _ _ _ _]. Qed.

Lemma view_currentId (npc : NPC) :
  currentNPC C = Some npc →
  hoare (fun w => view w = (C, msgs, n, S, L)) currentId
        (fun a w => a = id npc ∧ view w = (C, msgs, n, S, L)).
Proof.
  intros Hnpc w Hw. unfold currentId, bind, gets.
  rewrite (view_chat w Hw), Hnpc. simpl. eexists.
  split; [reflexivity |]. split; [reflexivity | exact Hw].
Qed.

Lemma view_pushHistory (i : jsstring) (e : Entry) (l : list Entry) :
  conversationHistory C !! i = Some l →
  hoare (fun w => view w = (C, msgs, n, S, L)) (pushHistory i e)
        (fun _ w =>
           view w = (setHistory (<[i := l ++ [e]]> (conversationHistory C)) C,
                     msgs, n, S, L)).
Proof.
  intros Hl w Hw.
  rewrite (pushHistory_run i e w l) by (rewrite (view_chat w Hw); exact Hl).
  exists tt. split; [reflexivity |]. revert Hw. unfold view. simpl.
  by intros [= -> -> -> -> ->].
Qed.

Lemma view_onManager (c : M NPCManager.St unit) (w : World) :
  view (snd (onManager c w)) = view w.
Proof.
  unfold onManager. destruct (npcManager w) as [m |]; [| reflexivity].
  destruct (c (m, controllers w)) as [o [m' h']]. reflexivity.
Qed.


End ViewOf.

Section TurnEffects.
Variable toLowerCase : jsstring -> jsstring.

Lemma view_speak (C : Chat) (msgs : option (list Element)) (n : nat)
    (S : option Synth) (L : list value) (t : value) :
  hoare (fun w => view w = (C, msgs, n, S, L))
        (AIChat.speak toLowerCase t)
        (fun _ w =>
           view w = (C, msgs, n, spoken toLowerCase (currentNPC C) t S,
                     postponed t S L)).
Proof.
  intros [c [ui m input label next] synth later mgr ctrls] [= -> -> -> -> ->].
  exists tt. destruct S as [[[| v vs] q] |]; split; reflexivity.
Qed.


End TurnEffects.

(** [sendMessage] up to the delay, on the view. *)
Lemma sendMessage_begin_view (w : World) (npc : NPC) (v : jsstring)
    (old : list Entry) :
  currentNPC (chat w) = Some npc →
  isGenerating (chat w) = false →
  chatInput (page w) = Some v →
  trim v ≠ [] →
  conversationHistory (chat w) !! id npc = Some old →
  ∃ w1,
    AIChat.sendMessage_begin w
    = (Ret (Some (trim v,
                  option_map (fun _ => S (nextElement (page w)))
                             (chatMessages (page w)))), w1)
    ∧ view w1
      = (setIsGenerating true
           (setHistory
              (<[id npc := old ++ [{| role := user;
                                      content := Str (trim v) |}]]>
                 (conversationHistory (chat w))) (chat w)),
         appended loadingMsg (Str (js "Thinking")) (S (nextElement (page w)))
           (appended userMsg (Str (trim v)) (nextElement (page w))
              (chatMessages (page w))),
         nextAfter (nextAfter (nextElement (page w)) (chatMessages (page w)))
           (chatMessages (page w)),
         speechSynthesis w, speakLater w)
    ∧ chatInput (page w1) = Some [].
Proof.
  destruct w as [[ld en gen cur hist] [ui msgs input label next]
                 synth later mgr ctrls].
  simpl. intros -> -> -> Hv Hold.
  unfold AIChat.sendMessage_begin, AIChat.generateResponse_enter,
    Common.sendMessage_enter, Common.addMessageToUI, currentId, pushHistory,
    bind, gets, modify, ret, throw, get.
  simpl.
  destruct (trim v) as [| c t] eqn:Ht; [done |]. simpl.
  destruct msgs as [els |]; simpl; rewrite Hold; simpl;
    (eexists; split; [reflexivity |]; split; reflexivity).
Qed.


Section InputOnly.
(** The rest of [generateResponse] does not touch the input box. *)
Variable toLowerCase : jsstring -> jsstring.
Variable Q : option jsstring -> Prop.



End InputOnly.

Section WholeTurn.
Variable toLowerCase : jsstring -> jsstring.


End WholeTurn.


(** ** Opening and closing a conversation *)

Lemma hoare_gets_eq {A B} (P : World → Prop) (f : World → A) (x : A)
    (k : A → M World B) (R : B → World → Prop) :
  (∀ w, P w → f w = x) → hoare P (k x) R → hoare P (bind (gets f) k) R.
Proof.
  intros Hf Hk w Hw. rewrite bind_gets, (Hf w Hw). by apply Hk.
Qed.

Lemma hoare_liftO {A} (P : World → Prop) (a : A) :
  hoare P (liftO (Ret a)) (fun b w => b = a ∧ P w).
Proof. intros w Hw. exists a. auto. Qed.

Lemma replayed_cons (n : nat) (e : Entry) (entries : list Entry) :
  replayed n (e :: entries)
  = {| el := n;
       kind := match role e with user => userMsg | _ => npcMsg end;
       textContent := content e |} :: replayed (S n) entries.
Proof.
  unfold replayed. rewrite imap_cons. f_equal.
  - f_equal. lia.
  - apply imap_ext. intros k x _. simpl. f_equal. lia.
Qed.

Lemma length_replayed (n : nat) (entries : list Entry) :
  length (replayed n entries) = length entries.
Proof. unfold replayed. by rewrite length_imap. Qed.

(** The loop of [startConversation] over the history appends one element
    for each entry. *)
Lemma view_replay (C : Chat) (S : option Synth) (L : list value)
    (entries : list Entry) :
  ∀ (els : list Element) (n : nat),
    hoare (fun w => view w = (C, Some els, n, S, L))
          (forEach entries (fun msg =>
             bind (Common.addMessageToUI
                     (match role msg with user => userMsg | _ => npcMsg end)
                     (content msg)) (fun _ => ret tt)))
          (fun _ w =>
             view w = (C, Some (els ++ replayed n entries),
                       (n + length entries)%nat, S, L)).
Proof.
  induction entries as [| e entries IH]; intros els n.
  - intros w Hw. exists tt. split; [reflexivity |].
    simpl. rewrite app_nil_r, Nat.add_0_r. exact Hw.
  - simpl forEach.
    eapply hoare_bind.
    { eapply hoare_bind; [apply view_addMessageToUI |]. intros a.
      apply hoare_assume. intros _. apply hoare_modify with (f := fun w => w).
      intros w Hw. exact Hw. }
    intros []. eapply hoare_post; [| apply IH].
    intros [] w Hw. rewrite Hw, replayed_cons. simpl.
    rewrite <- app_assoc. simpl. do 4 f_equal. lia.
Qed.

(** [setActiveNPC] does not throw when neither the id it is given nor the
    id it holds names a member of [Object.prototype]. *)
Lemma setActiveNPC_returns (w : World) (i : jsstring) :
  managerReady w → inPrototype i = false →
  fst (onManager (NPCManager.setActiveNPC (Some i)) w) = Ret tt.
Proof.
  intros Hready Hi. unfold onManager.
  destruct (npcManager w) as [[npcs act] |] eqn:Hm; [| reflexivity].
  pose proof (fun p => Hready _ p Hm) as Hr. simpl in Hr. clear Hready Hm.
  unfold NPCManager.setActiveNPC, NPCManager.onEntry, NPCManager.getNPC,
    NPCManager.setActive, bind, gets, modify, ret, throw, get. simpl.
  assert (∀ A (x y : A), (if inPrototype i then x else y) = y) as Hif
    by (intros; by rewrite Hi).
  destruct act as [p |]; simpl.
  - pose proof (Hr p eq_refl) as Hready.
    destruct (truthy_str p); simpl;
      [destruct (npcs !! p); simpl; [| rewrite Hready; simpl] |];
      (destruct (truthy_str i); simpl; [| reflexivity]);
      (destruct (npcs !! i); simpl; [reflexivity |]);
      rewrite Hi; reflexivity.
  - destruct (truthy_str i); simpl; [| reflexivity].
    destruct (npcs !! i); simpl; [reflexivity |].
    rewrite Hi. reflexivity.
Qed.

Lemma getGreeting_returns (i : jsstring) (c : Config.t) :
  inPrototype i = false →
  ∃ g, AIChat.getGreeting i (Some c) = Ret (Str g).
Proof.
  intros Hi. unfold AIChat.getGreeting, get. rewrite Hi.
  destruct (AIChat.greetings !! i) as [g |]; [| eauto].
  destruct (truthy_str g); eauto.
Qed.

Lemma setHistory_id (C : Chat) (i : jsstring) (l : list Entry) :
  conversationHistory C !! i = Some l →
  setHistory (<[i := l]> (conversationHistory C)) C = C.
Proof. intros H. rewrite insert_id by exact H. by destruct C. Qed.

(** [startConversation] makes the history of an id that has none. *)
Lemma view_initHistory (C : Chat) (msgs : option (list Element)) (n : nat)
    (S : option Synth) (L : list value) (i : jsstring) :
  inPrototype i = false →
  hoare (fun w => view w = (C, msgs, n, S, L)) (initHistory i)
        (fun _ w =>
           view w
           = (setHistory (<[i := historyOf (conversationHistory C) i]>
                            (conversationHistory C)) C, msgs, n, S, L)).
Proof.
  intros Hi w Hw. unfold initHistory. rewrite bind_gets.
  pose proof (view_chat _ _ _ _ _ w Hw) as Hc. unfold get, historyOf.
  rewrite Hc, Hi.
  destruct (conversationHistory C !! i) as [l |] eqn:Hl; simpl.
  - exists tt. split; [reflexivity |]. by rewrite setHistory_id.
  - exists tt. split; [reflexivity |]. revert Hw. unfold view. simpl.
    by intros [= -> -> -> -> ->].
Qed.

Section Opening.
Variable toLowerCase : jsstring -> jsstring.

(** [startConversation] on the view; [g] is the greeting that
    [getGreeting] returns. *)
Lemma startConversation_view (w : World) (npcId : jsstring) (c : Config.t)
    (old : list Element) (g : jsstring) :
  inPrototype npcId = false →
  managerReady w →
  chatMessages (page w) = Some old →
  AIChat.getGreeting npcId (Some c) = Ret (Str g) →
  let entries := historyOf (conversationHistory (chat w)) npcId in
  let npc := {| id := npcId; config := Some c |} in
  let C' := setHistory (<[npcId := entries]> (conversationHistory (chat w)))
              (setCurrentNPC (Some npc) (chat w)) in
  hoare (fun w' => w' = w)
    (AIChat.startConversation toLowerCase npcId (Some c))
    (fun _ final => view final = (C',
        Some (match entries with
              | [] => [{| el := nextElement (page w); kind := npcMsg;
                          textContent := Str g |}]
              | _ => replayed (nextElement (page w)) entries
              end),
        match entries with
        | [] => S (nextElement (page w))
        | _ => (nextElement (page w) + length entries)%nat
        end,
        match entries with
        | [] => spoken toLowerCase (Some npc) (Str g) (speechSynthesis w)
        | _ => speechSynthesis w
        end,
        match entries with
        | [] => postponed (Str g) (speechSynthesis w) (speakLater w)
        | _ => speakLater w
        end)).
Proof.
  intros Hi Hready Hold Hg entries npc C'.
  unfold AIChat.startConversation.
  eapply hoare_bind.
  { apply hoare_modify with
      (Q := fun w' => managerReady w'
                      ∧ view w' = (setCurrentNPC (Some npc) (chat w),
                                   Some old, nextElement (page w),
                                   speechSynthesis w, speakLater w)).
    intros w' ->. split; [exact Hready |]. unfold view. simpl.
    by rewrite Hold. }
  intros [].
  apply hoare_bind with
    (Q := fun _ w'' =>
      managerReady w''
      ∧ view w'' = (C', Some old, nextElement (page w),
                    speechSynthesis w, speakLater w)).
  { intros w' [Hr Hw'].
    destruct (view_initHistory _ _ _ _ _ npcId Hi w' Hw') as ([] & Hf & Hv).
    exists tt. split; [exact Hf |].
    split; [| exact Hv].
    unfold initHistory. rewrite bind_gets.
    destruct (match get _ _ with Missing => true | _ => false end);
      exact Hr. }
  intros [].
  apply hoare_bind with
    (Q := fun _ w' => view w' = (C', Some old, nextElement (page w),
                                 speechSynthesis w, speakLater w)).
  { intros w' [Hr Hw']. exists tt.
    split; [by apply setActiveNPC_returns |].
    rewrite view_onManager. exact Hw'. }
  intros [].
  eapply hoare_bind.
  { apply hoare_modify with
      (Q := fun w' => view w' = (C', Some old, nextElement (page w),
                                 speechSynthesis w, speakLater w)).
    intros w' Hw'. exact Hw'. }
  intros [].
  eapply hoare_bind; [apply hoare_read |]. intros label.
  eapply hoare_bind.
  { destruct label as [lbl |]; [| apply hoare_ret].
    eapply hoare_post; [| apply hoare_modify with
      (Q := fun w' => view w' = (C', Some old, nextElement (page w),
                                 speechSynthesis w, speakLater w));
      intros w' Hw'; exact Hw'].
    intros [] w' Hw'. split; [reflexivity | exact Hw']. }
  intros u. apply hoare_assume. intros _.
  apply hoare_gets_eq with (x := Some old); [by intros w' [= _ -> _ _ _] |].
  eapply hoare_bind.
  { apply hoare_modify with
      (Q := fun w' => view w' = (C', Some [], nextElement (page w),
                                 speechSynthesis w, speakLater w)).
    intros w' Hw'. revert Hw'. unfold view. simpl.
    by intros [= -> _ -> -> ->]. }
  intros [].
  apply hoare_gets_eq with (x := conversationHistory C');
    [by intros w' [= -> _ _ _ _] |].
  assert (get (conversationHistory C') npcId = Own entries) as ->.
  { unfold get, C'. simpl. by rewrite lookup_insert_eq. }
  eapply hoare_bind; [apply view_replay |]. intros [].
  simpl app.
  destruct entries as [| e entries'] eqn:He.
  - simpl length. simpl Nat.eqb. cbv iota.
    rewrite Hg.
    eapply hoare_bind; [apply hoare_liftO |]. intros a.
    apply hoare_assume. intros ->.
    eapply hoare_bind; [apply view_addMessageToUI |]. intros a.
    apply hoare_assume. intros _.
    eapply hoare_post; [| apply view_speak].
    intros [] w' Hw'. rewrite Hw'. simpl. rewrite Nat.add_0_r.
    reflexivity.
  - simpl length. simpl Nat.eqb. cbv iota.
    eapply hoare_post; [| apply hoare_ret].
    intros [] w' [_ Hw']. exact Hw'.
Qed.

(** X8. [startConversation] shows the conversation so far, and greets
    only the first time. For an id that names no member of
    [Object.prototype], a configuration, a manager that holds no such name
    either and a page with the message list, it returns normally; the
    current NPC is the one given; the history of the id is what it was, or
    the empty history if there was none, and no other history changes; a
    history that is not empty replaces the message list, one element for
    each entry in order, and nothing is spoken; an empty one makes the
    greeting the only message, spoken and not recorded. *)
Theorem X8_startConversation_shows_history (w : World) (npcId : jsstring)
    (c : Config.t) (old : list Element) :
  inPrototype npcId = false →
  managerReady w →
  chatMessages (page w) = Some old →
  let entries := historyOf (conversationHistory (chat w)) npcId in
  let npc := {| id := npcId; config := Some c |} in
  ∃ final,
    AIChat.startConversation toLowerCase npcId (Some c) w = (Ret tt, final)
    ∧ currentNPC (chat final) = Some npc
    ∧ conversationHistory (chat final)
      = <[npcId := entries]> (conversationHistory (chat w))
    ∧ (entries ≠ [] →
         chatMessages (page final)
         = Some (replayed (nextElement (page w)) entries)
         ∧ speechSynthesis final = speechSynthesis w
         ∧ speakLater final = speakLater w)
    ∧ (entries = [] →
         ∃ g, AIChat.getGreeting npcId (Some c) = Ret (Str g)
              ∧ chatMessages (page final)
                = Some [{| el := nextElement (page w); kind := npcMsg;
                           textContent := Str g |}]
              ∧ speechSynthesis final
                = spoken toLowerCase (Some npc) (Str g) (speechSynthesis w)
              ∧ speakLater final
                = postponed (Str g) (speechSynthesis w) (speakLater w)).
Proof.
  intros Hi Hready Hold entries npc.
  destruct (getGreeting_returns npcId c Hi) as [g Hg].
  destruct (startConversation_view w npcId c old g Hi Hready Hold Hg w eq_refl)
    as ([] & Hfst & Hview).
  exists (snd (AIChat.startConversation toLowerCase npcId (Some c) w)).
  split.
  { destruct (AIChat.startConversation _ _ _ _) as [o f].
    simpl in Hfst. by subst o. }
  revert Hview. unfold view at 1. intros [= Hc Hm Hn HS HL].
  rewrite Hc. split; [reflexivity |]. split; [reflexivity |].
  fold entries in Hm, HS, HL.
  split.
  - intros Hne. destruct entries; [done |]. auto.
  - intros He. rewrite He in Hm, HS, HL. exists g. auto.
Qed.

End Opening.

Lemma X8_startConversation_shows_history_witness :
  ∃ final,
    AIChat.startConversation asciiLower (js "minjun") (Some minjunConfig)
      afterThreeTurns
    = (Ret tt, final)
    ∧ option_map (map textContent) (chatMessages (page final))
      = Some (map (fun s => Str (js s))
                ["one"; "two"; "three"; "four"; "five"; "six"; "seven"]%string)
    ∧ speechSynthesis final = speechSynthesis afterThreeTurns.
Proof.
  destruct (X8_startConversation_shows_history asciiLower afterThreeTurns
              (js "minjun") minjunConfig [])
    as (final & Hrun & _ & _ & Hshown & _).
  - reflexivity.
  - intros m i [= <-] Hact. discriminate Hact.
  - reflexivity.
  - exists final. split; [exact Hrun |].
    destruct Hshown as (-> & -> & _); [by vm_compute |].
    split; reflexivity.
Defined.

(** ** Invariants of the chat *)

Section ChatInvariant.
(** A property that the methods keep is kept by every operation of the
    chat, and so by every sequence of them. *)
Variable toLowerCase : jsstring -> jsstring.
Variable P : World -> Prop.
Hypothesis P_start :
  ∀ i c, keeps P (AIChat.startConversation toLowerCase i c).
Hypothesis P_end : keeps P AIChat.endConversation.
Hypothesis P_begin : keeps P AIChat.sendMessage_begin.
Hypothesis P_enter : keeps P AIChat.generateResponse_enter.
Hypothesis P_resume :
  ∀ r r' el msg, keeps P (AIChat.generateResponse_resume toLowerCase r r' el msg).
Hypothesis P_timer : keeps P (AIChat.speakTimer toLowerCase).

Lemma keeps_chatStep (op : ChatOp) (w : World) :
  P w → P (chatStep toLowerCase w op).
Proof.
  destruct op; simpl.
  - apply P_start.
  - apply P_end.
  - apply P_begin.
  - apply P_enter.
  - apply P_resume.
  - apply keeps_bind; [apply P_enter | intros ?; apply P_resume].
  - apply keeps_bind; [apply P_begin |].
    intros [[m e] |]; [apply P_resume | apply keeps_ret].
  - apply P_timer.
Qed.

Lemma keeps_chatRun (ops : list ChatOp) (w : World) :
  P w → P (chatRun toLowerCase w ops).
Proof.
  revert w. induction ops as [| op ops IH]; intros w H; simpl; [exact H |].
  apply IH. by apply keeps_chatStep.
Qed.

End ChatInvariant.

(** The methods of the chat, down to the steps that touch the state. *)
Ltac chat_methods :=
  unfold AIChat.sendMessage, AIChat.sendMessage_begin,
    AIChat.generateResponse, AIChat.generateResponse_enter,
    AIChat.generateResponse_resume, AIChat.generateSmartResponse,
    AIChat.startConversation, AIChat.endConversation, AIChat.speakTimer,
    Common.sendMessage_enter, currentId.

(** *** The elements of the message list *)

Lemma fresh_onManager (c : M NPCManager.St unit) :
  keeps freshElements (onManager c).
Proof.
  intros w H. unfold onManager.
  destruct (npcManager w) as [m |]; [| exact H].
  destruct (c (m, controllers w)) as [o [m' h']]. exact H.
Qed.

Lemma fresh_addMessageToUI (type : Kind) (content : value) :
  keeps freshElements (Common.addMessageToUI type content).
Proof.
  intros [c [ui msgs input label next] synth later mgr ctrls] H.
  destruct msgs as [els |]; [| exact H].
  destruct (H els eq_refl) as [Hnd Hall]. simpl in Hnd, Hall.
  intros els' [= <-]. simpl. split.
  - rewrite map_app. simpl. apply NoDup_app. split; [exact Hnd |].
    split; [| apply NoDup_singleton].
    intros x Hx Hx'. apply list_elem_of_singleton in Hx'. subst x.
    apply list_elem_of_fmap in Hx as (e & He & Hin).
    rewrite Forall_forall in Hall. specialize (Hall e Hin). lia.
  - apply Forall_app. split.
    + eapply Forall_impl; [exact Hall |]. simpl. lia.
    + apply Forall_cons. split; [simpl; lia | apply Forall_nil; exact I].
Qed.

Lemma fresh_filter (f : Element → Prop) `{∀ e, Decision (f e)} (w : World) :
  freshElements w →
  freshElements
    (withPage (fun p =>
       setChatMessages (option_map (filter f) (chatMessages p)) p) w).
Proof.
  intros Hw els'. unfold freshElements in Hw. simpl.
  destruct (chatMessages (page w)) as [els |]; [| discriminate].
  destruct (Hw els eq_refl) as [Hnd Hall]. clear Hw. intros [= <-]. split.
  - clear Hall. induction els as [| e els IH]; [constructor |].
    simpl in Hnd. apply NoDup_cons in Hnd as [Hne Hnd].
    destruct (decide (f e)).
    + rewrite filter_cons_True by done. simpl. apply NoDup_cons.
      split; [| by apply IH].
      intros Hin. apply Hne. apply list_elem_of_fmap in Hin as (x & -> & Hx).
      apply list_elem_of_fmap. exists x. split; [done |].
      by apply list_elem_of_filter in Hx as [_ Hx].
    + rewrite filter_cons_False by done. by apply IH.
  - rewrite Forall_forall in Hall |- *. intros x Hx.
    apply list_elem_of_filter in Hx as [_ Hx]. by apply Hall.
Qed.

Lemma fresh_removeElement (msgEl : option nat) :
  keeps freshElements (Common.removeElement msgEl).
Proof.
  intros w H. destruct msgEl as [n |]; [| exact H].
  by apply (fresh_filter (fun e => el e ≠ n)).
Qed.

Lemma fresh_clear :
  keeps freshElements (modify (withPage (setChatMessages (Some [])))).
Proof.
  intros w H els [= <-]. split; [constructor | apply Forall_nil; exact I].
Qed.

Ltac fresh_step :=
  first [ apply fresh_onManager | apply fresh_addMessageToUI
        | apply fresh_removeElement | apply fresh_clear | keeps_step ].

Section Fresh.
Variable toLowerCase : jsstring -> jsstring.

Lemma fresh_chatRun (ops : list ChatOp) (w : World) :
  freshElements w → freshElements (chatRun toLowerCase w ops).
Proof.
  apply keeps_chatRun; intros; chat_methods;
    unfold AIChat.speak, pushHistory, initHistory; repeat fresh_step.
Qed.

End Fresh.

(** X9. The numbers of the elements of the message list are never
    confused: when they are distinct and below the next number, they stay
    so through every sequence of operations of the chat, and the element
    that [addMessageToUI] makes next carries a number that no element of
    the list has; so [loadingMsgEl.remove()] removes the loading notice
    and no other message. *)
Theorem X9_elements_keep_distinct_numbers (toLowerCase : jsstring → jsstring)
    (w : World) (ops : list ChatOp) (els : list Element) (type : Kind)
    (content : value) :
  freshElements w →
  chatMessages (page (chatRun toLowerCase w ops)) = Some els →
  NoDup (map el els)
  ∧ ∃ n, Common.addMessageToUI type content (chatRun toLowerCase w ops)
         = (Ret (Some n),
            withPage (fun p =>
              setNextElement (S n)
                (setChatMessages
                   (Some (els ++ [{| el := n; kind := type;
                                     textContent := content |}])) p))
              (chatRun toLowerCase w ops))
         ∧ (n ∉ map el els)
         ∧ withoutElement (Some n)
             (els ++ [{| el := n; kind := type; textContent := content |}])
           = els.
Proof.
  intros Hw Hels.
  destruct (fresh_chatRun toLowerCase ops w Hw els Hels) as [Hnd Hall].
  split; [exact Hnd |].
  exists (nextElement (page (chatRun toLowerCase w ops))).
  split; [| split].
  - unfold Common.addMessageToUI. rewrite bind_gets, Hels. reflexivity.
  - intros Hin. apply list_elem_of_fmap in Hin as (e & He & Hin).
    rewrite Forall_forall in Hall. specialize (Hall e Hin). lia.
  - unfold withoutElement. rewrite filter_app.
    rewrite filter_cons_False by (intros H; by apply H).
    rewrite filter_nil, app_nil_r.
    clear Hnd Hels. induction Hall as [| x xs Hx _ IH]; [reflexivity |].
    rewrite filter_cons_True by lia. by rewrite IH.
Qed.

Lemma X9_elements_keep_distinct_numbers_witness :
  ∃ n, fst (Common.addMessageToUI loadingMsg (Str (js "Thinking"))
              (chatRun asciiLower (typed (js "hello") loaded)
                 [StartConversation (js "minjun") (Some minjunConfig);
                  SendMessage]))
       = Ret (Some n)
       ∧ n ∉ [0; 1; 2]%nat.
Proof.
  destruct (X9_elements_keep_distinct_numbers asciiLower
              (typed (js "hello") loaded)
              [StartConversation (js "minjun") (Some minjunConfig);
               SendMessage]
              [{| el := 0; kind := npcMsg;
                  textContent := Str (js "Hello, teacher! 안녕하세요! I'm Min-jun, the class president. How can I help you today?") |};
               {| el := 1; kind := userMsg; textContent := Str (js "hello") |};
               {| el := 2; kind := loadingMsg;
                  textContent := Str (js "Thinking") |}]
              loadingMsg (Str (js "Thinking")))
    as (_ & n & Hrun & Hn & _).
  - intros els0 [= <-]. split; [constructor | apply Forall_nil; exact I].
  - vm_compute. reflexivity.
  - exists n. rewrite Hrun. split; [reflexivity | exact Hn].
Defined.

(** *** The speech queue *)

Lemma quiet_onManager (c : M NPCManager.St unit) :
  keeps quietSpeech (onManager c).
Proof.
  intros w H. unfold onManager.
  destruct (npcManager w) as [m |]; [| exact H].
  destruct (c (m, controllers w)) as [o [m' h']]. exact H.
Qed.

Lemma quiet_cancel (vs : list Voice.t) :
  keeps quietSpeech (modify (setSynth (Some {| voices := vs; queue := [] |}))).
Proof. intros w H sy [= <-]. simpl. lia. Qed.

Lemma quiet_speak (toLowerCase : jsstring → jsstring) (t : value) :
  keeps quietSpeech (AIChat.speak toLowerCase t).
Proof.
  intros [c p [[vs q] |] later mgr ctrls] H; [| exact H].
  destruct vs as [| v vs]; intros sy [= <-]; simpl; lia.
Qed.

Ltac quiet_step :=
  first [ apply quiet_onManager | apply quiet_cancel | apply quiet_speak
        | keeps_step ].

Section Quiet.
Variable toLowerCase : jsstring -> jsstring.

(** X10. Responses never pile up in the speech queue: [speak] cancels
    what is queued before it queues its utterance, so after every sequence
    of operations of the chat at most one utterance is queued. *)
Theorem X10_at_most_one_utterance_queued (w : World) (ops : list ChatOp) :
  quietSpeech w → quietSpeech (chatRun toLowerCase w ops).
Proof.
  apply keeps_chatRun; intros; chat_methods;
    unfold Common.addMessageToUI, Common.removeElement, pushHistory,
      initHistory; repeat quiet_step.
Qed.

End Quiet.

Lemma X10_at_most_one_utterance_queued_witness :
  quietSpeech
    (chatRun asciiLower (typed (js "hello") loaded)
       [StartConversation (js "minjun") (Some minjunConfig);
        SendMessageWhole rnd0 rnd0]).
Proof.
  apply (X10_at_most_one_utterance_queued asciiLower
           (typed (js "hello") loaded)).
  intros sy [= <-]. simpl. lia.
Defined.

(** *** The history of the current NPC *)

Lemma ready_pushHistory (i : jsstring) (e : Entry) :
  keeps historyReady (pushHistory i e).
Proof.
  intros w [H1 H2]. unfold pushHistory. rewrite bind_gets. unfold get.
  destruct (conversationHistory (chat w) !! i) as [l |] eqn:Hi.
  - split; simpl.
    + intros k Hk. apply H1. destruct (decide (i = k)) as [<- | Hne];
        [by rewrite Hi | by rewrite lookup_insert_ne in Hk].
    + intros npc Hnpc Hp. destruct (decide (i = id npc)) as [-> | Hne];
        [by rewrite lookup_insert_eq | rewrite lookup_insert_ne by done].
      by apply H2.
  - destruct (inPrototype i); by split.
Qed.

Lemma initHistory_returns (i : jsstring) (w : World) :
  fst (initHistory i w) = Ret tt.
Proof.
  unfold initHistory. rewrite bind_gets.
  by destruct (match get _ _ with Missing => true | _ => false end).
Qed.

(** [startConversation] sets the current NPC and makes its history in
    one go. *)
Lemma ready_open (i : jsstring) (cfg : option Config.t) (w : World) :
  historyReady w →
  historyReady
    (snd (initHistory i
            (withChat (setCurrentNPC (Some {| id := i; config := cfg |})) w))).
Proof.
  intros [H1 H2]. unfold initHistory. rewrite bind_gets. unfold get. simpl.
  destruct (conversationHistory (chat w) !! i) as [l |] eqn:Hi; simpl.
  - split; simpl; [exact H1 |].
    intros npc [= <-] _. simpl. by rewrite Hi.
  - destruct (inPrototype i) eqn:Hp; simpl.
    + split; simpl; [exact H1 |].
      intros npc [= <-]. simpl. congruence.
    + split; simpl.
      * intros k Hk. destruct (decide (i = k)) as [<- | Hne]; [exact Hp |].
        rewrite lookup_insert_ne in Hk by done. by apply H1.
      * intros npc [= <-] _. simpl. by rewrite lookup_insert_eq.
Qed.

Lemma ready_close :
  keeps historyReady (modify (withChat (setCurrentNPC None))).
Proof. intros w [H1 H2]. split; simpl; [exact H1 | discriminate]. Qed.

Ltac ready_step :=
  first [ apply (chat_keeps_onManager readyChat)
        | apply (chat_keeps_addMessageToUI readyChat)
        | apply (chat_keeps_removeElement readyChat)
        | apply (chat_keeps_speak readyChat)
        | apply ready_pushHistory | apply ready_close | keeps_step ].

Section Ready.
Variable toLowerCase : jsstring -> jsstring.

Lemma ready_startConversation (i : jsstring) (cfg : option Config.t) :
  keeps historyReady (AIChat.startConversation toLowerCase i cfg).
Proof.
  intros w H. unfold AIChat.startConversation.
  unfold bind at 1. unfold modify at 1. unfold bind at 1.
  pose proof (initHistory_returns i
                (withChat (setCurrentNPC (Some {| id := i; config := cfg |})) w))
    as Hr.
  pose proof (ready_open i cfg w H) as Ho.
  destruct (initHistory i _) as [o w1]. simpl in Hr, Ho. subst o.
  revert w1 Ho.
  match goal with
  | |- ∀ w1, _ → historyReady (snd (?c w1)) => change (keeps historyReady c)
  end.
  repeat ready_step.
Qed.

Lemma ready_chatRun (ops : list ChatOp) (w : World) :
  historyReady w → historyReady (chatRun toLowerCase w ops).
Proof.
  apply keeps_chatRun; intros;
    try apply ready_startConversation;
    chat_methods; repeat ready_step.
Qed.

(** With a history for the current NPC, [sendMessage] gets to its delay
    without throwing. *)
Lemma sendMessage_enter_returns (w : World) :
  historyReady w →
  (∀ npc, currentNPC (chat w) = Some npc → inPrototype (id npc) = false) →
  ∃ a, fst (Common.sendMessage_enter w) = Ret a.
Proof.
  intros [_ H2] Hp. unfold Common.sendMessage_enter.
  rewrite !bind_gets.
  destruct (currentNPC (chat w)) as [npc |] eqn:Hnpc; [| by eexists].
  destruct (isGenerating (chat w)); [by eexists |].
  rewrite bind_gets.
  destruct (chatInput (page w)) as [v |]; [| by eexists].
  destruct (truthy_str (trim v)); [| by eexists].
  destruct (H2 npc eq_refl (Hp npc eq_refl)) as [l Hl].
  match goal with
  | |- ∃ a, fst (?c w) = Ret a =>
      assert (hoare (fun w' => view w' = view w) c
                (fun m w' => m = Some (trim v))) as Hh
  end.
  { eapply hoare_bind.
    { apply hoare_modify with (Q := fun w' => view w' = view w).
      intros w' Hw'. exact Hw'. }
    intros [].
    eapply hoare_bind; [apply view_addMessageToUI |]. intros a.
    apply hoare_assume. intros _.
    eapply hoare_bind; [by apply (view_currentId _ _ _ _ _ npc) |].
    intros i. apply hoare_assume. intros ->.
    eapply hoare_bind; [by eapply view_pushHistory |]. intros [].
    eapply hoare_post; [| apply hoare_ret]. by intros a' w' [-> _]. }
  destruct (Hh w eq_refl) as (m & Hm & _). eauto.
Qed.

Lemma sendMessage_begin_returns (w : World) :
  historyReady w →
  (∀ npc, currentNPC (chat w) = Some npc → inPrototype (id npc) = false) →
  ∃ a, fst (AIChat.sendMessage_begin w) = Ret a.
Proof.
  intros Hr Hp. destruct (sendMessage_enter_returns w Hr Hp) as [m Hm].
  unfold AIChat.sendMessage_begin. unfold bind at 1.
  destruct (Common.sendMessage_enter w) as [o w1]. simpl in Hm. subst o.
  destruct m as [message |]; [| by eexists].
  unfold AIChat.generateResponse_enter.
  destruct (returns_addMessageToUI loadingMsg (Str (js "Thinking"))
              (withChat (setIsGenerating true) w1)) as [el Hel].
  unfold bind, modify.
  destruct (Common.addMessageToUI _ _ _) as [o w2]. simpl in Hel. subst o.
  by eexists.
Qed.

(** X11. A message to a student never gets lost in an exception. The
    chat keeps a history for the NPC of every conversation it opens,
    through every sequence of its operations; so, unless the id of the
    current NPC names a member of [Object.prototype], [sendMessage]
    returns normally in every state the chat can reach. *)
Theorem X11_sendMessage_returns_normally (w : World) (ops : list ChatOp)
    (r r' : random) :
  historyReady w →
  (∀ npc, currentNPC (chat (chatRun toLowerCase w ops)) = Some npc →
          inPrototype (id npc) = false) →
  historyReady (chatRun toLowerCase w ops)
  ∧ ∃ final,
      AIChat.sendMessage toLowerCase r r' (chatRun toLowerCase w ops)
      = (Ret tt, final).
Proof.
  intros Hw Hp. pose proof (ready_chatRun ops w Hw) as Hr.
  split; [exact Hr |].
  destruct (sendMessage_begin_returns _ Hr Hp) as [a Ha].
  unfold AIChat.sendMessage. unfold bind.
  destruct (AIChat.sendMessage_begin _) as [o w1]. simpl in Ha. subst o.
  destruct a as [[m e] |]; [| by eexists].
  destruct (returns_resume toLowerCase r r' e m w1) as [[] Hres].
  destruct (AIChat.generateResponse_resume _ _ _ _ _ _) as [o w2].
  simpl in Hres. subst o. by eexists.
Qed.

End Ready.

Lemma X11_sendMessage_returns_normally_witness :
  ∃ final,
    AIChat.sendMessage asciiLower rnd0 rnd0
      (chatRun asciiLower (typed (js "hello") loaded)
         [StartConversation (js "minjun") (Some minjunConfig)])
    = (Ret tt, final).
Proof.
  apply (X11_sendMessage_returns_normally asciiLower
           (typed (js "hello") loaded)
           [StartConversation (js "minjun") (Some minjunConfig)] rnd0 rnd0).
  - split.
    + intros k [l Hl]. simpl in Hl. rewrite lookup_empty in Hl.
      discriminate Hl.
    + intros npc Hnpc. discriminate Hnpc.
  - intros npc Hnpc. vm_compute in Hnpc. injection Hnpc as <-. reflexivity.
Defined.

(** ** The ids of the controllers *)

Lemma lowerCaseId_prototype (i : jsstring) :
  inPrototype i = true → lowerCaseId i = true → i = js "constructor".
Proof.
  unfold inPrototype. rewrite existsb_exists.
  intros (k & Hin & Heq). apply bool_decide_eq_true_1 in Heq. subst k.
  unfold ObjectPrototype in Hin. simpl in Hin.
  destruct Hin as [<- | Hin]; [reflexivity |].
  repeat (destruct Hin as [<- | Hin]; [intros H; vm_compute in H; discriminate H |]).
  destruct Hin.
Qed.

(** X12. The id that [init] computes from the name of a controller,
    [name.toLowerCase().replace(/[^a-z]/g, '')], is made of the letters
    [a] to [z] alone, whatever [toLowerCase] does; computing it again from
    the id changes nothing when [toLowerCase] leaves such letters alone;
    and [constructor] is the one member of [Object.prototype] that it can
    name. *)
Theorem X12_controller_ids_are_lower_case
    (toLowerCase : jsstring → jsstring) (name : jsstring) :
  lowerCaseId (Scene.npcIdOf toLowerCase name) = true
  ∧ (inPrototype (Scene.npcIdOf toLowerCase name) = true →
     Scene.npcIdOf toLowerCase name = js "constructor")
  ∧ Scene.npcIdOf asciiLower (Scene.npcIdOf toLowerCase name)
    = Scene.npcIdOf toLowerCase name.
Proof.
  assert (lowerCaseId (Scene.npcIdOf toLowerCase name) = true) as Hlow.
  { unfold lowerCaseId, Scene.npcIdOf. apply forallb_forall.
    intros c Hc. apply filter_In in Hc as [_ Hc]. exact Hc. }
  split; [exact Hlow |]. split.
  - intros Hp. by apply lowerCaseId_prototype.
  - revert Hlow. generalize (Scene.npcIdOf toLowerCase name) as i.
    unfold lowerCaseId, Scene.npcIdOf. induction i as [| c i IH]; intros H;
      [reflexivity |].
    simpl in H. apply andb_true_iff in H as [Hc Hi].
    assert (lowerUnit c = c) as Hl.
    { unfold lowerUnit. apply andb_true_iff in Hc as [Ha Hz].
      apply N.leb_le in Ha. replace (c <=? 90) with false; [by rewrite andb_false_r |].
      symmetry. apply N.leb_gt. lia. }
    change (asciiLower (c :: i)) with (lowerUnit c :: asciiLower i).
    rewrite Hl. simpl. unfold Scene.isLowerLetter at 1. rewrite Hc.
    f_equal. by apply IH.
Qed.

(** ** The scene: clicks, Escape and the highlighted student *)

Lemma ensures_bind_l {A B} (c : M World A) (k : A → M World B)
    (Q : World → Prop) :
  ensures c Q → (∀ a, keeps Q (k a)) → ensures (bind c k) Q.
Proof.
  intros Hc Hk w. unfold bind. specialize (Hc w).
  destruct (c w) as [[a | e] w1]; simpl in *.
  - intros _. apply Hk. apply Hc. by exists a.
  - by intros [b Hb].
Qed.

Lemma ensures_bind_r {A B} (c : M World A) (k : A → M World B)
    (Q : World → Prop) :
  (∀ a, ensures (k a) Q) → ensures (bind c k) Q.
Proof.
  intros Hk w. unfold bind.
  destruct (c w) as [[a | e] w1]; simpl.
  - apply Hk.
  - by intros [b Hb].
Qed.

(** [setActiveNPC(id)], when it returns, has set [activeNPC]. *)
Lemma setActiveNPC_sets (i : jsstring) :
  ensures (onManager (NPCManager.setActiveNPC (Some i))) (activeId i).
Proof.
  intros w. unfold onManager, activeId.
  destruct (npcManager w) as [[npcs act] |] eqn:Hm;
    [| simpl; intros _ m Hm'; congruence].
  unfold NPCManager.setActiveNPC, NPCManager.onEntry, NPCManager.getNPC,
    NPCManager.setActive, bind, gets, modify, ret, throw, get. simpl.
  destruct act as [p |]; simpl.
  - destruct (truthy_str p); simpl;
      [destruct (npcs !! p); simpl; [| destruct (inPrototype p); simpl] |];
      try (intros [a Ha]; discriminate Ha);
      (destruct (truthy_str i); simpl; [| by intros _ m [= <-]]);
      (destruct (npcs !! i); simpl; [by intros _ m [= <-] |]);
      destruct (inPrototype i); simpl; by intros _ m [= <-].
  - destruct (truthy_str i); simpl; [| by intros _ m [= <-]].
    destruct (npcs !! i); simpl; [by intros _ m [= <-] |].
    destruct (inPrototype i); simpl; by intros _ m [= <-].
Qed.

Lemma activeId_onManager_triggerReaction (i j : jsstring)
    (r : option Reaction) :
  keeps (activeId i) (onManager (NPCManager.triggerReaction j r)).
Proof.
  intros w H. unfold onManager, activeId in *.
  destruct (npcManager w) as [m |] eqn:Hm;
    [| simpl; intros m Hm'; congruence].
  unfold NPCManager.triggerReaction, NPCManager.getNPC, NPCManager.react,
    bind, gets, modify, get. simpl.
  destruct (NPCManager.npcs m !! j); simpl;
    [| destruct (inPrototype j); simpl];
    intros m' [= <-]; by apply H.
Qed.

Section SceneSteps.
Variable toLowerCase : jsstring -> jsstring.
Variable npcs : gmap jsstring nat.

Lemma scene_setActiveNPC (i : option jsstring) :
  keeps (sceneInvariant npcs) (onManager (NPCManager.setActiveNPC i)).
Proof.
  intros w (m & Hm & Hn & Hinv). unfold onManager. rewrite Hm.
  pose proof (setActiveNPC_activeIsCurrent i _ Hinv) as Hinv'.
  pose proof (setActiveNPC_npcs i (m, controllers w)) as Hn'.
  destruct (NPCManager.setActiveNPC i _) as [o [m' h']].
  simpl in *. exists m'. split; [reflexivity |]. split; [congruence |].
  exact Hinv'.
Qed.

(** A reaction changes no [isActive]. *)
Lemma scene_triggerReaction (i : jsstring) (r : option Reaction) :
  keeps (sceneInvariant npcs) (onManager (NPCManager.triggerReaction i r)).
Proof.
  intros w (m & Hm & Hn & Hinv). unfold onManager. rewrite Hm.
  unfold NPCManager.triggerReaction, NPCManager.getNPC, NPCManager.react,
    bind, gets, modify, get. simpl.
  destruct (NPCManager.npcs m !! i) as [l |] eqn:Hl; simpl;
    [| destruct (inPrototype i); simpl; exists m; auto].
  exists m. split; [reflexivity |]. split; [exact Hn |].
  intros l' Hl'. apply Hinv. simpl in *.
  destruct (controllers w !! l) as [c |] eqn:Hc; [| exact Hl'].
  destruct r as [r |]; [| exact Hl'].
  destruct (body c); [| exact Hl'].
  destruct Hl' as (c' & Hc' & Hact).
  destruct (decide (l = l')) as [<- | Hne].
  - rewrite lookup_insert_eq in Hc'. injection Hc' as <-. simpl in Hact.
    by exists c.
  - rewrite lookup_insert_ne in Hc' by done. by exists c'.
Qed.

Ltac scene_step :=
  first [ apply scene_setActiveNPC | apply scene_triggerReaction
        | keeps_step ].

Lemma scene_startConversation (i : jsstring) (cfg : option Config.t) :
  keeps (sceneInvariant npcs) (AIChat.startConversation toLowerCase i cfg).
Proof.
  chat_methods.
  unfold Common.addMessageToUI, AIChat.speak, initHistory.
  repeat scene_step.
Qed.

Lemma scene_chatStep (op : ChatOp) (w : World) :
  sceneInvariant npcs w → sceneInvariant npcs (chatStep toLowerCase w op).
Proof.
  apply keeps_chatStep; intros;
    try apply scene_startConversation;
    chat_methods;
    unfold Common.addMessageToUI, Common.removeElement, AIChat.speak,
      pushHistory, initHistory;
    repeat scene_step.
Qed.

(** [startConversation], when it returns, has made its id the active
    one. *)
Lemma startConversation_sets (i : jsstring) (cfg : option Config.t) :
  ensures (AIChat.startConversation toLowerCase i cfg) (activeId i).
Proof.
  unfold AIChat.startConversation.
  apply ensures_bind_r. intros _.
  apply ensures_bind_r. intros _.
  apply ensures_bind_l; [apply setActiveNPC_sets |]. intros _.
  unfold Common.addMessageToUI, AIChat.speak.
  repeat keeps_step.
Qed.

Variable data : Scene.Data.

(** A click on a controller that the manager holds under its own id. *)
Lemma scene_onInteract (l : nat) :
  npcs !! fst (data l) = Some l →
  truthy_str (fst (data l)) = true →
  keeps (sceneInvariant npcs) (Scene.onInteract toLowerCase data l).
Proof.
  intros Hl Ht w H. unfold Scene.onInteract, bind.
  pose proof (scene_startConversation (fst (data l)) (snd (data l)) w H)
    as Hinv.
  pose proof (startConversation_sets (fst (data l)) (snd (data l)) w) as Hset.
  destruct (AIChat.startConversation _ _ _ w) as [[[] | e] w1];
    simpl in *; [| exact Hinv].
  destruct Hinv as (m & Hm & Hn & Hinv).
  specialize (Hset (ex_intro _ tt eq_refl) m Hm).
  exists m. split; [exact Hm |]. split; [exact Hn |].
  intros l' Hl'. simpl in Hl'.
  destruct (decide (l' = l)) as [-> | Hne].
  - exists (fst (data l)). split; [exact Hset |]. split; [exact Ht |].
    simpl. by rewrite Hn.
  - apply Hinv. simpl.
    destruct (controllers w1 !! l) as [c |]; [| exact Hl'].
    destruct Hl' as (c' & Hc' & Hact).
    rewrite lookup_insert_ne in Hc' by done. by exists c'.
Qed.

Lemma scene_talkTo (i : jsstring) :
  (∀ j l, npcs !! j = Some l → fst (data l) = j ∧ truthy_str j = true) →
  keeps (sceneInvariant npcs) (Scene.talkTo toLowerCase data i).
Proof.
  intros Hown w H. unfold Scene.talkTo. rewrite bind_gets.
  destruct H as (m & Hm & Hn & Hinv). rewrite Hm. unfold get. rewrite Hn.
  destruct (npcs !! i) as [l |] eqn:Hl.
  - destruct (Hown i l Hl) as [Hd Ht].
    apply scene_onInteract; [by rewrite Hd | by rewrite Hd |].
    by exists m.
  - destruct (inPrototype i); by exists m.
Qed.

Lemma scene_sceneRun (ops : list SceneOp) (w : World) :
  (∀ j l, npcs !! j = Some l → fst (data l) = j ∧ truthy_str j = true) →
  (∀ l, l ∈ clicked ops → npcs !! fst (data l) = Some l) →
  sceneInvariant npcs w →
  sceneInvariant npcs (sceneRun toLowerCase data w ops).
Proof.
  intros Hown. revert w.
  induction ops as [| op ops IH]; intros w Hclick H; [exact H |].
  simpl. apply IH.
  - intros l Hl. apply Hclick. destruct op; simpl; try exact Hl.
    apply elem_of_cons. by right.
  - destruct op as [l | | i | op]; simpl.
    + assert (npcs !! fst (data l) = Some l) as Hl
        by (apply Hclick; simpl; apply elem_of_cons; by left).
      apply scene_onInteract; [exact Hl | | exact H].
      by destruct (Hown _ _ Hl).
    + by apply (scene_chatStep EndConversation).
    + by apply scene_talkTo.
    + by apply scene_chatStep.
Qed.

End SceneSteps.

(** What [onManager] leaves alone. *)
Lemma onManager_frame (c : M NPCManager.St unit) (w : World) :
  chat (snd (onManager c w)) = chat w
  ∧ page (snd (onManager c w)) = page w
  ∧ speechSynthesis (snd (onManager c w)) = speechSynthesis w
  ∧ speakLater (snd (onManager c w)) = speakLater w.
Proof.
  unfold onManager. destruct (npcManager w) as [m |]; [| auto].
  destruct (c (m, controllers w)) as [o [m' h']]. auto.
Qed.

(** [setActiveNPC(null)] does not throw when the id the manager holds
    names no member of [Object.prototype]. *)
Lemma setActiveNPC_null_returns (w : World) :
  managerReady w →
  fst (onManager (NPCManager.setActiveNPC None) w) = Ret tt.
Proof.
  intros Hready. unfold onManager.
  destruct (npcManager w) as [[npcs act] |] eqn:Hm; [| reflexivity].
  pose proof (fun p => Hready _ p Hm) as Hr. simpl in Hr.
  unfold NPCManager.setActiveNPC, NPCManager.onEntry, NPCManager.getNPC,
    NPCManager.setActive, bind, gets, modify, ret, throw, get. simpl.
  destruct act as [p |]; simpl; [| reflexivity].
  destruct (truthy_str p); simpl; [| reflexivity].
  destruct (npcs !! p); simpl; [reflexivity |].
  rewrite (Hr p eq_refl). reflexivity.
Qed.

(** After [setActiveNPC(null)] no controller is active. *)
Lemma scene_setActiveNPC_null (npcs : gmap jsstring nat) (w : World) :
  sceneInvariant npcs w →
  ∀ l, ¬ active (controllers (snd (onManager (NPCManager.setActiveNPC None) w))) l.
Proof.
  intros (m & Hm & Hn & Hinv) l. unfold onManager. rewrite Hm.
  pose proof (setActiveNPC_activeIsCurrent None _ Hinv) as Hinv'.
  pose proof (setActiveNPC_null_current (m, controllers w)) as Hnull.
  destruct (NPCManager.setActiveNPC None _) as [o [m' h']].
  simpl in *. intros Hl.
  destruct (Hinv' l Hl) as (i & Hi & _ & Hil). simpl in *.
  destruct Hnull as [Hnone | (a & Ha & Hnone)]; congruence.
Qed.

(** The store keeps its controllers. *)
Lemma store_setActiveNPC (i : option jsstring) (l : nat) :
  keeps (fun w => is_Some (controllers w !! l))
        (onManager (NPCManager.setActiveNPC i)).
Proof.
  assert (∀ (a : option jsstring) (b : bool) (s : NPCManager.St),
            is_Some (snd s !! l) →
            is_Some (snd (snd (NPCManager.onEntry a
                                 (fun l' => NPCManager.setActive l' b) s)) !! l))
    as Hon.
  { intros a b [m h] Hs. unfold NPCManager.onEntry.
    destruct a as [a |]; [| exact Hs].
    destruct (truthy_str a); [| exact Hs].
    unfold bind, NPCManager.getNPC, NPCManager.setActive, gets, modify, get.
    simpl. destruct (NPCManager.npcs m !! a) as [l' |];
      [| destruct (inPrototype a); exact Hs].
    simpl. destruct (h !! l') as [c |] eqn:Hc; [| exact Hs].
    destruct (decide (l' = l)) as [-> | Hne];
      [by rewrite lookup_insert_eq | by rewrite lookup_insert_ne]. }
  intros w H. unfold onManager.
  destruct (npcManager w) as [m |]; [| exact H].
  unfold NPCManager.setActiveNPC. unfold bind at 1. unfold gets at 1.
  unfold bind at 1.
  pose proof (Hon (NPCManager.activeNPC m) false (m, controllers w) H) as H1.
  destruct (NPCManager.onEntry _ _ (m, controllers w)) as [[[] | e] [m1 h1]];
    simpl in H1 |- *; [| exact H1].
  unfold bind at 1. unfold modify at 1.
  pose proof (Hon i true ({| NPCManager.npcs := NPCManager.npcs m1;
                             NPCManager.activeNPC := i |}, h1) H1) as H2.
  destruct (NPCManager.onEntry _ _ _) as [o [m2 h2]]. exact H2.
Qed.

Section SceneTheorems.
Variable toLowerCase : jsstring -> jsstring.
Variable data : Scene.Data.

Lemma store_startConversation (i : jsstring) (cfg : option Config.t)
    (l : nat) :
  keeps (fun w => is_Some (controllers w !! l))
        (AIChat.startConversation toLowerCase i cfg).
Proof.
  unfold AIChat.startConversation, Common.addMessageToUI, AIChat.speak,
    initHistory.
  repeat first [apply store_setActiveNPC | keeps_step].
Qed.

(** X13. At most one student is highlighted. When the manager holds every
    controller under the controller's own id, and every active controller
    is the manager's active one, this stays so through every sequence of
    clicks on controllers that the manager holds, presses of Escape, calls
    of [talkTo] and operations of the chat, whether they return or throw;
    so no two controllers are ever active together. *)
Theorem X13_at_most_one_student_highlighted (w : World)
    (m : NPCManager.t) (ops : list SceneOp) :
  npcManager w = Some m →
  ownIds data m →
  activeIsCurrent (m, controllers w) →
  (∀ k, k ∈ clicked ops → inManager data m k) →
  ∀ l l',
    active (controllers (sceneRun toLowerCase data w ops)) l →
    active (controllers (sceneRun toLowerCase data w ops)) l' →
    l = l'.
Proof.
  intros Hm Hown Hinv Hclick l l' Hl Hl'.
  destruct (scene_sceneRun toLowerCase (NPCManager.npcs m) data ops w
              Hown Hclick) as (m' & _ & _ & Hinv').
  { exists m. auto. }
  exact (activeIsCurrent_unique _ Hinv' l l' Hl Hl').
Qed.

(** X14. A click on a student opens the conversation and highlights that
    student alone. In a scene whose page has the message list, whose
    manager holds as [activeNPC] no name of a member of
    [Object.prototype], and where every active controller is the entry of
    the manager under its [activeNPC]: for a controller that is in the
    store and that the manager holds under its own id, an id that is not
    empty and names no member of [Object.prototype], and with a
    configuration, [onInteract] returns normally, the current NPC is the
    one of the controller, the controller is active, and no other
    controller is. *)
Theorem X14_click_highlights_the_student (w : World) (m : NPCManager.t)
    (l : nat) (c : Config.t) (old : list Element) :
  npcManager w = Some m →
  activeIsCurrent (m, controllers w) →
  managerReady w →
  inManager data m l →
  is_Some (controllers w !! l) →
  snd (data l) = Some c →
  truthy_str (fst (data l)) = true →
  inPrototype (fst (data l)) = false →
  chatMessages (page w) = Some old →
  ∃ final,
    Scene.onInteract toLowerCase data l w = (Ret tt, final)
    ∧ currentNPC (chat final) = Some {| id := fst (data l); config := Some c |}
    ∧ active (controllers final) l
    ∧ ∀ l', active (controllers final) l' → l' = l.
Proof.
  intros Hm Hinv Hready Hl Hstore Hc Ht Hp Hold.
  destruct (getGreeting_returns (fst (data l)) c Hp) as [g Hg].
  destruct (startConversation_view toLowerCase w (fst (data l)) c old g
              Hp Hready Hold Hg w eq_refl) as ([] & Hfst & Hview).
  pose proof (scene_onInteract toLowerCase (NPCManager.npcs m) data l Hl Ht w)
    as Hscene.
  pose proof (store_startConversation (fst (data l)) (Some c) l w Hstore)
    as Hstore1.
  unfold Scene.onInteract, bind in Hscene |- *. rewrite Hc in Hscene |- *.
  destruct (AIChat.startConversation _ _ _ w) as [o w1].
  simpl in Hfst, Hview, Hstore1. subst o.
  eexists. split; [reflexivity |].
  assert (active (controllers (snd (Scene.setActive l true w1))) l) as Hact.
  { simpl. destruct Hstore1 as [c1 Hc1]. rewrite Hc1.
    eexists. rewrite lookup_insert_eq. split; reflexivity. }
  split; [| split; [exact Hact |]].
  - apply (f_equal (fun v => currentNPC (fst (fst (fst (fst v)))))) in Hview.
    exact Hview.
  - destruct Hscene as (m' & _ & _ & Hinv'); [by exists m |].
    intros l' Hl'.
    exact (activeIsCurrent_unique _ Hinv' l' l Hl' Hact).
Qed.

(** X15. Escape closes the conversation and clears the highlight. With a
    conversation going on, in a scene with a manager that holds as
    [activeNPC] no name of a member of [Object.prototype], and where
    every active controller is the entry of the manager under its
    [activeNPC], [endConversation] returns normally; afterwards no
    controller is active, there is no current NPC, nothing is queued for
    speech, the chat panel is hidden, and the histories and the message
    list are as they were. *)
Theorem X15_escape_clears_the_highlight (w : World)
    (npcs : gmap jsstring nat) (npc : NPC) :
  sceneInvariant npcs w →
  managerReady w →
  currentNPC (chat w) = Some npc →
  ∃ final,
    AIChat.endConversation w = (Ret tt, final)
    ∧ (∀ l, ¬ active (controllers final) l)
    ∧ currentNPC (chat final) = None
    ∧ conversationHistory (chat final) = conversationHistory (chat w)
    ∧ (∀ sy, speechSynthesis final = Some sy → queue sy = [])
    ∧ chatUI (page final) = option_map (fun _ => true) (chatUI (page w))
    ∧ chatMessages (page final) = chatMessages (page w).
Proof.
  intros Hinv Hready Hnpc.
  pose proof (setActiveNPC_null_returns w Hready) as Hret.
  pose proof (scene_setActiveNPC_null npcs w Hinv) as Hnone.
  destruct (onManager_frame (NPCManager.setActiveNPC None) w)
    as (Hchat & Hpage & Hsynth & _).
  unfold AIChat.endConversation. rewrite bind_gets, Hnpc.
  unfold bind at 1.
  destruct (onManager (NPCManager.setActiveNPC None) w)
    as [o [c1 p1 s1 later1 m1 h1]].
  simpl in Hret, Hnone, Hchat, Hpage, Hsynth. subst o c1 p1 s1.
  rewrite bind_gets. simpl.
  destruct (speechSynthesis w) as [sy |]; simpl;
    (eexists; split; [reflexivity |]; simpl;
     split; [exact Hnone |]; repeat (split; [reflexivity |]));
    [split; [by intros ? [= <-] | split; reflexivity]
    | split; [discriminate | split; reflexivity]].
Qed.

End SceneTheorems.

Lemma twoStudents_idle : ∀ l, ¬ active (controllers twoStudents) l.
Proof.
  assert (map_Forall (fun _ c => isActive c = false) twoControllers) as H.
  { apply (bool_decide_unpack _). vm_compute. reflexivity. }
  intros l (c & Hc & Ha). specialize (H l c Hc). simpl in H. congruence.
Qed.

Lemma twoStudents_ownIds (i : jsstring) (l : nat) :
  (list_to_map [(js "minjun", 0%nat); (js "sooyeon", 1%nat)]
     : gmap jsstring nat) !! i = Some l →
  fst (twoStudentsData l) = i ∧ truthy_str i = true.
Proof.
  assert (map_Forall (fun i l => fst (twoStudentsData l) = i
                                 ∧ truthy_str i = true)
            (list_to_map [(js "minjun", 0%nat); (js "sooyeon", 1%nat)]
               : gmap jsstring nat)) as H.
  { apply (bool_decide_unpack _). vm_compute. reflexivity. }
  apply H.
Qed.

Lemma X13_at_most_one_student_highlighted_witness :
  let final := sceneRun asciiLower twoStudentsData twoStudents
                 [Click 0; TalkTo (js "sooyeon"); Escape; Click 1;
                  ChatStep SendMessage] in
  active (controllers final) 1
  ∧ ∀ l, active (controllers final) l → l = 1%nat.
Proof.
  intros final.
  assert (active (controllers final) 1) as Hact.
  { eexists. split; [vm_compute; reflexivity | reflexivity]. }
  split; [exact Hact |]. intros l Hl.
  apply (X13_at_most_one_student_highlighted asciiLower twoStudentsData
           twoStudents
           {| NPCManager.npcs :=
                list_to_map [(js "minjun", 0%nat); (js "sooyeon", 1%nat)];
              NPCManager.activeNPC := None |}
           [Click 0; TalkTo (js "sooyeon"); Escape; Click 1;
            ChatStep SendMessage]); [| | | | exact Hl | exact Hact].
  - reflexivity.
  - intros i k. apply twoStudents_ownIds.
  - intros k Hk. by apply twoStudents_idle in Hk.
  - intros k Hk. simpl in Hk.
    apply elem_of_cons in Hk as [-> | Hk]; [vm_compute; reflexivity |].
    apply list_elem_of_singleton in Hk as ->. vm_compute. reflexivity.
Defined.

Lemma X14_click_highlights_the_student_witness :
  ∃ final,
    Scene.onInteract asciiLower twoStudentsData 1 twoStudents = (Ret tt, final)
    ∧ currentNPC (chat final)
      = Some {| id := js "sooyeon"; config := Some sooyeonConfig |}
    ∧ active (controllers final) 1
    ∧ ∀ l', active (controllers final) l' → l' = 1%nat.
Proof.
  apply (X14_click_highlights_the_student asciiLower twoStudentsData
           twoStudents
           {| NPCManager.npcs :=
                list_to_map [(js "minjun", 0%nat); (js "sooyeon", 1%nat)];
              NPCManager.activeNPC := None |}
           1 sooyeonConfig []).
  - reflexivity.
  - intros l Hl. by apply twoStudents_idle in Hl.
  - intros m i [= <-] Hact. discriminate Hact.
  - vm_compute. reflexivity.
  - vm_compute. by eexists.
  - reflexivity.
  - reflexivity.
  - vm_compute. reflexivity.
  - reflexivity.
Defined.

Lemma X15_escape_clears_the_highlight_witness :
  let w := snd (Scene.onInteract asciiLower twoStudentsData 1 twoStudents) in
  ∃ final,
    AIChat.endConversation w = (Ret tt, final)
    ∧ (∀ l, ¬ active (controllers final) l)
    ∧ currentNPC (chat final) = None.
Proof.
  intros w.
  destruct (X15_escape_clears_the_highlight w
              (list_to_map [(js "minjun", 0%nat); (js "sooyeon", 1%nat)])
              {| id := js "sooyeon"; config := Some sooyeonConfig |})
    as (final & Hrun & Hnone & Hcur & _).
  - eexists. split; [vm_compute; reflexivity |]. split; [reflexivity |].
    assert (map_Forall (fun l c => isActive c = true → l = 1%nat)
              (controllers w)) as H.
    { apply (bool_decide_unpack _). vm_compute. reflexivity. }
    intros l (c & Hc & Ha). rewrite (H l c Hc Ha).
    exists (js "sooyeon"). vm_compute. auto.
  - intros m i Hm Hact. vm_compute in Hm. injection Hm as <-.
    injection Hact as <-. vm_compute. reflexivity.
  - vm_compute. reflexivity.
  - exists final. auto.
Defined.

(** ** Speech recognition *)

Lemma transcripts_eq (results : list Recognition.SpeechResult)
    (f i : jsstring) :
  Recognition.transcripts results f i
  = (f ++ concat (map Recognition.transcript
                    (List.filter Recognition.isFinal results)),
     i ++ concat (map Recognition.transcript
                    (List.filter (fun r => negb (Recognition.isFinal r))
                       results))).
Proof.
  revert f i. induction results as [| r rs IH]; intros f i; simpl.
  - by rewrite !app_nil_r.
  - destruct (Recognition.isFinal r); simpl; rewrite IH;
      by rewrite <- app_assoc.
Qed.

(** While no result from [resultIndex] on is final, [onresult] sends
    nothing and changes the input box at most. *)
Lemma onresult_interim (resultIndex : nat)
    (results : list Recognition.SpeechResult) (w : World) :
  List.filter Recognition.isFinal (drop resultIndex results) = [] →
  ∃ w',
    Recognition.onresult resultIndex results w = (Ret None, w')
    ∧ chat w' = chat w
    ∧ chatMessages (page w') = chatMessages (page w)
    ∧ speechSynthesis w' = speechSynthesis w
    ∧ (chatInput (page w') = chatInput (page w)
       ∨ chatInput (page w')
         = Some (concat (map Recognition.transcript (drop resultIndex results)))).
Proof.
  intros Hnone. unfold Recognition.onresult.
  rewrite transcripts_eq, Hnone. simpl.
  assert (List.filter (fun r => negb (Recognition.isFinal r))
            (drop resultIndex results) = drop resultIndex results) as ->.
  { induction (drop resultIndex results) as [| r rs IH]; [reflexivity |].
    simpl in Hnone |- *. destruct (Recognition.isFinal r); [discriminate |].
    simpl. f_equal. by apply IH. }
  rewrite bind_gets.
  destruct (truthy_str _ && bool_decide _); simpl;
    eexists; (split; [reflexivity |]); simpl; auto 10.
Qed.

Section Dictation.

(** X16. Interim results send nothing. While no result from
    [resultIndex] on is final, the final transcript that [onresult] builds
    is empty and the interim one is the concatenation, in order, of the
    transcripts of these results; [onresult] returns without a message,
    and the fields of the chat, the message list and the speech queue are
    as they were; only the input box may change, to the interim
    transcript. *)
Theorem X16_interim_results_send_nothing (resultIndex : nat)
    (results : list Recognition.SpeechResult) (w : World) :
  List.filter Recognition.isFinal (drop resultIndex results) = [] →
  Recognition.transcripts (drop resultIndex results) [] []
  = ([], concat (map Recognition.transcript (drop resultIndex results)))
  ∧ ∃ w',
      Recognition.onresult resultIndex results w = (Ret None, w')
      ∧ chat w' = chat w
      ∧ chatMessages (page w') = chatMessages (page w)
      ∧ speechSynthesis w' = speechSynthesis w
      ∧ (chatInput (page w') = chatInput (page w)
         ∨ chatInput (page w')
           = Some (concat (map Recognition.transcript
                             (drop resultIndex results)))).
Proof.
  intros Hnone. split; [| by apply onresult_interim].
  rewrite transcripts_eq, Hnone. simpl. do 3 f_equal.
  induction (drop resultIndex results) as [| r rs IH]; [reflexivity |].
  simpl in Hnone |- *. destruct (Recognition.isFinal r); [discriminate |].
  simpl. f_equal. by apply IH.
Qed.

Lemma removeListening_notice (els : list Element) (n : nat) :
  Recognition.removeListening
    (els ++ [{| el := n; kind := systemMsg;
                textContent := Str (js "🎤 Listening...") |}])
  = Recognition.removeListening els.
Proof.
  unfold Recognition.removeListening. rewrite List.filter_app.
  match goal with
  | |- _ ++ ?l = _ => assert (l = []) as -> by (vm_compute; reflexivity)
  end.
  apply app_nil_r.
Qed.

(** [onresult] with a final transcript. *)
Lemma onresult_final (resultIndex : nat)
    (results : list Recognition.SpeechResult) (w : World) (npc : NPC)
    (typedText : jsstring) (old : list Entry) :
  let final := concat (map Recognition.transcript
                         (List.filter Recognition.isFinal
                            (drop resultIndex results))) in
  currentNPC (chat w) = Some npc →
  isGenerating (chat w) = false →
  chatInput (page w) = Some typedText →
  trim final ≠ [] →
  conversationHistory (chat w) !! id npc = Some old →
  ∃ w1,
    Recognition.onresult resultIndex results w
    = (Ret (Some (trim final,
                  option_map (fun _ => S (nextElement (page w)))
                             (chatMessages (page w)))), w1)
    ∧ conversationHistory (chat w1)
      = <[id npc := old ++ [{| role := user; content := Str (trim final) |}]]>
          (conversationHistory (chat w))
    ∧ isGenerating (chat w1) = true
    ∧ chatInput (page w1) = Some []
    ∧ chatMessages (page w1)
      = option_map
          (fun els =>
             Recognition.removeListening els
             ++ [{| el := nextElement (page w); kind := userMsg;
                    textContent := Str (trim final) |};
                 {| el := S (nextElement (page w)); kind := loadingMsg;
                    textContent := Str (js "Thinking") |}])
          (chatMessages (page w)).
Proof.
  intros final Hnpc Hgen Hin Hv Hold.
  unfold Recognition.onresult. rewrite transcripts_eq. simpl app.
  fold final. rewrite bind_gets, Hin.
  assert (truthy_str final = true) as ->.
  { destruct final; [| reflexivity]. by destruct Hv. }
  case_bool_decide as Hsome; [| destruct Hsome; by eexists].
  destruct (truthy_str (concat _)); simpl when;
    unfold bind, modify, ret; cbv beta iota;
    match goal with
    | |- ∃ w1, AIChat.sendMessage_begin ?W = _ ∧ _ =>
        destruct (sendMessage_begin_view W npc final old
                    Hnpc Hgen eq_refl Hv Hold)
          as (w1 & Hrun & Hview & Hin1)
    end;
    exists w1; simpl in Hrun; revert Hview; unfold view at 1; simpl;
    intros [= Hc Hm _ _ _]; rewrite Hc, Hm; clear Hc Hm;
    destruct (chatMessages (page w)); simpl in Hrun |- *;
    (split; [exact Hrun |]); (split; [reflexivity |]);
    (split; [reflexivity |]); (split; [exact Hin1 |]);
    try reflexivity; by rewrite <- app_assoc.
Qed.

(** X17. A final result is sent as the message, whatever was typed. With
    a conversation going on, no response being generated, an input box
    and a history for the current NPC, [onresult] with a final transcript
    that holds more than white space sends its trimmed text: the text
    that the input box held is overwritten and lost, the system messages
    that hold "Listening" are removed from the message list, and the
    message and the loading notice are appended. *)
Theorem X17_final_result_is_sent (resultIndex : nat)
    (results : list Recognition.SpeechResult) (w : World) (npc : NPC)
    (typedText : jsstring) (old : list Entry) :
  let final := concat (map Recognition.transcript
                         (List.filter Recognition.isFinal
                            (drop resultIndex results))) in
  currentNPC (chat w) = Some npc →
  isGenerating (chat w) = false →
  chatInput (page w) = Some typedText →
  trim final ≠ [] →
  conversationHistory (chat w) !! id npc = Some old →
  ∃ w1,
    Recognition.onresult resultIndex results w
    = (Ret (Some (trim final,
                  option_map (fun _ => S (nextElement (page w)))
                             (chatMessages (page w)))), w1)
    ∧ conversationHistory (chat w1)
      = <[id npc := old ++ [{| role := user; content := Str (trim final) |}]]>
          (conversationHistory (chat w))
    ∧ isGenerating (chat w1) = true
    ∧ chatInput (page w1) = Some []
    ∧ chatMessages (page w1)
      = option_map
          (fun els =>
             Recognition.removeListening els
             ++ [{| el := nextElement (page w); kind := userMsg;
                    textContent := Str (trim final) |};
                 {| el := S (nextElement (page w)); kind := loadingMsg;
                    textContent := Str (js "Thinking") |}])
          (chatMessages (page w)).
Proof. apply onresult_final. Qed.

(** X24. The listening notice comes and goes. [onstart] marks the
    recording and shows the notice. When a result then arrives whose
    final transcripts from [resultIndex] on are not blank, while a
    conversation is going on, no response is being generated, the input
    box exists and the NPC has a history, [onresult] removes the notice
    with every other system message that holds "Listening", and sends the
    trimmed transcript: the message list is the earlier one without such
    notices, followed by the message and the loading notice. *)
Theorem X24_listening_notice_is_removed (resultIndex : nat)
    (results : list Recognition.SpeechResult) (w : World)
    (mic : Recognition.Mic) (npc : NPC) (typedText : jsstring)
    (old : list Entry) :
  let final := concat (map Recognition.transcript
                         (List.filter Recognition.isFinal
                            (drop resultIndex results))) in
  currentNPC (chat w) = Some npc →
  isGenerating (chat w) = false →
  chatInput (page w) = Some typedText →
  trim final ≠ [] →
  conversationHistory (chat w) !! id npc = Some old →
  ∃ w0 mic1 sent w1,
    Recognition.onstart (w, mic) = (Ret tt, (w0, mic1))
    ∧ Recognition.isRecording mic1 = true
    ∧ chatMessages (page w0)
      = appended systemMsg (Str (js "🎤 Listening...")) (nextElement (page w))
          (chatMessages (page w))
    ∧ Recognition.onresult resultIndex results w0 = (Ret (Some sent), w1)
    ∧ fst sent = trim final
    ∧ chatMessages (page w1)
      = option_map
          (fun els =>
             Recognition.removeListening els
             ++ [{| el := S (nextElement (page w)); kind := userMsg;
                    textContent := Str (trim final) |};
                 {| el := S (S (nextElement (page w))); kind := loadingMsg;
                    textContent := Str (js "Thinking") |}])
          (chatMessages (page w)).
Proof.
  intros final Hnpc Hgen Hin Hv Hold.
  destruct w as [c [ui msgs input label next] synth later mgr ctrls].
  simpl in Hnpc, Hgen, Hin, Hold.
  unfold Recognition.onstart, Recognition.onMic, Recognition.onWorld,
    Common.addMessageToUI, bind, gets, modify, ret.
  destruct mic as [rec btn sr]. simpl.
  destruct msgs as [els |]; simpl;
    match goal with
    | |- ∃ w0 mic1 sent w1, (_, (?W, ?M)) = _ ∧ _ =>
        destruct (onresult_final resultIndex results W npc typedText old
                    Hnpc Hgen Hin Hv Hold) as (w1 & Hrun & _ & _ & _ & Hm);
        exists W, M; eexists; exists w1
    end;
    (split; [reflexivity |]); (split; [reflexivity |]);
    (split; [reflexivity |]); (split; [exact Hrun |]);
    (split; [reflexivity |]);
    rewrite Hm;
    cbn [option_map chatMessages page withPage setNextElement
         setChatMessages nextElement];
    [| reflexivity].
  by rewrite removeListening_notice.
Qed.

End Dictation.

Lemma X16_interim_results_send_nothing_witness :
  ∃ w',
    Recognition.onresult 1
      [{| Recognition.transcript := js "hello";
          Recognition.isFinal := true |};
       {| Recognition.transcript := js "how are";
          Recognition.isFinal := false |}] withMinjun
    = (Ret None, w')
    ∧ chat w' = chat withMinjun
    ∧ chatMessages (page w') = chatMessages (page withMinjun).
Proof.
  destruct (X16_interim_results_send_nothing 1
              [{| Recognition.transcript := js "hello";
                  Recognition.isFinal := true |};
               {| Recognition.transcript := js "how are";
                  Recognition.isFinal := false |}] withMinjun)
    as (_ & w' & Hrun & Hc & Hm & _).
  - reflexivity.
  - exists w'. auto.
Defined.

Lemma X17_final_result_is_sent_witness :
  ∃ w1,
    Recognition.onresult 0
      [{| Recognition.transcript := js "how are ";
          Recognition.isFinal := true |};
       {| Recognition.transcript := js "you ";
          Recognition.isFinal := true |}]
      (typed (js "typed before") withMinjun)
    = (Ret (Some (js "how are you", Some 2%nat)), w1)
    ∧ conversationHistory (chat w1)
      = {[ js "minjun" := [{| role := user;
                              content := Str (js "how are you") |}] ]}.
Proof.
  destruct (X17_final_result_is_sent 0
              [{| Recognition.transcript := js "how are ";
                  Recognition.isFinal := true |};
               {| Recognition.transcript := js "you ";
                  Recognition.isFinal := true |}]
              (typed (js "typed before") withMinjun)
              {| id := js "minjun"; config := Some minjunConfig |}
              (js "typed before") [])
    as (w1 & Hrun & Hhist & _).
  - reflexivity.
  - reflexivity.
  - reflexivity.
  - vm_compute. discriminate.
  - vm_compute. reflexivity.
  - exists w1. split; [exact Hrun |]. rewrite Hhist. vm_compute. reflexivity.
Defined.



Lemma X24_listening_notice_is_removed_witness :
  ∃ w0 mic1 sent w1,
    Recognition.onstart
      (typed (js "typed before") withMinjun,
       {| Recognition.isRecording := false;
          Recognition.voiceBtn :=
            Some {| Recognition.recording := false;
                    Recognition.label := js "🎤";
                    Recognition.opacity := None;
                    Recognition.title := None |};
          Recognition.speechRecognition := Some [Recognition.startCall] |})
    = (Ret tt, (w0, mic1))
    ∧ Recognition.onresult 0
        [{| Recognition.transcript := js "hello";
            Recognition.isFinal := true |}] w0
      = (Ret (Some sent), w1)
    ∧ option_map (map kind) (chatMessages (page w1))
      = Some [npcMsg; userMsg; loadingMsg].
Proof.
  destruct (X24_listening_notice_is_removed 0
              [{| Recognition.transcript := js "hello";
                  Recognition.isFinal := true |}]
              (typed (js "typed before") withMinjun)
              {| Recognition.isRecording := false;
                 Recognition.voiceBtn :=
                   Some {| Recognition.recording := false;
                           Recognition.label := js "🎤";
                           Recognition.opacity := None;
                           Recognition.title := None |};
                 Recognition.speechRecognition :=
                   Some [Recognition.startCall] |}
              {| id := js "minjun"; config := Some minjunConfig |}
              (js "typed before") [])
    as (w0 & mic1 & sent & w1 & Hstart & _ & _ & Hrun & _ & Hm).
  - reflexivity.
  - reflexivity.
  - reflexivity.
  - vm_compute. discriminate.
  - vm_compute. reflexivity.
  - exists w0, mic1, sent, w1. split; [exact Hstart |].
    split; [exact Hrun |]. rewrite Hm. vm_compute. reflexivity.
Defined.

(** ** The request of the WebLLM version, within [sendMessage] *)

Lemma sliceLast_snoc {A} (n : nat) (l : list A) (x : A) :
  WebLLM.sliceLast (S n) (l ++ [x]) = WebLLM.sliceLast n l ++ [x].
Proof.
  unfold WebLLM.sliceLast. rewrite length_app. simpl.
  replace (length l + 1 - S n)%nat with (length l - n)%nat by lia.
  rewrite skipn_app.
  replace (length l - n - length l)%nat with 0%nat by lia. reflexivity.
Qed.

Section Request.
Variable toLowerCase : jsstring -> jsstring.

(** X19. In [sendMessage] of the WebLLM version the engine gets the
    message twice. [sendMessage] records the message in the history
    before [generateResponse] runs, and [generateWithLLM] appends it to
    the last six history entries, of which it is the last: the request
    that the engine receives is the system prompt, the last five of the
    earlier entries, and the message two times. *)
Theorem X19_llm_request_repeats_the_message (w : World) (npc : NPC)
    (cfg : Config.t) (v : jsstring) (old : list Entry)
    (create : list Entry → outcome jsstring) :
  currentNPC (chat w) = Some npc →
  config npc = Some cfg →
  isGenerating (chat w) = false →
  chatInput (page w) = Some v →
  trim v ≠ [] →
  conversationHistory (chat w) !! id npc = Some old →
  engine (chat w) = Some create →
  let message := {| role := user; content := Str (trim v) |} in
  let request :=
    {| role := system; content := Str (Config.systemPrompt cfg) |}
    :: map Spec.asRequest (WebLLM.sliceLast 5 old) ++ [message; message] in
  ∃ w1 loadingMsgEl w2,
    Common.sendMessage_enter w = (Ret (Some (trim v)), w1)
    ∧ (bind (modify (withChat (setIsGenerating true))) (fun _ =>
         Common.addMessageToUI loadingMsg (Str (js "Thinking")))) w1
      = (Ret loadingMsgEl, w2)
    ∧ WebLLM.buildMessages (trim v) w2 = (Ret request, w2)
    ∧ WebLLM.generateWithLLM (trim v) w2
      = (match create request with
         | Ret reply => Ret (Str (trim reply))
         | Throw e => Throw e
         end, w2).
Proof.
  intros Hnpc Hcfg Hgen Hin Hv Hold Hengine message request.
  destruct (sendMessage_begin_view w npc v old Hnpc Hgen Hin Hv Hold)
    as (w2 & Hbegin & Hview & _).
  unfold AIChat.sendMessage_begin in Hbegin. unfold bind at 1 in Hbegin.
  destruct (Common.sendMessage_enter w) as [[[m |] | e] w1];
    [| discriminate | discriminate].
  unfold AIChat.generateResponse_enter in Hbegin.
  unfold bind at 1 in Hbegin.
  destruct ((bind (modify (withChat (setIsGenerating true))) (fun _ =>
               Common.addMessageToUI loadingMsg (Str (js "Thinking")))) w1)
    as [[el | e] w2'] eqn:Henter; [| discriminate].
  injection Hbegin as -> _ ->.
  exists w1, el, w2. split; [reflexivity |]. split; [exact Henter |].
  assert (chat w2
          = setIsGenerating true
              (setHistory (<[id npc := old ++ [message]]>
                             (conversationHistory (chat w))) (chat w)))
    as Hc by (by injection Hview).
  assert (WebLLM.buildMessages (trim v) w2 = (Ret request, w2)) as Hb.
  { unfold WebLLM.buildMessages. rewrite bind_gets, Hc. simpl.
    rewrite Hnpc, Hcfg. rewrite bind_gets, Hc. simpl.
    unfold get. rewrite lookup_insert_eq.
    rewrite (sliceLast_snoc 5 old message), map_app. simpl.
    unfold ret, request. do 3 f_equal. rewrite <- app_assoc. reflexivity. }
  split; [exact Hb |].
  unfold WebLLM.generateWithLLM. unfold bind at 1. rewrite Hb.
  rewrite bind_gets, Hc. simpl. rewrite Hengine.
  unfold bind, liftO, ret. destruct (create request); reflexivity.
Qed.

End Request.

Lemma X19_llm_request_repeats_the_message_witness :
  let w := withChat (fun c =>
             {| isLoaded := true;
                engine := Some (fun _ => Ret (js " Hello! "));
                isGenerating := false; currentNPC := currentNPC c;
                conversationHistory := conversationHistory c |})
             (typed (js " hi ") withMinjun) in
  ∃ w1 loadingMsgEl w2,
    Common.sendMessage_enter w = (Ret (Some (js "hi")), w1)
    ∧ (bind (modify (withChat (setIsGenerating true))) (fun _ =>
         Common.addMessageToUI loadingMsg (Str (js "Thinking")))) w1
      = (Ret loadingMsgEl, w2)
    ∧ WebLLM.buildMessages (js "hi") w2
      = (Ret [{| role := system;
                 content := Str (Config.systemPrompt minjunConfig) |};
              {| role := user; content := Str (js "hi") |};
              {| role := user; content := Str (js "hi") |}], w2).
Proof.
  intros w.
  destruct (X19_llm_request_repeats_the_message w
              {| id := js "minjun"; config := Some minjunConfig |}
              minjunConfig (js " hi ") [] (fun _ => Ret (js " Hello! ")))
    as (w1 & el & w2 & Henter & Hload & Hb & _).
  - reflexivity.
  - reflexivity.
  - reflexivity.
  - reflexivity.
  - vm_compute. discriminate.
  - vm_compute. reflexivity.
  - reflexivity.
  - exists w1, el, w2. split; [exact Henter |]. split; [exact Hload |].
    exact Hb.
Defined.




Section RequestAnswered.
Variable toLowerCase : jsstring -> jsstring.



End RequestAnswered.


(** ** The retry of [speak] *)

Section Retry.
Variable toLowerCase : jsstring -> jsstring.

(** X21. A text whose [speak] was postponed is not lost. While no voice
    is installed, [speak] queues nothing and sets a timer for the text;
    when the timer fires, the text is postponed again as long as no voice
    is installed, and queued, alone, once one is, with the voice chosen
    for the NPC that is current when the timer fires; the timer does not
    throw. *)
Theorem X21_postponed_text_is_retried (w : World) (t : value)
    (rest : list value) (sy : Synth) :
  speechSynthesis w = Some sy →
  (voices sy = [] →
   ∃ w1,
     AIChat.speak toLowerCase t w = (Ret tt, w1)
     ∧ speechSynthesis w1 = Some {| voices := []; queue := [] |}
     ∧ speakLater w1 = speakLater w ++ [t])
  ∧ (speakLater w = t :: rest →
     ∃ final,
       AIChat.speakTimer toLowerCase w = (Ret tt, final)
       ∧ chat final = chat w
       ∧ (voices sy = [] →
          speakLater final = rest ++ [t]
          ∧ speechSynthesis final = Some {| voices := []; queue := [] |})
       ∧ (voices sy ≠ [] →
          speakLater final = rest
          ∧ speechSynthesis final
            = Some {| voices := voices sy;
                      queue := [AIChat.utter toLowerCase (currentNPC (chat w))
                                  (voices sy) t] |})).
Proof.
  destruct w as [c p synth later mgr ctrls]. simpl. intros ->.
  destruct sy as [vs q]. simpl. split.
  - intros ->. eexists. split; [reflexivity |]. split; reflexivity.
  - intros ->.
    unfold AIChat.speakTimer, AIChat.speak, bind, gets, modify, ret. simpl.
    destruct vs as [| v vs]; simpl;
      (eexists; split; [reflexivity |]; simpl; split; [reflexivity |]);
      split; try done; intros _; split; reflexivity.
Qed.

End Retry.

Lemma X21_postponed_text_is_retried_witness :
  let w := setSynth (Some {| voices := []; queue := [] |}) withMinjun in
  let w1 := snd (AIChat.speak asciiLower (Str (js "Hello")) w) in
  let w2 := setSynth (Some {| voices := sampleVoices; queue := [] |}) w1 in
  speakLater w1 = [Str (js "Hello")]
  ∧ ∃ final,
      AIChat.speakTimer asciiLower w2 = (Ret tt, final)
      ∧ speakLater final = []
      ∧ option_map (fun s => map text (queue s)) (speechSynthesis final)
        = Some [Str (js "Hello")].
Proof.
  intros w w1 w2. split.
  - destruct (X21_postponed_text_is_retried asciiLower w (Str (js "Hello"))
                [] {| voices := []; queue := [] |} eq_refl)
      as [Hspeak _].
    destruct (Hspeak eq_refl) as (w1' & Hrun & _ & Hlater).
    unfold w1. rewrite Hrun. exact Hlater.
  - destruct (X21_postponed_text_is_retried asciiLower w2 (Str (js "Hello"))
                [] {| voices := sampleVoices; queue := [] |} eq_refl)
      as [_ Htimer].
    destruct (Htimer eq_refl) as (final & Hrun & _ & _ & Hvoices).
    destruct Hvoices as [Hl Hs]; [discriminate |].
    exists final. split; [exact Hrun |]. split; [exact Hl |].
    rewrite Hs. reflexivity.
Defined.

(** ** The fallback to the default responses *)

(** The categories that the [if]/[else if] chain can give for an id. *)
Lemma classify_range (i lowerMsg : jsstring) :
  classify i lowerMsg ∈ [greeting; question; name; hobby; feeling; default]
  ∨ (classify i lowerMsg = school ∧ i ≠ js "yuna")
  ∨ (classify i lowerMsg = study ∧ i = js "yuna")
  ∨ (classify i lowerMsg = art ∧ i = js "sooyeon")
  ∨ (classify i lowerMsg = joke ∧ i = js "jihoon").
Proof.
  unfold classify, str_eqb.
  repeat (destruct (Regex.matches lowerMsg _);
          [first [ left; apply (bool_decide_unpack _); vm_compute; reflexivity
                 | idtac ] |]).
  all: repeat case_bool_decide; simpl; try tauto.
  all: try (left; apply (bool_decide_unpack _); vm_compute; reflexivity).
Qed.

Lemma personalities_cases (i : jsstring) (p : Personality) :
  personalities !! i = Some p →
  (i = js "minjun" ∧ p = minjun) ∨ (i = js "sooyeon" ∧ p = sooyeon)
  ∨ (i = js "jihoon" ∧ p = jihoon) ∨ (i = js "yuna" ∧ p = yuna).
Proof.
  intros H. apply elem_of_list_to_map_2 in H.
  rewrite !elem_of_cons, elem_of_nil in H.
  destruct H as [[= -> ->] | [[= -> ->] | [[= -> ->] | [[= -> ->] | []]]]];
    auto.
Qed.

(** X22. Every array of the tables can be selected, and the fallback
    [|| npc.responses['default']] is taken for one kind of message only:
    for a student of the tables, the category chosen for a message has no
    array of its own exactly when the message is about school and the
    student is Soo-yeon or Ji-hoon; and every category that has an array
    in the table of the student is chosen for some message. *)
Theorem X22_default_fallback_only_for_school (i lowerMsg : jsstring)
    (p : Personality) :
  personalities !! i = Some p →
  (responses p (classify i lowerMsg) = None
   ↔ classify i lowerMsg = school ∧ (i = js "sooyeon" ∨ i = js "jihoon"))
  ∧ (∀ c, is_Some (responses p c) → ∃ m, classify i m = c).
Proof.
  intros Hp. split.
  - assert (∀ (j : jsstring) (q : Personality) (c : Category),
              (i, p, classify i lowerMsg) = (j, q, c) →
              (responses q c = None
               ↔ c = school ∧ (j = js "sooyeon" ∨ j = js "jihoon")) →
              (responses p (classify i lowerMsg) = None
               ↔ classify i lowerMsg = school
                 ∧ (i = js "sooyeon" ∨ i = js "jihoon"))) as Hgo
      by (by intros j q c [= -> -> ->]).
    pose proof (classify_range i lowerMsg) as Hr.
    rewrite !elem_of_cons, elem_of_nil in Hr.
    destruct (personalities_cases i p Hp)
      as [[-> ->] | [[-> ->] | [[-> ->] | [-> ->]]]];
      destruct Hr as [[Hc | [Hc | [Hc | [Hc | [Hc | [Hc | []]]]]]]
                     | [[Hc Hi] | [[Hc Hi] | [[Hc Hi] | [Hc Hi]]]]];
      try (by destruct Hi); try (vm_compute in Hi; discriminate Hi);
      (eapply Hgo; [by rewrite Hc |]);
      simpl;
      (split;
       [ intros H; first [ discriminate H
                         | split; [reflexivity | first [by left | by right]] ]
       | intros [H1 [H2 | H2]];
         first [ discriminate H1
               | vm_compute in H2; discriminate H2
               | reflexivity ] ]).
  - intros c Hc.
    exists (match c with
            | greeting => js "hi" | question => js "what?"
            | name => js "name" | hobby => js "hobby"
            | feeling => js "mood" | school | study => js "school"
            | art => js "art" | joke => js "joke" | default => []
            end).
    destruct (personalities_cases i p Hp)
      as [[-> ->] | [[-> ->] | [[-> ->] | [-> ->]]]];
      destruct c; simpl in Hc;
      try (by destruct Hc as [? [=]]);
      vm_compute; reflexivity.
Qed.

Lemma X22_default_fallback_only_for_school_witness :
  responses sooyeon (classify (js "sooyeon") (js "i like school")) = None
  ∧ candidates (js "sooyeon") (classify (js "sooyeon") (js "i like school"))
    = Ret (map js ["...okay."; "*nods quietly*"; "I see..."; "...maybe..."]%string).
Proof.
  split; [| vm_compute; reflexivity].
  apply (X22_default_fallback_only_for_school (js "sooyeon")
           (js "i like school") sooyeon).
  - vm_compute. reflexivity.
  - split; [vm_compute; reflexivity | by left].
Defined.

(** ** The reaction of the student *)

Lemma hoare_frame {A} (P I : World → Prop) (c : M World A)
    (Q : A → World → Prop) :
  hoare P c Q → keeps I c →
  hoare (fun w => P w ∧ I w) c (fun a w => Q a w ∧ I w).
Proof.
  intros Hc Hk w [HP HI]. destruct (Hc w HP) as (a & Ha & HQ).
  exists a. split; [exact Ha |]. split; [exact HQ |]. by apply Hk.
Qed.

Section Reaction.
Variable toLowerCase : jsstring -> jsstring.

(** X23. A response makes the student react, and nobody else. With a
    current NPC whose id names no member of [Object.prototype] and has a
    history, a manager that
    holds the current NPC and a controller with a body, the controller of
    the current NPC is asked for one reaction, [nod] or [excited] and
    never [shake]; its [isActive] is as it was, and the manager and every
    other controller are untouched. *)
Theorem X23_response_makes_the_student_react (w : World) (r r' : random)
    (loadingMsgEl : option nat) (msg : jsstring) (npc : NPC)
    (history : list Entry) (m : NPCManager.t) (l : nat) (c : Controller) :
  currentNPC (chat w) = Some npc →
  inPrototype (id npc) = false →
  conversationHistory (chat w) !! id npc = Some history →
  npcManager w = Some m →
  NPCManager.npcs m !! id npc = Some l →
  controllers w !! l = Some c →
  body c = true →
  ∃ final reaction,
    AIChat.generateResponse_resume toLowerCase r r' loadingMsgEl msg w
    = (Ret tt, final)
    ∧ reaction ∈ [nod; excited]
    ∧ npcManager final = Some m
    ∧ controllers final
      = <[l := {| isActive := isActive c; body := true;
                  reactions := reactions c ++ [reaction] |}]> (controllers w).
Proof.
  intros Hnpc Hp Hl Hm Hnpcs Hc Hbody.
  destruct (generateSmartResponse_returns toLowerCase r msg w npc Hnpc Hp)
    as (s & Hgsr & _).
  assert (floorScale r' 2 < 2)%nat as Hlt by (apply floorScale_lt; lia).
  assert (∃ reaction, [nod; excited] !! floorScale r' 2 = Some reaction
                      ∧ reaction ∈ [nod; excited]) as (reaction & Hr & Hin).
  { destruct (floorScale r' 2) as [| [| k]]; [| | lia];
      eexists; (split; [reflexivity |]);
      rewrite !elem_of_cons; auto. }
  set (I := fun w' : World =>
         npcManager w' = Some m ∧ controllers w' = controllers w).
  set (J := fun w' : World =>
         npcManager w' = Some m
         ∧ controllers w'
           = <[l := {| isActive := isActive c; body := true;
                       reactions := reactions c ++ [reaction] |}]>
               (controllers w)).
  assert (hoare (fun w' => w' = w)
            (AIChat.generateResponse_resume toLowerCase r r' loadingMsgEl msg)
            (fun _ => J)) as Hh.
  { unfold AIChat.generateResponse_resume.
    apply hoare_bind with (Q := fun _ => J);
      [| intros []; apply hoare_modify; intros w' H; exact H].
    apply hoare_tryCatch.
    apply hoare_bind with
      (Q := fun a w' => a = Str s ∧ (view w' = view w ∧ I w')).
    { intros w' Hw'. subst w'. exists (Str s). rewrite Hgsr.
      split; [reflexivity |]. split; [reflexivity |]. by split. }
    intros a. apply hoare_assume. intros ->.
    eapply hoare_bind.
    { apply hoare_frame; [apply view_removeElement |].
      unfold Common.removeElement. repeat keeps_step. }
    intros [].
    eapply hoare_bind.
    { apply hoare_frame; [apply view_addMessageToUI |].
      unfold Common.addMessageToUI. repeat keeps_step. }
    intros a. eapply hoare_pre with
      (P := fun w' => True ∧ (view w' = _ ∧ I w'));
      [intros w' [[_ Hv] HI]; split; [exact Logic.I | split; [exact Hv | exact HI]] |].
    apply hoare_assume. intros _.
    eapply hoare_bind.
    { apply hoare_frame; [by apply (view_currentId _ _ _ _ _ npc) |].
      unfold currentId. repeat keeps_step. }
    intros i. eapply hoare_pre with
      (P := fun w' => i = id npc ∧ (view w' = _ ∧ I w'));
      [intros w' [[Hi Hv] HI]; split; [exact Hi | split; [exact Hv | exact HI]] |].
    apply hoare_assume. intros ->.
    eapply hoare_bind.
    { apply hoare_frame; [by eapply view_pushHistory |].
      unfold pushHistory. repeat keeps_step. }
    intros [].
    apply hoare_gets_eq with (x := Some m); [by intros w' [_ [HM _]] |].
    apply hoare_bind with (Q := fun _ => J).
    { intros w' [Hv [HM HC]].
      rewrite (bind_currentId _ w' npc)
        by (rewrite (view_chat _ _ _ _ _ w' Hv); exact Hnpc).
      rewrite Hr. exists tt.
      unfold onManager, NPCManager.triggerReaction, NPCManager.getNPC,
        NPCManager.react, bind, gets, modify, get, J.
      rewrite HM, HC. simpl. rewrite Hnpcs. simpl. rewrite Hc, Hbody.
      simpl. auto. }
    intros []. intros w' HJ. exists tt.
    split; [by destruct (returns_speak toLowerCase (Str s) w') as [[] Hs] |].
    revert w' HJ. change (keeps J (AIChat.speak toLowerCase (Str s))).
    unfold AIChat.speak. repeat keeps_step. }
  destruct (Hh w eq_refl) as ([] & Hfst & HM & HC).
  exists (snd (AIChat.generateResponse_resume toLowerCase r r' loadingMsgEl
                 msg w)), reaction.
  split; [| by split].
  destruct (AIChat.generateResponse_resume _ _ _ _ _ _) as [o f].
  simpl in Hfst. by subst o.
Qed.

End Reaction.

Lemma X23_response_makes_the_student_react_witness :
  let w := snd (AIChat.sendMessage_begin (typed (js "hello") withMinjun)) in
  ∃ final reaction,
    AIChat.generateResponse_resume asciiLower rnd0 rndHalf (Some 2%nat)
      (js "hello") w
    = (Ret tt, final)
    ∧ reaction ∈ [nod; excited]
    ∧ option_map reactions (controllers final !! 0%nat) = Some [reaction].
Proof.
  intros w.
  destruct (X23_response_makes_the_student_react asciiLower w rnd0 rndHalf
              (Some 2%nat) (js "hello")
              {| id := js "minjun"; config := Some minjunConfig |}
              [{| role := user; content := Str (js "hello") |}]
              {| NPCManager.npcs :=
                   list_to_map [(js "minjun", 0%nat); (js "sooyeon", 1%nat);
                                (js "jihoon", 2%nat); (js "yuna", 3%nat)];
                 NPCManager.activeNPC := Some (js "minjun") |}
              0%nat {| isActive := true; body := true; reactions := [] |})
    as (final & reaction & Hrun & Hin & _ & Hctrl).
  - reflexivity.
  - reflexivity.
  - vm_compute. reflexivity.
  - vm_compute. reflexivity.
  - vm_compute. reflexivity.
  - vm_compute. reflexivity.
  - reflexivity.
  - exists final, reaction. split; [exact Hrun |]. split; [exact Hin |].
    rewrite Hctrl, lookup_insert_eq. reflexivity.
Defined.

(** ** Controllers that share an id *)

Section SharedIds.
Variable toLowerCase : jsstring -> jsstring.

(** X25. Names that differ only in case or in characters other than
    letters give one id, and the manager keeps one controller for an id:
    when two controllers whose names give the same id are initialised,
    the second takes the place of the first in the manager, which no
    longer holds the first under that id; both controllers are in the
    store, inactive, and [activeNPC] is as it was. *)
Theorem X25_same_id_replaces_the_controller (w : World) (m : NPCManager.t)
    (name1 name2 : jsstring) (body1 body2 : bool) (l1 l2 : nat) :
  npcManager w = Some m →
  Scene.npcIdOf toLowerCase name1 = Scene.npcIdOf toLowerCase name2 →
  l1 ≠ l2 →
  ∃ final,
    (bind (Scene.init toLowerCase name1 body1 l1) (fun _ =>
       Scene.init toLowerCase name2 body2 l2)) w = (Ret tt, final)
    ∧ npcManager final
      = Some {| NPCManager.npcs :=
                  <[Scene.npcIdOf toLowerCase name1 := l2]> (NPCManager.npcs m);
                NPCManager.activeNPC := NPCManager.activeNPC m |}
    ∧ (∀ m', npcManager final = Some m' →
             NPCManager.npcs m' !! Scene.npcIdOf toLowerCase name1 ≠ Some l1)
    ∧ controllers final !! l1
      = Some {| isActive := false; body := body1; reactions := [] |}
    ∧ controllers final !! l2
      = Some {| isActive := false; body := body2; reactions := [] |}
    ∧ chat final = chat w ∧ page final = page w.
Proof.
  intros Hm Hid Hne.
  destruct w as [c p synth later mgr ctrls]. simpl in Hm. subst mgr.
  unfold Scene.init, onManager, NPCManager.registerNPC, bind, modify. simpl.
  eexists. split; [reflexivity |]. simpl. rewrite <- Hid.
  rewrite insert_insert_eq.
  split; [reflexivity |].
  split.
  { intros m' [= <-]. simpl. rewrite lookup_insert_eq. congruence. }
  split; [by rewrite lookup_insert_ne, lookup_insert_eq |].
  split; [by rewrite lookup_insert_eq |]. by split.
Qed.

End SharedIds.

Lemma X25_same_id_replaces_the_controller_witness :
  ∃ final,
    (bind (Scene.init asciiLower (js "Min-jun") true 0) (fun _ =>
       Scene.init asciiLower (js "MINJUN 2") true 1))
      {| chat := chat loaded; page := page loaded;
         speechSynthesis := None; speakLater := [];
         npcManager := Some NPCManager.empty; controllers := ∅ |}
    = (Ret tt, final)
    ∧ npcManager final
      = Some {| NPCManager.npcs := {[ js "minjun" := 1%nat ]};
                NPCManager.activeNPC := None |}.
Proof.
  destruct (X25_same_id_replaces_the_controller asciiLower
              {| chat := chat loaded; page := page loaded;
                 speechSynthesis := None; speakLater := [];
                 npcManager := Some NPCManager.empty; controllers := ∅ |}
              NPCManager.empty (js "Min-jun") (js "MINJUN 2") true true 0 1)
    as (final & Hrun & Hmgr & _).
  - reflexivity.
  - vm_compute. reflexivity.
  - discriminate.
  - exists final. split; [exact Hrun |]. rewrite Hmgr.
    vm_compute. reflexivity.
Defined.

(** ** The recording indicator *)

(** X26. The recording indicator goes back to idle however the
    recognizer ends. From an idle microphone (not recording, the button,
    if there is one, without the class [recording] and showing the
    microphone), [onstart] followed by [onend], or by [onerror] with any
    error, leaves the microphone exactly as it was but for the call of
    [stop()] made on the recognizer; neither handler throws, and neither
    touches the fields of the chat. *)
Theorem X26_recording_indicator_round_trip (w : World)
    (mic : Recognition.Mic) (error : jsstring) :
  Recognition.isRecording mic = false →
  (∀ b, Recognition.voiceBtn mic = Some b →
        Recognition.recording b = false ∧ Recognition.label b = js "🎤") →
  let started := snd (Recognition.onstart (w, mic)) in
  Recognition.isRecording (snd started) = true
  ∧ (∃ w1, Recognition.onend started
           = (Ret tt, (w1, Recognition.call Recognition.stopCall mic))
           ∧ w1 = fst started)
  ∧ (∃ w2, Recognition.onerror error started
           = (Ret tt, (w2, Recognition.call Recognition.stopCall mic))
           ∧ chat w2 = chat w).
Proof.
  destruct mic as [rec btn sr]. simpl. intros -> Hbtn.
  destruct w as [c [ui msgs input label next] synth later mgr ctrls].
  assert (Recognition.setButton
            (fun b => {| Recognition.recording := false;
                         Recognition.label := js "🎤";
                         Recognition.opacity := Recognition.opacity b;
                         Recognition.title := Recognition.title b |})
            (Recognition.setIsRecording false
               (Recognition.setButton
                  (fun b => {| Recognition.recording := true;
                               Recognition.label := js "🔴";
                               Recognition.opacity := Recognition.opacity b;
                               Recognition.title := Recognition.title b |})
                  (Recognition.setIsRecording true
                     {| Recognition.isRecording := false;
                        Recognition.voiceBtn := btn;
                        Recognition.speechRecognition := sr |})))
          = {| Recognition.isRecording := false;
               Recognition.voiceBtn := btn;
               Recognition.speechRecognition := sr |}) as Hback.
  { unfold Recognition.setButton, Recognition.setIsRecording. simpl.
    f_equal. destruct btn as [[r l o t] |]; [| reflexivity].
    destruct (Hbtn _ eq_refl) as [Hr Hl]. simpl in Hr, Hl. subst r l.
    reflexivity. }
  unfold Recognition.onend, Recognition.onerror, Recognition.stopRecording,
    Recognition.onstart, Recognition.onMic, Recognition.onWorld,
    Common.addMessageToUI, bind, gets, modify, ret.
  unfold Recognition.setButton, Recognition.setIsRecording,
    Recognition.call in Hback |- *.
  simpl in Hback |- *. injection Hback as Hb.
  destruct msgs as [els |]; simpl;
    (split; [reflexivity |]);
    (split; [eexists; split; [rewrite Hb; reflexivity | reflexivity] |]);
    destruct (str_eqb error (js "not-allowed")); simpl;
    try (destruct (str_eqb error (js "aborted")); simpl);
    eexists; (split; [rewrite Hb; reflexivity | reflexivity]).
Qed.

Lemma X26_recording_indicator_round_trip_witness :
  let mic := {| Recognition.isRecording := false;
                Recognition.voiceBtn :=
                  Some {| Recognition.recording := false;
                          Recognition.label := js "🎤";
                          Recognition.opacity := None;
                          Recognition.title := None |};
                Recognition.speechRecognition :=
                  Some [Recognition.startCall] |} in
  ∃ w2,
    Recognition.onerror (js "no-speech")
      (snd (Recognition.onstart (withMinjun, mic)))
    = (Ret tt, (w2, Recognition.call Recognition.stopCall mic)).
Proof.
  intros mic.
  destruct (X26_recording_indicator_round_trip withMinjun mic
              (js "no-speech")) as (_ & _ & w2 & Hrun & _).
  - reflexivity.
  - intros b [= <-]. split; reflexivity.
  - exists w2. exact Hrun.
Defined.
